(** * Daily Darts: the scoring engine, the aim reticle, the round
      bookkeeping and the leaderboard store, embedded from the JavaScript and
      TypeScript sources and checked against the specification.

    Layout: the embedding comes first (one module per source file), the
    theorems follow.

    Numbers.  Every JavaScript number is an IEEE-754 binary64 value.  The
    embedding is written once, over the interfaces [JsArith] and [JsMath],
    and is used at
    two carriers:
    - [float], Rocq's primitive binary64 floats: the operations are the
      hardware ones, so a closed term evaluates to the very bits the
      JavaScript engine produces;
    - [R], the exact real numbers: the idealisation in which the order and
      field laws hold, used where a statement quantifies over all inputs and
      needs those laws. *)

From Stdlib Require Import ZArith Reals Lra Lia Floats String Sorted.
From stdpp Require Import gmap strings list.

(* ================================================================== *)
(** * JavaScript numbers and values                                    *)
(* ================================================================== *)

Module Js.

(** What the number type itself provides: the arithmetic, the comparisons
    and the functions that binary64 computes exactly as IEEE-754 defines
    them.  [ltb x y] is [x < y] and [leb x y] is [x <= y]; [x > y] and
    [x >= y] are the same tests with the operands exchanged. *)
Class JsArith (num : Type) : Type := {
  add : num -> num -> num;
  sub : num -> num -> num;
  mul : num -> num -> num;
  div : num -> num -> num;
  ltb : num -> num -> bool;
  leb : num -> num -> bool;
  rem : num -> num -> num;            (* the [%] operator *)
  ofZ : Z -> num;                     (* integer literals *)
  isFinite : num -> bool;             (* Number.isFinite *)
  sqrt : num -> num;                  (* Math.sqrt *)
  floor : num -> num;                 (* Math.floor *)
  PI : num;                           (* Math.PI *)
  max : num -> num -> num;            (* Math.max *)
  min : num -> num -> num;            (* Math.min *)
  toIndex : num -> option nat         (* a number used as an array index *)
}.

(** The [Math] functions the sources call that IEEE-754 leaves to the
    implementation. *)
Class JsMath (num : Type) `{JsArith num} : Type := {
  atan2 : num -> num -> num;          (* Math.atan2(y, x) *)
  cos : num -> num;                   (* Math.cos *)
  sin : num -> num;                   (* Math.sin *)
  hypot : num -> num -> num           (* Math.hypot *)
}.

Declare Scope js_scope.
Delimit Scope js_scope with js.
Infix "+" := add : js_scope.
Infix "-" := sub : js_scope.
Infix "*" := mul : js_scope.
Infix "/" := div : js_scope.
Infix "%%" := rem (at level 40, left associativity) : js_scope.
Infix "<?" := ltb : js_scope.
Infix "<=?" := leb : js_scope.
Notation "x >? y" := (ltb y x) : js_scope.
Notation "x >=? y" := (leb y x) : js_scope.

(** A decimal literal [m / 10^e], such as [0.01 = decimal 1 2].  At [float]
    both operands are exact and the division rounds to nearest, which is the
    double a JavaScript parser yields for the literal. *)
Definition decimal {num} `{JsArith num} (m : Z) (e : nat) : num :=
  div (ofZ m) (ofZ (10 ^ Z.of_nat e)).

(** A dynamically typed field: what [typeof] can tell apart. *)
Inductive JsValue (num : Type) : Type :=
| VUndefined
| VNull
| VBool (b : bool)
| VString (s : string)
| VNumber (n : num).
Arguments VUndefined {num}.
Arguments VNull {num}.
Arguments VBool {num} b.
Arguments VString {num} s.
Arguments VNumber {num} n.

(** ** The exact carrier *)

Definition Rltb (x y : R) : bool := if Rlt_dec x y then true else false.
Definition Rleb (x y : R) : bool := if Rle_dec x y then true else false.

(** Rounding toward zero, as [%] uses it. *)
Definition Rtrunc (x : R) : R :=
  if Rle_dec 0 x then IZR (Int_part x) else (- IZR (Int_part (- x)))%R.

Definition Rrem (a b : R) : R := (a - b * Rtrunc (a / b))%R.

Definition Ratan2 (y x : R) : R :=
  if Rlt_dec 0 x then atan (y / x)
  else if Rlt_dec x 0 then
    (if Rle_dec 0 y then atan (y / x) + Rtrigo1.PI else atan (y / x) - Rtrigo1.PI)%R
  else if Rlt_dec 0 y then (Rtrigo1.PI / 2)%R
  else if Rlt_dec y 0 then (- (Rtrigo1.PI / 2))%R
  else 0%R.

Definition RtoIndex (x : R) : option nat :=
  if Req_dec_T x (IZR (Int_part x)) then
    if (0 <=? Int_part x)%Z then Some (Z.to_nat (Int_part x)) else None
  else None.

#[export] Instance RealArith : JsArith R := {
  add := Rplus; sub := Rminus; mul := Rmult; div := Rdiv;
  ltb := Rltb; leb := Rleb;
  rem := Rrem;
  ofZ := IZR;
  isFinite := fun _ => true;
  sqrt := R_sqrt.sqrt;
  floor := fun x => IZR (Int_part x);
  PI := Rtrigo1.PI;
  max := Rmax;
  min := Rmin;
  toIndex := RtoIndex
}.

#[export] Instance RealMath : JsMath R := {
  atan2 := Ratan2;
  cos := Rtrigo_def.cos;
  sin := Rtrigo_def.sin;
  hypot := fun x y => R_sqrt.sqrt (x * x + y * y)
}.

(** ** The binary64 carrier *)

Definition float_ofZ (z : Z) : float :=
  if (z <? 0)%Z then PrimFloat.opp (PrimFloat.of_uint63 (Uint63.of_Z (- z)))
  else PrimFloat.of_uint63 (Uint63.of_Z z).

(** [Math.max] and [Math.min]: a NaN operand wins, and [-0] is below [+0]. *)
Definition float_max (a b : float) : float :=
  if PrimFloat.is_nan a then a
  else if PrimFloat.is_nan b then b
  else if PrimFloat.ltb a b then b
  else if PrimFloat.ltb b a then a
  else if PrimFloat.is_zero a then PrimFloat.add a b
  else a.

Definition float_min (a b : float) : float :=
  if PrimFloat.is_nan a then a
  else if PrimFloat.is_nan b then b
  else if PrimFloat.ltb a b then a
  else if PrimFloat.ltb b a then b
  else if PrimFloat.is_zero a
       then PrimFloat.opp (PrimFloat.add (PrimFloat.opp a) (PrimFloat.opp b))
  else a.

Definition float_toIndex (x : float) : option nat :=
  match Prim2SF x with
  | S754_zero _ => Some 0%nat
  | S754_finite false m e =>
      if (0 <=? e)%Z then Some (Z.to_nat (Z.pos m * 2 ^ e))
      else if (Z.pos m mod 2 ^ (- e) =? 0)%Z
           then Some (Z.to_nat (Z.pos m / 2 ^ (- e)))
      else None
  | _ => None
  end.

(** The binary64 value of the integer [m] times [2^e], rounded to nearest;
    a zero gets the sign [szero]. *)
Definition float_exact (m e : Z) (szero : bool) : float :=
  SF2Prim (binary_normalize prec emax m e szero).

(** [%] on binary64 is the C function [fmod]: the exact remainder of the
    division truncated toward zero, with the sign of the dividend. *)
Definition float_rem (x y : float) : float :=
  match Prim2SF x, Prim2SF y with
  | S754_nan, _ | _, S754_nan => PrimFloat.nan
  | S754_infinity _, _ => PrimFloat.nan
  | _, S754_zero _ => PrimFloat.nan
  | S754_zero _, _ => x
  | S754_finite _ _ _, S754_infinity _ => x
  | S754_finite sx mx ex, S754_finite _ my ey =>
      let e := Z.min ex ey in
      let X := (Z.pos mx * 2 ^ (ex - e))%Z in
      let Y := (Z.pos my * 2 ^ (ey - e))%Z in
      float_exact (cond_Zopp sx (X mod Y)) e sx
  end.

(** [Math.floor] on binary64: exact, and [-0] stays [-0]. *)
Definition float_floor (x : float) : float :=
  match Prim2SF x with
  | S754_finite s m e =>
      if (0 <=? e)%Z then x
      else float_exact (cond_Zopp s (Z.pos m) / 2 ^ (- e)) 0 s
  | _ => x
  end.

#[export] Instance FloatArith : JsArith float := {
  add := PrimFloat.add; sub := PrimFloat.sub;
  mul := PrimFloat.mul; div := PrimFloat.div;
  ltb := PrimFloat.ltb; leb := PrimFloat.leb;
  rem := float_rem;
  ofZ := float_ofZ;
  isFinite := PrimFloat.is_finite;
  sqrt := PrimFloat.sqrt;
  floor := float_floor;
  PI := 0x1.921fb54442d18p+1%float;
  max := float_max;
  min := float_min;
  toIndex := float_toIndex
}.

(** IEEE-754 does not fix the results of the trigonometric functions and
    of [hypot], and Rocq's primitive floats do not have them.  A binary64
    [JsMath] takes them as a parameter. *)
Record Libm : Type := {
  lm_atan2 : float -> float -> float;
  lm_cos : float -> float;
  lm_sin : float -> float;
  lm_hypot : float -> float -> float
}.

Definition FloatMath (lm : Libm) : JsMath float := {|
  atan2 := lm_atan2 lm;
  cos := lm_cos lm;
  sin := lm_sin lm;
  hypot := lm_hypot lm
|}.

End Js.

(* ================================================================== *)
(** * The order of binary64                                            *)
(* ================================================================== *)

Module FloatOrder.

(** The place of a binary64 value that is not NaN in the order of the
    comparisons: its class (infinities outermost, zeros in the middle), then
    its exponent, then its mantissa, the latter two negated for negative
    values. *)
Definition floatKey (f : spec_float) : option (Z * Z * Z) :=
  match f with
  | S754_nan => None
  | S754_infinity true => Some (-2, 0, 0)%Z
  | S754_infinity false => Some (2, 0, 0)%Z
  | S754_zero _ => Some (0, 0, 0)%Z
  | S754_finite true m e => Some (-1, - e, Z.neg m)%Z
  | S754_finite false m e => Some (1, e, Z.pos m)%Z
  end.

Definition keyLt (a b : Z * Z * Z) : Prop :=
  let '(a1, a2, a3) := a in
  let '(b1, b2, b3) := b in
  (a1 < b1 \/ (a1 = b1 /\ (a2 < b2 \/ (a2 = b2 /\ a3 < b3))))%Z.

Definition keyLe (a b : Z * Z * Z) : Prop :=
  let '(a1, a2, a3) := a in
  let '(b1, b2, b3) := b in
  (a1 < b1 \/ (a1 = b1 /\ (a2 < b2 \/ (a2 = b2 /\ a3 <= b3))))%Z.

Definition keyCompare (a b : Z * Z * Z) : comparison :=
  let '(a1, a2, a3) := a in
  let '(b1, b2, b3) := b in
  match (a1 ?= b1)%Z with
  | Eq => match (a2 ?= b2)%Z with
          | Eq => (a3 ?= b3)%Z
          | c => c
          end
  | c => c
  end.

End FloatOrder.

(* ================================================================== *)
(** * scoring.js: the scoring engine                                   *)
(* ================================================================== *)

Module Scoring.
Import Js.

Section Arith.
Context {num : Type} `{JsArith num}.
Local Open Scope js_scope.

(** The scoring configuration object, typed as the header of scoring.js
    documents it.  A field the code tests with [typeof], [Array.isArray],
    [?.] or a truthiness check keeps its dynamic type; the ring ratios and
    the entries of [numbers] are numbers. *)
Record RingRatios : Type := {
  outer : num;
  doubleInner : num;
  doubleOuter : num;
  tripleInner : num;
  tripleOuter : num;
  bullOuter : num;
  dbullOuter : num
}.

Record Points : Type := {
  bull : option num;       (* [None]: undefined or null *)
  dbull : option num
}.

Record ScoringConfig : Type := {
  segments : num;
  wedgeAngle : JsValue num;
  startAngle : JsValue num;
  direction : string;
  angleOffset : JsValue num;
  numbers : option (list num);          (* [None]: not an array *)
  ringRatios : option RingRatios;       (* [None]: missing *)
  ringEpsN : JsValue num;
  points : option Points;               (* [None]: missing *)
  boardRadius : JsValue num
}.

Inductive Ring : Type := MISS | DBULL | SBULL | DOUBLE | TRIPLE | SINGLE.

Record RingInfo : Type := { ri_ring : Ring; ri_mult : Z }.

(** The label is a string; a wedge label is the template
    [`${labelPrefix}${wedgeValue}`], kept unformatted. *)
Inductive Label : Type :=
| LabelText (s : string)
| LabelWedge (labelPrefix : string) (wedgeValue : num).

Record ScoreResult : Type := {
  sr_points : num;
  sr_label : Label;
  sr_wedge : option num;        (* [None]: null *)
  sr_wedgeIndex : option num;
  sr_mult : Z;
  sr_ring : Ring;
  sr_angle : num;
  sr_radius : num;
  sr_rNorm : num
}.

Definition normAngle0To2Pi (a : num) : num :=
  let TWO_PI := PI * ofZ 2 in
  let x := a %% TWO_PI in
  if x <? ofZ 0 then x + TWO_PI else x.

(** [None] where the JavaScript would do arithmetic on a [wedgeAngle] or
    [startAngle] that is not a number; [scoreFromBoardXY] checks both
    before it calls. *)
Definition wedgeIndexFromAngle (theta : num) (scoringConfig : ScoringConfig)
  : option num :=
  match wedgeAngle scoringConfig, startAngle scoringConfig with
  | VNumber wedgeAngle, VNumber startAngleCenter =>
      let direction :=
        if String.eqb (direction scoringConfig) "cw" then "cw" else "ccw" in
      let angleOffset :=
        match angleOffset scoringConfig with
        | VNumber o => o
        | _ => ofZ 0
        end in
      let a := normAngle0To2Pi (theta + angleOffset) in
      let delta :=
        if String.eqb direction "cw"
        then normAngle0To2Pi (startAngleCenter - a)
        else normAngle0To2Pi (a - startAngleCenter) in
      let idx := floor ((delta + wedgeAngle / ofZ 2) / wedgeAngle) %% ofZ 20 in
      Some idx
  | _, _ => None
  end.

Definition getRingEpsN (scoringConfig : ScoringConfig) : num :=
  match ringEpsN scoringConfig with
  | VNumber v => if isFinite v && (v >=? ofZ 0) then v else decimal 1 2
  | _ => decimal 1 2
  end.

(** [None] where the JavaScript would read a property of a missing
    [ringRatios]; [scoreFromBoardXY] checks it before it calls. *)
Definition ringFromRadiusRatio (rNorm : num) (scoringConfig : ScoringConfig)
  : option RingInfo :=
  match ringRatios scoringConfig with
  | None => None
  | Some rr =>
      let eps := getRingEpsN scoringConfig in
      Some (
        if rNorm >? outer rr + eps then
          {| ri_ring := MISS; ri_mult := 0 |}
        else if rNorm <=? dbullOuter rr + eps then
          {| ri_ring := DBULL; ri_mult := 0 |}
        else if rNorm <=? bullOuter rr + eps then
          {| ri_ring := SBULL; ri_mult := 0 |}
        else if (rNorm >=? doubleInner rr - eps) && (rNorm <=? doubleOuter rr + eps) then
          {| ri_ring := DOUBLE; ri_mult := 2 |}
        else if (rNorm >=? tripleInner rr - eps) && (rNorm <=? tripleOuter rr + eps) then
          {| ri_ring := TRIPLE; ri_mult := 3 |}
        else
          {| ri_ring := SINGLE; ri_mult := 1 |})
  end.

Definition missResult (r rNorm : num) : ScoreResult := {|
  sr_points := ofZ 0;
  sr_label := LabelText "MISS";
  sr_wedge := None;
  sr_wedgeIndex := None;
  sr_mult := 0;
  sr_ring := MISS;
  sr_angle := ofZ 0;
  sr_radius := r;
  sr_rNorm := rNorm
|}.

Definition ring_eqb (a b : Ring) : bool :=
  match a, b with
  | MISS, MISS | DBULL, DBULL | SBULL, SBULL
  | DOUBLE, DOUBLE | TRIPLE, TRIPLE | SINGLE, SINGLE => true
  | _, _ => false
  end.

(** [if (cond) errs.push(msg)] *)
Definition pushIf (cond : bool) (msg : string) (errs : list string)
  : list string :=
  if cond then errs ++ [msg] else errs.

Definition isNumber (v : JsValue num) : bool :=
  match v with VNumber _ => true | _ => false end.

(** The start-up validation pass.  The loop over the seven ring-ratio keys
    adds no error here, where the ratios are numbers by their type.  (The
    message about [direction] is written without its quotation marks.) *)
Definition validateScoringConfig (scoringConfig : option ScoringConfig)
  : bool * list string :=
  match scoringConfig with
  | None => (false, ["scoringConfig missing or not an object"])
  | Some c =>
      let errs := [] in
      let errs :=
        pushIf
          (match numbers c with
           | Some ns => negb (length ns =? 20)%nat
           | None => true
           end)
          "scoringConfig.numbers must be an array of length 20" errs in
      let errs :=
        pushIf (negb (isNumber (startAngle c)))
          "scoringConfig.startAngle (center angle) must be a number" errs in
      let errs :=
        pushIf (negb (isNumber (wedgeAngle c)))
          "scoringConfig.wedgeAngle must be a number" errs in
      let dir := direction c in
      let errs :=
        pushIf (negb (String.eqb dir "ccw") && negb (String.eqb dir "cw"))
          "scoringConfig.direction must be ccw or cw" errs in
      let errs :=
        pushIf (match ringRatios c with None => true | Some _ => false end)
          "scoringConfig.ringRatios missing" errs in
      let errs :=
        pushIf
          (match ringEpsN c with
           | VUndefined => false
           | VNumber eps => negb (isFinite eps && (eps >=? ofZ 0))
           | _ => true
           end)
          "scoringConfig.ringEpsN must be a finite number >= 0 if provided"
          errs in
      (match errs with [] => true | _ => false end, errs)
  end.

End Arith.

Arguments RingRatios num : clear implicits.
Arguments Points num : clear implicits.
Arguments ScoringConfig num : clear implicits.
Arguments Label num : clear implicits.
Arguments ScoreResult num : clear implicits.

Section Math.
Context {num : Type} `{JsMath num}.
Local Open Scope js_scope.

(** The main entry point.  The argument is [None] for a configuration that
    is missing or not an object.  The result is [None] only where an inner
    call is: [scoreFromBoardXY_total] shows this never happens. *)
Definition scoreFromBoardXY (x y : num) (scoringConfig : option (ScoringConfig num))
  : option (ScoreResult num) :=
  match scoringConfig with
  | None => Some (missResult (ofZ 0) (ofZ 0))
  | Some scoringConfig =>
      let numbers := numbers scoringConfig in
      let rr := ringRatios scoringConfig in
      let wedgeAngle := wedgeAngle scoringConfig in
      let startAngle := startAngle scoringConfig in
      match numbers, rr, wedgeAngle, startAngle with
      | Some numbers, Some _, VNumber _, VNumber _ =>
          if negb (length numbers =? 20)%nat then
            Some (missResult (ofZ 0) (ofZ 0))
          else
            let hasBoardRadius :=
              match boardRadius scoringConfig with
              | VNumber b => isFinite b && (b >? ofZ 0)
              | _ => false
              end in
            let r := sqrt (x * x + y * y) in
            let rNorm :=
              match boardRadius scoringConfig with
              | VNumber b => if hasBoardRadius then r / b else r
              | _ => r
              end in
            ringInfo ← ringFromRadiusRatio rNorm scoringConfig;
            if ring_eqb (ri_ring ringInfo) DBULL then
              let dbull :=
                match points scoringConfig with
                | Some p => default (ofZ 50) (dbull p)
                | None => ofZ 50
                end in
              Some {| sr_points := dbull; sr_label := LabelText "DBULL";
                      sr_wedge := None; sr_wedgeIndex := None; sr_mult := 0;
                      sr_ring := DBULL; sr_angle := ofZ 0;
                      sr_radius := r; sr_rNorm := rNorm |}
            else if ring_eqb (ri_ring ringInfo) SBULL then
              let bull :=
                match points scoringConfig with
                | Some p => default (ofZ 25) (bull p)
                | None => ofZ 25
                end in
              Some {| sr_points := bull; sr_label := LabelText "SBULL";
                      sr_wedge := None; sr_wedgeIndex := None; sr_mult := 0;
                      sr_ring := SBULL; sr_angle := ofZ 0;
                      sr_radius := r; sr_rNorm := rNorm |}
            else if ring_eqb (ri_ring ringInfo) MISS then
              Some (missResult r rNorm)
            else
              let theta := atan2 y x in
              let thetaNorm := normAngle0To2Pi theta in
              idx ← wedgeIndexFromAngle thetaNorm scoringConfig;
              let wedgeValue :=
                match toIndex idx with
                | Some i => nth i numbers (ofZ 0)
                | None => ofZ 0
                end in
              let mult := ri_mult ringInfo in
              let points := wedgeValue * ofZ mult in
              let labelPrefix := "S" in
              let labelPrefix := if (mult =? 2)%Z then "D" else labelPrefix in
              let labelPrefix := if (mult =? 3)%Z then "T" else labelPrefix in
              Some {| sr_points := points;
                      sr_label := LabelWedge labelPrefix wedgeValue;
                      sr_wedge := Some wedgeValue; sr_wedgeIndex := Some idx;
                      sr_mult := mult; sr_ring := ri_ring ringInfo;
                      sr_angle := thetaNorm; sr_radius := r; sr_rNorm := rNorm |}
      | _, _, _, _ => Some (missResult (ofZ 0) (ofZ 0))
      end
  end.

End Math.

End Scoring.

(* ================================================================== *)
(** * board.js: the scoring configuration of the board                 *)
(* ================================================================== *)

Module Board.
Import Js Scoring.

Section Arith.
Context {num : Type} `{JsArith num}.
Local Open Scope js_scope.

(** Canonical wedge order (clockwise, starting at 20 at the top). *)
Definition DARTBOARD_NUMBERS : list num :=
  map ofZ [20; 1; 18; 4; 13; 6; 10; 15; 2; 17;
           3; 19; 7; 16; 8; 11; 14; 9; 12; 5]%Z.

(** [options.boardRadius ?? 2.05] *)
Definition boardRadius (options : option num) : num :=
  default (decimal 205 2) options.

Definition segments : num := ofZ 20.
Definition wedgeAngle : num := (PI * ofZ 2) / segments.
Definition scoringStartAngleCenter : num := PI / ofZ 2.

Definition LEGACY_OUTER_PX : num := ofZ 480.
Definition FACE_OUTER_PX : num := ofZ 512.
Definition FACE_SCALE : num := FACE_OUTER_PX / LEGACY_OUTER_PX.

Definition R_OUTER : num := FACE_OUTER_PX.
Definition R_DOUBLE_INNER : num := ofZ 445 * FACE_SCALE.
Definition R_TRIPLE_INNER : num := ofZ 275 * FACE_SCALE.
Definition R_TRIPLE_OUTER : num := ofZ 310 * FACE_SCALE.
Definition R_BULL_OUTER : num := ofZ 70 * FACE_SCALE.
Definition R_DBULL_OUTER : num := ofZ 32 * FACE_SCALE.

Definition ringRatios : RingRatios num := {|
  outer := decimal 10 1;
  doubleInner := R_DOUBLE_INNER / R_OUTER;
  doubleOuter := decimal 10 1;
  tripleInner := R_TRIPLE_INNER / R_OUTER;
  tripleOuter := R_TRIPLE_OUTER / R_OUTER;
  bullOuter := R_BULL_OUTER / R_OUTER;
  dbullOuter := R_DBULL_OUTER / R_OUTER
|}.

(** [group.userData.scoring]; board.js leaves [boardRadius] out of it. *)
Definition scoring : ScoringConfig num := {|
  Scoring.segments := segments;
  Scoring.wedgeAngle := VNumber wedgeAngle;
  startAngle := VNumber scoringStartAngleCenter;
  direction := "cw";
  angleOffset := VNumber (ofZ 0);
  numbers := Some DARTBOARD_NUMBERS;
  Scoring.ringRatios := Some ringRatios;
  ringEpsN := VNumber (decimal 10 3);
  points := Some {| bull := Some (ofZ 25); dbull := Some (ofZ 50) |};
  Scoring.boardRadius := VUndefined
|}.

End Arith.
End Board.

(* ================================================================== *)
(** * script_helpers.js: the aim disc                                  *)
(* ================================================================== *)

Module Aim.
Import Js.

Section Arith.
Context {num : Type} `{JsArith num}.
Local Open Scope js_scope.

(** What [createAimDisc] fixes for the life of the disc.  The mesh, which
    only mirrors [enabled], [center] and [radius] on screen, is left out. *)
Record AimParams : Type := {
  boardRadius : num;
  maxRadius : num;
  minRadius : num;
  shrinkTime : num
}.

(** [opts.x] when it is a number, else the default. *)
Definition numberOr (v : JsValue num) (dflt : num) : num :=
  match v with VNumber n => n | _ => dflt end.

Definition createParams (boardRadius maxRadius minRadius shrinkTime : JsValue num)
  : AimParams := {|
  boardRadius := numberOr boardRadius (decimal 205 2);
  maxRadius := numberOr maxRadius (decimal 75 2);
  minRadius := numberOr minRadius (decimal 6 2);
  shrinkTime := numberOr shrinkTime (decimal 125 2)
|}.

Record AimState : Type := {
  enabled : bool;
  time : num;
  holding : bool;
  holdTime : num;
  centerX : num;
  centerY : num;
  radius : num
}.

Definition initialState (p : AimParams) : AimState := {|
  enabled := false;
  time := ofZ 0;
  holding := false;
  holdTime := ofZ 0;
  centerX := ofZ 0;
  centerY := ofZ 0;
  radius := maxRadius p
|}.

Definition clamp01 (t : num) : num := max (ofZ 0) (min (ofZ 1) t).

Definition setEnabled (p : AimParams) (enabled' : bool) (state : AimState)
  : AimState :=
  if negb enabled' then
    {| enabled := enabled'; time := time state;
       holding := false; holdTime := ofZ 0;
       centerX := centerX state; centerY := centerY state;
       radius := maxRadius p |}
  else
    {| enabled := enabled'; time := time state;
       holding := holding state; holdTime := holdTime state;
       centerX := centerX state; centerY := centerY state;
       radius := radius state |}.

Definition beginHold (p : AimParams) (state : AimState) : AimState := {|
  enabled := enabled state; time := time state;
  holding := true;
  holdTime := ofZ 0;
  centerX := centerX state; centerY := centerY state;
  radius := maxRadius p
|}.

Definition cancelHold (p : AimParams) (state : AimState) : AimState := {|
  enabled := enabled state; time := time state;
  holding := false;
  holdTime := ofZ 0;
  centerX := centerX state; centerY := centerY state;
  radius := maxRadius p
|}.

(** What [releaseAndSampleHit] returns. *)
Record Shot : Type := {
  shot_centerX : num;
  shot_centerY : num;
  shot_radius : num;
  hitX : num;
  hitY : num
}.

End Arith.

Arguments AimParams num : clear implicits.
Arguments AimState num : clear implicits.
Arguments Shot num : clear implicits.

Section Math.
Context {num : Type} `{JsMath num}.
Local Open Scope js_scope.

Definition clampCenterForRadius (p : AimParams num) (x y r : num) : num * num :=
  let margin := decimal 2 2 in
  let limit := max (decimal 1 3) (boardRadius p - r - margin) in
  let len := hypot x y in
  if len >? limit then
    let s := limit / len in
    (x * s, y * s)
  else (x, y).

(** [random1] and [random2] are the two values [Math.random()] returns, in
    the order of the calls. *)
Definition releaseAndSampleHit (p : AimParams num) (random1 random2 : num)
  (state : AimState num) : Shot num * AimState num :=
  let finalRadius := radius state in
  let angle := random1 * PI * ofZ 2 in
  let r := sqrt random2 * finalRadius in
  let hitX := centerX state + cos angle * r in
  let hitY := centerY state + sin angle * r in
  ({| shot_centerX := centerX state;
      shot_centerY := centerY state;
      shot_radius := finalRadius;
      hitX := hitX;
      hitY := hitY |},
   {| enabled := enabled state; time := time state;
      holding := false; holdTime := ofZ 0;
      centerX := centerX state; centerY := centerY state;
      radius := maxRadius p |}).

Definition update (p : AimParams num) (delta : num) (state : AimState num) : AimState num :=
  if negb (enabled state) then state
  else
    let time' := time state + delta in
    if negb (holding state) then
      let t := time' in
      let w1 := decimal 85 2 in
      let w2 := decimal 133 2 in
      let w3 := decimal 73 2 in
      let w4 := decimal 191 2 in
      let base := boardRadius p * decimal 82 2 in
      let x := base * (decimal 65 2 * sin (t * w1)
                       + decimal 35 2 * sin (t * w2 + decimal 17 1)) in
      let y := base * (decimal 65 2 * cos (t * w3)
                       + decimal 35 2 * sin (t * w4 + decimal 9 1)) in
      let clamped := clampCenterForRadius p x y (maxRadius p) in
      {| enabled := enabled state; time := time';
         holding := holding state; holdTime := holdTime state;
         centerX := fst clamped; centerY := snd clamped;
         radius := maxRadius p |}
    else
      let holdTime' := holdTime state + delta in
      let q := clamp01 (holdTime' / shrinkTime p) in
      {| enabled := enabled state; time := time';
         holding := holding state; holdTime := holdTime';
         centerX := centerX state; centerY := centerY state;
         radius := maxRadius p + (minRadius p - maxRadius p) * q |}.

End Math.

End Aim.

(* ================================================================== *)
(** * script.js: round bookkeeping and the aim input handlers          *)
(* ================================================================== *)

Module Script.
Import Js.

Section Arith.
Context {num : Type} `{JsArith num}.
Local Open Scope js_scope.

Definition MAX_DARTS_PER_ROUND : Z := 10.

(** What [registerThrowScore] reads of its argument; a field is [None],
    or not a [VNumber], where the object lacks it or has another type. *)
Record ScoreLike : Type := {
  points : JsValue num;
  label : option (Scoring.Label num);
  ring : option Scoring.Ring;
  mult : option Z;
  wedge : option num
}.

Definition ofScoreResult (r : Scoring.ScoreResult num) : ScoreLike := {|
  points := VNumber (Scoring.sr_points r);
  label := Some (Scoring.sr_label r);
  ring := Some (Scoring.sr_ring r);
  mult := Some (Scoring.sr_mult r);
  wedge := Scoring.sr_wedge r
|}.

(** An entry of [throwHistory]. *)
Record ThrowRecord : Type := {
  th_label : Scoring.Label num;
  th_points : num;
  th_ring : option Scoring.Ring;
  th_mult : option Z;
  th_wedge : option num
}.

(** The module-level variables of script.js that the round and the aim
    input use.  The scene, the camera, the HUD and the glow are rendering
    and are left out. *)
Record Game : Type := {
  gameStarted : bool;
  roundActive : bool;
  dartsThrown : Z;
  totalScore : num;
  throwHistory : list ThrowRecord;
  aimDisc : option (Aim.AimState num);        (* [None]: null *)
  isHoldingAim : bool;
  holdPointerId : option nat                  (* [None]: null *)
}.

(** [createDartboard({ includeWall: true })]: the default radius. *)
Definition dartboardRadius : num := Board.boardRadius None.

(** The options [syncBoardToWall] passes to [createAimDisc]. *)
Definition aimParams : Aim.AimParams num :=
  Aim.createParams (VNumber dartboardRadius)
    (VNumber (decimal 75 2)) (VNumber (decimal 6 2)) (VNumber (decimal 125 2)).

Definition initialGame : Game := {|
  gameStarted := false;
  roundActive := false;
  dartsThrown := 0;
  totalScore := ofZ 0;
  throwHistory := [];
  aimDisc := None;
  isHoldingAim := false;
  holdPointerId := None
|}.

Definition withAimDisc (f : Aim.AimState num -> Aim.AimState num) (g : Game)
  : Game := {|
  gameStarted := gameStarted g;
  roundActive := roundActive g;
  dartsThrown := dartsThrown g;
  totalScore := totalScore g;
  throwHistory := throwHistory g;
  aimDisc := f <$> aimDisc g;
  isHoldingAim := isHoldingAim g;
  holdPointerId := holdPointerId g
|}.

Definition withHold (holdingAim : bool) (pointerId : option nat) (g : Game)
  : Game := {|
  gameStarted := gameStarted g;
  roundActive := roundActive g;
  dartsThrown := dartsThrown g;
  totalScore := totalScore g;
  throwHistory := throwHistory g;
  aimDisc := aimDisc g;
  isHoldingAim := holdingAim;
  holdPointerId := pointerId
|}.

Definition resetRound (g : Game) : Game := {|
  gameStarted := gameStarted g;
  roundActive := true;
  dartsThrown := 0;
  totalScore := ofZ 0;
  throwHistory := [];
  aimDisc := aimDisc g;
  isHoldingAim := isHoldingAim g;
  holdPointerId := holdPointerId g
|}.

Definition endRound (g : Game) : Game :=
  let g := {|
    gameStarted := gameStarted g;
    roundActive := false;
    dartsThrown := dartsThrown g;
    totalScore := totalScore g;
    throwHistory := throwHistory g;
    aimDisc := aimDisc g;
    isHoldingAim := isHoldingAim g;
    holdPointerId := holdPointerId g |} in
  withAimDisc (fun a => Aim.cancelHold aimParams (Aim.setEnabled aimParams false a)) g.

(** The object [scoreHitAtBoardLocalXY] builds:
    [{ ...baseScoring, boardRadius: boardRadius }]. *)
Definition scoringConfig : Scoring.ScoringConfig num :=
  let boardRadius := dartboardRadius in
  let baseScoring := Board.scoring in
  {| Scoring.segments := Scoring.segments baseScoring;
     Scoring.wedgeAngle := Scoring.wedgeAngle baseScoring;
     Scoring.startAngle := Scoring.startAngle baseScoring;
     Scoring.direction := Scoring.direction baseScoring;
     Scoring.angleOffset := Scoring.angleOffset baseScoring;
     Scoring.numbers := Scoring.numbers baseScoring;
     Scoring.ringRatios := Scoring.ringRatios baseScoring;
     Scoring.ringEpsN := Scoring.ringEpsN baseScoring;
     Scoring.points := Scoring.points baseScoring;
     Scoring.boardRadius := VNumber boardRadius |}.

(** [scoreResult] is [None] for [undefined], which the [?.] accesses of the
    JavaScript accept. *)
Definition registerThrowScore (scoreResult : option ScoreLike) (g : Game)
  : Game :=
  let pts :=
    match scoreResult with
    | Some s => match points s with VNumber n => n | _ => ofZ 0 end
    | None => ofZ 0
    end in
  let lbl :=
    match scoreResult with
    | Some s => default (Scoring.LabelText "MISS") (label s)
    | None => Scoring.LabelText "MISS"
    end in
  let dartsThrown' := (dartsThrown g + 1)%Z in
  let g := {|
    gameStarted := gameStarted g;
    roundActive := roundActive g;
    dartsThrown := dartsThrown';
    totalScore := totalScore g + pts;
    throwHistory := throwHistory g ++
      [{| th_label := lbl; th_points := pts;
          th_ring := scoreResult ≫= ring;
          th_mult := scoreResult ≫= mult;
          th_wedge := scoreResult ≫= wedge |}];
    aimDisc := aimDisc g;
    isHoldingAim := isHoldingAim g;
    holdPointerId := holdPointerId g |} in
  if (dartsThrown' >=? MAX_DARTS_PER_ROUND)%Z then endRound g else g.

(** [n] calls of [registerThrowScore], one per element of [throws]. *)
Definition registerThrows (throws : list (option ScoreLike)) (g : Game) : Game :=
  fold_left (fun g s => registerThrowScore s g) throws g.

End Arith.

Arguments ScoreLike num : clear implicits.
Arguments ThrowRecord num : clear implicits.
Arguments Game num : clear implicits.

Section Math.
Context {num : Type} `{JsMath num}.
Local Open Scope js_scope.

(** The board always exists and carries its scoring configuration, so the
    two early returns of the JavaScript are never taken. *)
Definition scoreHitAtBoardLocalXY (hitX hitY : num) : option (ScoreLike num) :=
  ofScoreResult <$> Scoring.scoreFromBoardXY hitX hitY (Some scoringConfig).

(** [busy] is what [actionManager.isBusy()] answers at the call. *)
Definition onAimPointerDown (pointerId : nat) (busy : bool) (g : Game num) : Game num :=
  if negb (gameStarted g) then g
  else if negb (roundActive g) then g
  else match aimDisc g with
  | None => g
  | Some _ =>
      if busy then g
      else if isHoldingAim g then g
      else
        let g := withHold true (Some pointerId) g in
        withAimDisc (Aim.beginHold aimParams) g
  end.

Definition pointerId_is (pointerId : nat) (held : option nat) : bool :=
  match held with
  | Some p => (p =? pointerId)%nat
  | None => false
  end.

Definition onAimPointerUp (pointerId : nat) (busy : bool) (random1 random2 : num)
  (g : Game num) : Game num :=
  if negb (gameStarted g) then g
  else if negb (roundActive g) then g
  else match aimDisc g with
  | None => g
  | Some disc =>
      if negb (isHoldingAim g) then g
      else if negb (pointerId_is pointerId (holdPointerId g)) then g
      else
        let g := withHold false None g in
        if busy then withAimDisc (Aim.cancelHold aimParams) g
        else
          let '(shot, disc) := Aim.releaseAndSampleHit aimParams random1 random2 disc in
          let disc := Aim.setEnabled aimParams false disc in
          let g := withAimDisc (fun _ => disc) g in
          let scoreResult := scoreHitAtBoardLocalXY (Aim.hitX shot) (Aim.hitY shot) in
          registerThrowScore scoreResult g
  end.

Definition onAimPointerCancel (pointerId : nat) (g : Game num) : Game num :=
  if negb (isHoldingAim g) then g
  else if negb (pointerId_is pointerId (holdPointerId g)) then g
  else
    let g := withHold false None g in
    withAimDisc (Aim.cancelHold aimParams) g.

(** The click handler of the start button. *)
Definition startButtonClick (g : Game num) : Game num :=
  if gameStarted g then g
  else
    let g := {|
      gameStarted := true;
      roundActive := roundActive g;
      dartsThrown := dartsThrown g;
      totalScore := totalScore g;
      throwHistory := throwHistory g;
      aimDisc := aimDisc g;
      isHoldingAim := isHoldingAim g;
      holdPointerId := holdPointerId g |} in
    let g := resetRound g in
    withAimDisc (Aim.setEnabled aimParams true) g.

(** The part of [syncBoardToWall] that creates the aim disc. *)
Definition syncBoardToWall (g : Game num) : Game num :=
  match aimDisc g with
  | Some _ => g
  | None => {|
      gameStarted := gameStarted g;
      roundActive := roundActive g;
      dartsThrown := dartsThrown g;
      totalScore := totalScore g;
      throwHistory := throwHistory g;
      aimDisc := Some (Aim.initialState aimParams);
      isHoldingAim := isHoldingAim g;
      holdPointerId := holdPointerId g |}
  end.

(** The aim-disc part of one frame of [animate]. *)
Definition animate (delta : num) (busy : bool) (g : Game num) : Game num :=
  let shouldEnable := gameStarted g && roundActive g && negb busy in
  withAimDisc
    (fun disc =>
       let disc :=
         if negb (isHoldingAim g) then Aim.setEnabled aimParams shouldEnable disc
         else disc in
       Aim.update aimParams delta disc)
    g.

(** Everything that can happen to the game: the DOM events with their
    handlers, the load callback and the frame callback. *)
Inductive Event : Type :=
| EStartClick
| EPlayAgain
| EBoardSynced
| EPointerDown (pointerId : nat) (busy : bool)
| EPointerUp (pointerId : nat) (busy : bool) (random1 random2 : num)
| EPointerCancel (pointerId : nat)
| EFrame (delta : num) (busy : bool).

Definition handle (e : Event) (g : Game num) : Game num :=
  match e with
  | EStartClick => startButtonClick g
  | EPlayAgain => resetRound g
  | EBoardSynced => syncBoardToWall g
  | EPointerDown p busy => onAimPointerDown p busy g
  | EPointerUp p busy r1 r2 => onAimPointerUp p busy r1 r2 g
  | EPointerCancel p => onAimPointerCancel p g
  | EFrame delta busy => animate delta busy g
  end.

(** The game after a sequence of events, oldest first. *)
Definition run (events : list Event) (g : Game num) : Game num :=
  fold_left (fun g e => handle e g) events g.

Definition reachable (g : Game num) : Prop :=
  exists events, g = run events initialGame.

End Math.

Arguments Event num : clear implicits.

End Script.

(* ================================================================== *)
(** * leaderboard.ts: the leaderboard store                            *)
(* ================================================================== *)

Module Leaderboard.
Import Js.

Section Arith.
Context {num : Type} `{JsArith num}.
Local Open Scope js_scope.

(** ** The store behind [RedisLike]

    leaderboard.ts declares only the interface of the store.  The model
    below gives each command it uses the meaning of the Redis command of
    that name: a hash is a map from fields to strings, a sorted set is the
    list of its members from the lowest to the highest score, members of
    equal score in lexicographic order. *)

Inductive RedisWrite : Type :=
| HSET (key field value : string)
| ZADD (key member : string) (score : num).

Record Redis : Type := {
  hashes : gmap string (gmap string string);
  zsets : gmap string (list (string * num));
  writes : list RedisWrite          (* the write commands issued so far *)
}.

Definition emptyRedis : Redis :=
  {| hashes := ∅; zsets := ∅; writes := [] |}.

Definition hGet (redis : Redis) (key field : string) : option string :=
  hashes redis !! key ≫= fun h => h !! field.

Definition hMGet (redis : Redis) (key : string) (fields : list string)
  : list (option string) :=
  map (hGet redis key) fields.

(** [hSet key { [field]: value }]: leaderboard.ts sets one field at a
    time. *)
Definition hSet (redis : Redis) (key field value : string) : Redis := {|
  hashes := <[key := <[field := value]> (default ∅ (hashes redis !! key))]> (hashes redis);
  zsets := zsets redis;
  writes := writes redis ++ [HSET key field value]
|}.

Definition zmembers (redis : Redis) (key : string) : list (string * num) :=
  default [] (zsets redis !! key).

(** The order of a sorted set: by score, then by member. *)
Definition zbefore (a b : string * num) : bool :=
  (a.2 <? b.2) || (negb (b.2 <? a.2) && String.ltb a.1 b.1).

Fixpoint zinsert (e : string * num) (l : list (string * num))
  : list (string * num) :=
  match l with
  | [] => [e]
  | x :: l' => if zbefore e x then e :: x :: l' else x :: zinsert e l'
  end.

Definition zAdd (redis : Redis) (key member : string) (score : num) : Redis := {|
  hashes := hashes redis;
  zsets :=
    <[key := zinsert (member, score)
               (filter (fun e => e.1 ≠ member) (zmembers redis key))]>
      (zsets redis);
  writes := writes redis ++ [ZADD key member score]
|}.

Fixpoint zindex (member : string) (l : list (string * num)) : option nat :=
  match l with
  | [] => None
  | x :: l' => if String.eqb x.1 member then Some 0%nat
               else S <$> zindex member l'
  end.

Definition zRank (redis : Redis) (key member : string) : option nat :=
  zindex member (zmembers redis key).

Definition zCard (redis : Redis) (key : string) : nat :=
  length (zmembers redis key).

(** [zRange key start stop { by: "rank", reverse: reversed }] for
    [0 <= start]; a negative [stop] counts from the end. *)
Definition zRange (redis : Redis) (key : string) (start stop : Z) (reversed : bool)
  : list (string * num) :=
  let l := zmembers redis key in
  let l := if reversed then reverse l else l in
  let stop := if (stop <? 0)%Z then (Z.of_nat (length l) + stop)%Z else stop in
  take (Z.to_nat (stop + 1 - start)) (drop (Z.to_nat start) l).

(** ** leaderboard.ts *)

Record StoredLeaderboardRecord : Type := {
  rec_score : num;
  rec_submittedAt : num;
  rec_metadata : option (gmap string string)
}.

Record LeaderboardEntry : Type := {
  e_userId : string;
  e_score : num;
  e_submittedAt : num;
  e_rank : Z;
  e_metadata : option (gmap string string)
}.

(** [JSON.stringify] and [JSON.parse] at the type of the stored record;
    [JSON_parse] is [None] where [JSON.parse] throws. *)
Variable JSON_stringify : StoredLeaderboardRecord -> string.
Variable JSON_parse : string -> option StoredLeaderboardRecord.

Definition SCORE_MULTIPLIER : num := ofZ 1000000000000.

Definition leaderboardKey (postId : string) : string :=
  "leaderboard:" +:+ postId.
Definition leaderboardMetaKey (postId : string) : string :=
  "leaderboard:" +:+ postId +:+ ":meta".

Definition encodeMetadata (record : StoredLeaderboardRecord) : string :=
  JSON_stringify record.

Definition decodeMetadata (value : option string)
  : option StoredLeaderboardRecord :=
  match value with
  | None => None
  | Some "" => None
  | Some value => JSON_parse value
  end.

Definition toCompositeScore (score submittedAt : num) : num :=
  score * SCORE_MULTIPLIER - submittedAt.

(** [now] is what [Date.now()] returns. *)
Definition upsertScore (redis : Redis) (postId userId : string) (score : num)
  (metadata : option (gmap string string)) (now : num)
  : StoredLeaderboardRecord * Redis :=
  let metaKey := leaderboardMetaKey postId in
  let existing := decodeMetadata (hGet redis metaKey userId) in
  let proceed :=
    let submittedAt := now in
    let record :=
      {| rec_score := score; rec_submittedAt := submittedAt;
         rec_metadata := metadata |} in
    let redis := hSet redis metaKey userId (encodeMetadata record) in
    let redis :=
      zAdd redis (leaderboardKey postId) userId
        (toCompositeScore score submittedAt) in
    (record, redis) in
  match existing with
  | Some existing =>
      if rec_score existing >=? score then (existing, redis) else proceed
  | None => proceed
  end.

Definition fetchTopN (redis : Redis) (postId : string) (limit : Z)
  : list LeaderboardEntry :=
  if (limit <=? 0)%Z then []
  else
    let key := leaderboardKey postId in
    let topEntries := zRange redis key 0 (limit - 1) true in
    if (length topEntries =? 0)%nat then []
    else
    let metaKey := leaderboardMetaKey postId in
    let members := map fst topEntries in
    let metaValues := hMGet redis metaKey members in
    imap (fun index entry =>
            let meta := decodeMetadata (mjoin (metaValues !! index)) in
            {| e_userId := entry.1;
               e_score := from_option rec_score entry.2 meta;
               e_submittedAt := from_option rec_submittedAt (ofZ 0) meta;
               e_metadata := meta ≫= rec_metadata;
               e_rank := Z.of_nat index + 1 |})
         topEntries.

Definition getRankForUser (redis : Redis) (postId userId : string) : option Z :=
  let key := leaderboardKey postId in
  let rank := zRank redis key userId in
  let total := zCard redis key in
  match rank with
  | None => None
  | Some rank => Some (Z.of_nat total - Z.of_nat rank)%Z
  end.

End Arith.

Arguments RedisWrite num : clear implicits.
Arguments Redis num : clear implicits.
Arguments StoredLeaderboardRecord num : clear implicits.
Arguments LeaderboardEntry num : clear implicits.

End Leaderboard.

(* ================================================================== *)
(** * index.ts: the leaderboard routes                                 *)
(* ================================================================== *)

Module Server.
Import Js Leaderboard.

Section Arith.
Context {num : Type} `{JsArith num}.
Local Open Scope js_scope.

Variable JSON_stringify : StoredLeaderboardRecord num -> string.
Variable JSON_parse : string -> option (StoredLeaderboardRecord num).

(** [String.prototype.trim] *)
Variable String_trim : string -> string.

(** The bodies of the two requests, typed as shared/types/api.ts declares
    them.  [userId] keeps its being absent, which the handlers test; the
    limit, when present, is an integer (what the store does with a
    fractional rank is not the handlers' business). *)
Record LeaderboardSubmitRequest : Type := {
  userId : option string;                 (* [None]: undefined or null *)
  score : JsValue num;
  limit : option Z;
  metadata : option (gmap string string)
}.


(** What a handler sends: [res.status(status).json({ status: "error",
    message })], or [res.json({ type, postId, top, callerRank })]. *)
Inductive Response : Type :=
| ErrorResponse (status : Z) (message : string)
| LeaderboardResponse (type postId : string)
    (top : list (LeaderboardEntry num)) (callerRank : option Z).

(** [!s] for a string that may be absent. *)
Definition falsy (s : option string) : bool :=
  match s with
  | None | Some "" => true
  | Some _ => false
  end.

(** [Number.isNaN] on a number: NaN is the one number not [<=] itself. *)
Definition isNaN (x : num) : bool := negb (x <=? x).

(** [Math.max(1, Math.min(limit ?? 10, 100))] *)
Definition topLimit (limit : option Z) : Z :=
  Z.max 1 (Z.min (default 10%Z limit) 100).

(** The handler of [POST /api/leaderboard/submit].  [postId] is
    [context.postId], [now] is what [Date.now()] returns inside
    [upsertScore].  The commands of the modelled store do not fail, so the
    [catch] branch is never taken. *)
Definition leaderboardSubmit (postId : option string)
  (body : LeaderboardSubmitRequest) (now : num) (redis : Redis num)
  : Response * Redis num :=
  if falsy postId then (ErrorResponse 400 "postId is required", redis)
  else
    let postId := default "" postId in
    if falsy (String_trim <$> userId body) then
      (ErrorResponse 400 "userId is required", redis)
    else
      let userId := default "" (userId body) in
      match score body with
      | VNumber score =>
          if isNaN score then
            (ErrorResponse 400 "score must be a number", redis)
          else
            let topLimit := topLimit (limit body) in
            let redis :=
              snd (upsertScore JSON_stringify JSON_parse redis postId userId
                     score (metadata body) now) in
            let top := fetchTopN JSON_parse redis postId topLimit in
            let callerRank := getRankForUser redis postId userId in
            (LeaderboardResponse "leaderboard-submit" postId top callerRank,
             redis)
      | _ => (ErrorResponse 400 "score must be a number", redis)
      end.


End Arith.

Arguments LeaderboardSubmitRequest num : clear implicits.
Arguments Response num : clear implicits.

End Server.

(* ================================================================== *)
(** * hitGlow.js: the glow on the ring that was hit                    *)
(* ================================================================== *)

Module HitGlow.
Import Js Scoring.

Section Arith.
Context {num : Type} `{JsArith num}.
Local Open Scope js_scope.

(** What [createHitGlow] reads of [boardGroup.userData]; it throws unless
    the scoring configuration is there and the two dimensions are
    numbers. *)
Record GlowBoard : Type := {
  scoring : ScoringConfig num;
  boardRadius : num;
  boardThickness : num
}.

(** What [setFromScore] reads of its argument, the score result as
    [registerThrowScore] queues it. *)
Record GlowScore : Type := {
  gs_ring : option Ring;        (* [None]: not one of the six ring names *)
  gs_rNorm : option num;        (* [None]: undefined *)
  gs_wedgeIndex : option num    (* [None]: null, or not a number *)
}.

Inductive Kind : Type := bull | wedge.

Record Radii : Type := { kind : Kind; innerR : num; outerR : num }.

(** The arguments of [new THREE.RingGeometry(innerRadius, outerRadius,
    thetaSegments, phiSegments, thetaStart, thetaLength)]; the two angles
    are [None] where the call leaves them out (a full ring). *)
Record RingGeometry : Type := {
  innerRadius : num;
  outerRadius : num;
  thetaSegments : Z;
  phiSegments : Z;
  thetaStart : option num;
  thetaLength : option num
}.

Definition makeBullGlow (innerR outerR : num) : RingGeometry :=
  let bleed := decimal 5 3 in
  {| innerRadius := max (ofZ 0) (innerR - bleed);
     outerRadius := outerR + bleed;
     thetaSegments := 64; phiSegments := 1;
     thetaStart := None; thetaLength := None |}.

(** [v || 0] for a number: 0 for the falsy numbers (the zeros and NaN). *)
Definition numberOrZero (v : num) : num :=
  if (v <? ofZ 0) || (ofZ 0 <? v) then v else ofZ 0.

(** [None] where the JavaScript would do arithmetic on a [wedgeAngle], a
    [startAngle] or a truthy [angleOffset] that is not a number. *)
Definition makeWedgeGlow (board : GlowBoard) (innerR outerR wedgeIndex : num)
  : option RingGeometry :=
  match wedgeAngle (scoring board), startAngle (scoring board) with
  | VNumber wedgeAngle, VNumber startAngleCenter =>
      let direction :=
        if String.eqb (direction (scoring board)) "cw" then ofZ (-1)
        else ofZ 1 in
      angleOffset ←
        match angleOffset (scoring board) with
        | VNumber o => Some (numberOrZero o)
        | VUndefined | VNull | VBool false | VString "" => Some (ofZ 0)
        | _ => None
        end;
      let center :=
        startAngleCenter + (direction * wedgeIndex * wedgeAngle)
        + angleOffset in
      let padding := decimal 12 2 in
      let bleed := decimal 1 2 in
      let thetaStart :=
        center - (wedgeAngle / ofZ 2) + (wedgeAngle * padding) - bleed in
      let thetaLength :=
        (wedgeAngle * (ofZ 1 - padding * ofZ 2)) + (bleed * ofZ 2) in
      Some {| innerRadius := innerR - bleed;
              outerRadius := outerR + bleed;
              thetaSegments := 32; phiSegments := 1;
              thetaStart := Some thetaStart;
              thetaLength := Some thetaLength |}
  | _, _ => None
  end.

(** The band to light.  The outer [None] is the [TypeError] of reading a
    ratio of a missing [ringRatios]; the inner one is [null]. *)
Definition radiiForScore (board : GlowBoard) (scoreResult : option GlowScore)
  : option (option Radii) :=
  let rr := ringRatios (scoring board) in
  match scoreResult with
  | None => Some None
  | Some scoreResult =>
      match gs_ring scoreResult with
      | Some MISS => Some None
      | ring =>
          rr ← rr;
          let rBullOuter := boardRadius board * bullOuter rr in
          let rDbullOuter := boardRadius board * dbullOuter rr in
          let rTripleInner := boardRadius board * tripleInner rr in
          let rTripleOuter := boardRadius board * tripleOuter rr in
          let rDoubleInner := boardRadius board * doubleInner rr in
          let rDoubleOuter := boardRadius board * doubleOuter rr in
          Some
            match ring with
            | Some DBULL =>
                Some {| kind := bull; innerR := ofZ 0; outerR := rDbullOuter |}
            | Some SBULL =>
                Some {| kind := bull; innerR := rDbullOuter;
                        outerR := rBullOuter |}
            | Some TRIPLE =>
                Some {| kind := wedge; innerR := rTripleInner;
                        outerR := rTripleOuter |}
            | Some DOUBLE =>
                Some {| kind := wedge; innerR := rDoubleInner;
                        outerR := rDoubleOuter |}
            | Some SINGLE =>
                let inside :=
                  match gs_rNorm scoreResult with
                  | Some rNorm =>
                      (rNorm >? bullOuter rr) && (rNorm <? tripleInner rr)
                  | None => false
                  end in
                if inside then
                  Some {| kind := wedge; innerR := rBullOuter;
                          outerR := rTripleInner |}
                else
                  Some {| kind := wedge; innerR := rTripleOuter;
                          outerR := rDoubleInner |}
            | _ => None
            end
      end
  end.

(** The geometry of the mesh [setFromScore] leaves active, [None] for no
    mesh.  The outer [None] is as in [radiiForScore] and
    [makeWedgeGlow]. *)
Definition setFromScore (board : GlowBoard) (scoreResult : option GlowScore)
  : option (option RingGeometry) :=
  radii ← radiiForScore board scoreResult;
  match radii with
  | None => Some None
  | Some radii =>
      match kind radii with
      | bull => Some (Some (makeBullGlow (innerR radii) (outerR radii)))
      | wedge =>
          match scoreResult ≫= gs_wedgeIndex with
          | None => Some None
          | Some wedgeIndex =>
              Some <$> makeWedgeGlow board (innerR radii) (outerR radii)
                         wedgeIndex
          end
      end
  end.

End Arith.

Arguments GlowBoard num : clear implicits.
Arguments GlowScore num : clear implicits.
Arguments Radii num : clear implicits.
Arguments RingGeometry num : clear implicits.

End HitGlow.

(* ================================================================== *)
(** * script.js: the glow a throw queues                               *)
(* ================================================================== *)

Module Feedback.
Import Js Scoring.

Section Arith.
Context {num : Type} `{JsArith num}.
Local Open Scope js_scope.

(** [a === b] on numbers: NaN equals nothing and the two zeros are
    equal, as with [a <= b && b <= a]. *)
Definition strictEquals (a b : num) : bool := (a <=? b) && (b <=? a).

(** [array.indexOf(x)], [None] for -1. *)
Fixpoint indexOf (x : num) (array : list num) : option nat :=
  match array with
  | [] => None
  | y :: array' =>
      if strictEquals y x then Some 0%nat else S <$> indexOf x array'
  end.

(** The board script.js creates, as [createHitGlow] reads it. *)
Definition dartboard : HitGlow.GlowBoard num := {|
  HitGlow.scoring := Board.scoring;
  HitGlow.boardRadius := Script.dartboardRadius;
  HitGlow.boardThickness := decimal 35 2
|}.

(** The value [registerThrowScore] assigns to [pendingHitGlow] for a
    result of [scoreFromBoardXY]:
    [{ ...scoreResult, wedgeIndex, rNorm }]. *)
Definition pendingHitGlow (scoreResult : ScoreResult num)
  : HitGlow.GlowScore num :=
  let nums := numbers (HitGlow.scoring dartboard) in
  let wedgeVal := sr_wedge scoreResult in
  let wedgeIndex :=
    match wedgeVal, nums with
    | Some wedgeVal, Some nums => indexOf wedgeVal nums
    | _, _ => None
    end in
  let br := HitGlow.boardRadius dartboard in
  let rNorm :=
    if br >? ofZ 0 then Some (sr_radius scoreResult / br) else None in
  {| HitGlow.gs_ring := Some (sr_ring scoreResult);
     HitGlow.gs_rNorm := rNorm;
     HitGlow.gs_wedgeIndex := (fun idx => ofZ (Z.of_nat idx)) <$> wedgeIndex |}.

End Arith.

End Feedback.

(* ================================================================== *)
(** * The data model of the specification                              *)
(* ================================================================== *)

Module Spec.
Import Js Scoring.

Section Arith.
Context {num : Type} `{JsArith num}.



End Arith.

Section Game.
Context {num : Type} `{JsArith num}.

(** The round counter stays within the round, and an active round still
    has a dart left. *)
Definition roundInv (g : Script.Game num) : Prop :=
  (0 <= Script.dartsThrown g <= Script.MAX_DARTS_PER_ROUND)%Z /\
  (Script.roundActive g = true ->
   (Script.dartsThrown g < Script.MAX_DARTS_PER_ROUND)%Z).

(** While the aim disc is holding, the input layer knows it. *)
Definition holdInv (g : Script.Game num) : Prop :=
  forall disc, Script.aimDisc g = Some disc -> Aim.holding disc = true ->
               Script.isHoldingAim g = true.

End Game.

(** An integer that binary64 holds exactly. *)
Definition exactInteger (z : Z) : Prop := (Z.abs z <= 2 ^ 53)%Z.

(** The score, the time stamp and every intermediate value of
    [score * 10^12 - submittedAt] are integers that binary64 holds exactly,
    so that the arithmetic of the exact numbers is the arithmetic of the
    JavaScript engine. *)
Definition compositeExact (score submittedAt : Z) : Prop :=
  exactInteger score /\ exactInteger submittedAt /\
  exactInteger (score * 10 ^ 12) /\
  exactInteger (score * 10 ^ 12 - submittedAt).

(** A sorted set in ascending order of its scores, over the exact
    numbers. *)
Definition zascending (l : list (string * R)) : Prop :=
  StronglySorted (fun a b => (a.2 <= b.2)%R) l.

Local Open Scope R_scope.

(** The order the specification requires of the ring ratios. *)
Definition ringRatiosOrdered (rr : RingRatios R) : Prop :=
  dbullOuter rr < bullOuter rr /\
  bullOuter rr < tripleInner rr /\
  tripleInner rr < tripleOuter rr /\
  tripleOuter rr < doubleInner rr /\
  doubleInner rr <= doubleOuter rr /\
  doubleOuter rr = outer rr.

(** A board configuration as the data model describes it, over the exact
    numbers: it passes the validation pass of scoring.js, has twenty
    segments of angle [2π/20], ordered ring ratios, both bull scores and a
    positive board radius. *)
Definition validBoardConfig (cfg : ScoringConfig R) : Prop :=
  fst (validateScoringConfig (Some cfg)) = true /\
  segments cfg = 20 /\
  wedgeAngle cfg = VNumber (Rtrigo1.PI * 2 / 20) /\
  (exists rr, ringRatios cfg = Some rr /\ ringRatiosOrdered rr) /\
  (exists b d, points cfg = Some {| bull := Some b; dbull := Some d |}) /\
  (exists radius, boardRadius cfg = VNumber radius /\ 0 < radius).

End Spec.

(* ================================================================== *)
(** * Predicates on results, game states and stores                    *)
(* ================================================================== *)

Module Invariant.
Import Js Scoring.

Section Arith.
Context {num : Type} `{JsArith num}.
Local Open Scope js_scope.

(** The fields of a score result agree with its ring: the bulls and the
    miss carry no wedge and the multiplier 0; a wedge ring carries its
    wedge, its index, its multiplier, the label built from both and their
    product as points. *)
Definition wedgeFields (prefix : string) (m : Z) (r : ScoreResult num) : Prop :=
  exists wedgeValue idx,
    sr_wedge r = Some wedgeValue /\ sr_wedgeIndex r = Some idx /\
    sr_mult r = m /\ sr_label r = LabelWedge prefix wedgeValue /\
    sr_points r = wedgeValue * ofZ m.

Definition bullFields (text : string) (r : ScoreResult num) : Prop :=
  sr_wedge r = None /\ sr_wedgeIndex r = None /\ sr_mult r = 0%Z /\
  sr_label r = LabelText text /\ sr_angle r = ofZ 0.

Definition resultCoherent (r : ScoreResult num) : Prop :=
  match sr_ring r with
  | MISS => bullFields "MISS" r /\ sr_points r = ofZ 0
  | DBULL => bullFields "DBULL" r
  | SBULL => bullFields "SBULL" r
  | DOUBLE => wedgeFields "D" 2 r
  | TRIPLE => wedgeFields "T" 3 r
  | SINGLE => wedgeFields "S" 1 r
  end.

(** What [scoreFromBoardXY] requires of a configuration before it scores:
    the four defensive checks at its head. *)
Definition scorable (cfg : ScoringConfig num) : Prop :=
  (exists ns, numbers cfg = Some ns /\ length ns = 20%nat) /\
  ringRatios cfg <> None /\
  isNumber (wedgeAngle cfg) = true /\
  isNumber (startAngle cfg) = true.


(** The radius and the normalized radius [scoreFromBoardXY] works with. *)
Definition hitRadius (x y : num) : num := sqrt (x * x + y * y).

Definition hitRNorm (x y : num) (cfg : ScoringConfig num) : num :=
  match boardRadius cfg with
  | VNumber b =>
      if isFinite b && (b >? ofZ 0) then hitRadius x y / b else hitRadius x y
  | _ => hitRadius x y
  end.

(** ** The game of script.js *)

(** The history has one entry per dart thrown, and the total is the sum of
    their points, added in the order of the throws. *)
Definition historyInv (g : Script.Game num) : Prop :=
  Script.dartsThrown g = Z.of_nat (length (Script.throwHistory g)) /\
  Script.totalScore g =
    fold_left add (map Script.th_points (Script.throwHistory g)) (ofZ 0).

(** The input layer holds a pointer only in a started game with an active
    round and an aim disc, and knows which pointer it holds; before the
    start nothing has been thrown. *)
Definition inputInv (g : Script.Game num) : Prop :=
  (Script.isHoldingAim g = true ->
   Script.gameStarted g = true /\ Script.roundActive g = true /\
   Script.aimDisc g <> None /\ Script.holdPointerId g <> None) /\
  (Script.isHoldingAim g = false -> Script.holdPointerId g = None) /\
  (Script.gameStarted g = false ->
   Script.dartsThrown g = 0%Z /\ Script.throwHistory g = [] /\
   Script.totalScore g = ofZ 0).

(** The total is a whole number of points, at most 60 per dart thrown. *)
Definition scoreInv (g : Script.Game num) : Prop :=
  exists n : Z, Script.totalScore g = ofZ n /\
                (0 <= n <= 60 * Script.dartsThrown g)%Z.

(** A frame of the render loop. *)
Definition isFrame (e : Script.Event num) : Prop :=
  match e with Script.EFrame _ _ => True | _ => False end.

End Arith.

(** ** The aim disc on the board, over the exact numbers *)

Local Open Scope R_scope.

(** How far from the centre of the board the centre of the disc of script.js
    may be: [boardRadius - maxRadius - margin]. *)
Definition centreLimit : R :=
  Aim.boardRadius (@Script.aimParams R _)
  - Aim.maxRadius (@Script.aimParams R _) - 2 / 100.

(** The disc keeps its radius between [minRadius] and [maxRadius] and its
    centre within [centreLimit] of the centre of the board. *)
Definition discOk (disc : Aim.AimState R) : Prop :=
  Aim.minRadius (@Script.aimParams R _) <= Aim.radius disc
    <= Aim.maxRadius (@Script.aimParams R _) /\
  R_sqrt.sqrt (Aim.centerX disc * Aim.centerX disc
               + Aim.centerY disc * Aim.centerY disc) <= centreLimit.

Definition discInv (g : Script.Game R) : Prop :=
  forall disc, Script.aimDisc g = Some disc -> discOk disc.

(** Every dart of the history landed on the board. *)
Definition noMiss (g : Script.Game R) : Prop :=
  Forall (fun t => Script.th_ring t <> Some MISS) (Script.throwHistory g).

(** The values [Math.random()] returns lie in [[0, 1)]. *)
Definition randomsInRange (events : list (Script.Event R)) : Prop :=
  Forall (fun e =>
            match e with
            | Script.EPointerUp _ _ random1 random2 =>
                0 <= random1 < 1 /\ 0 <= random2 < 1
            | _ => True
            end) events.

Local Close Scope R_scope.

(** ** The leaderboard store *)

Section Store.
Import Leaderboard.
Context {num : Type} `{JsArith num}.
Variable JSON_stringify : StoredLeaderboardRecord num -> string.
Variable JSON_parse : string -> option (StoredLeaderboardRecord num).

(** The metadata map and the sorted set of a post name the same users, and
    the sorted set names each of them once. *)
Definition storeConsistent (redis : Redis num) (postId : string) : Prop :=
  (forall userId,
     is_Some (hGet redis (leaderboardMetaKey postId) userId) <->
     is_Some (zRank redis (leaderboardKey postId) userId)) /\
  NoDup (zmembers redis (leaderboardKey postId)).*1.

(** One call of [upsertScore], with the time of the call. *)
Record Submission : Type := {
  sub_postId : string;
  sub_userId : string;
  sub_score : num;
  sub_metadata : option (gmap string string);
  sub_now : num
}.

Definition submit (redis : Redis num) (s : Submission) : Redis num :=
  snd (upsertScore JSON_stringify JSON_parse redis (sub_postId s)
         (sub_userId s) (sub_score s) (sub_metadata s) (sub_now s)).

(** The store after a sequence of submissions, oldest first, to an empty
    store. *)
Definition storeAfter (submissions : list Submission) : Redis num :=
  fold_left submit submissions emptyRedis.

(** [JSON.parse] reads back what [JSON.stringify] wrote for [record], and
    that is not the empty string. *)
Definition jsonRoundTrip (record : StoredLeaderboardRecord num) : Prop :=
  JSON_stringify record <> "" /\
  JSON_parse (JSON_stringify record) = Some record.

End Store.

Arguments Submission num : clear implicits.

End Invariant.

(* ================================================================== *)
(** * Theorems                                                         *)
(* ================================================================== *)

Import Js.

(** ** The comparisons of the exact carrier *)

Lemma Rltb_true (x y : R) : Rltb x y = true <-> (x < y)%R.
Proof. unfold Rltb. destruct (Rlt_dec x y); split; intros; try easy. Qed.

Lemma Rltb_false (x y : R) : Rltb x y = false <-> (y <= x)%R.
Proof. unfold Rltb. destruct (Rlt_dec x y); split; intros; try easy; lra. Qed.

Lemma Rleb_true (x y : R) : Rleb x y = true <-> (x <= y)%R.
Proof. unfold Rleb. destruct (Rle_dec x y); split; intros; try easy. Qed.

Lemma Rleb_false (x y : R) : Rleb x y = false <-> (y < x)%R.
Proof. unfold Rleb. destruct (Rle_dec x y); split; intros; try easy; lra. Qed.

(** Unfold the operations of [JsArith] and [JsMath] at the exact carrier
    and evaluate the powers of ten of the decimal literals. *)
Ltac js_real :=
  unfold decimal in *;
  cbn [add sub mul div ltb leb rem ofZ isFinite sqrt floor PI max min toIndex
       RealArith atan2 cos sin hypot RealMath] in *;
  repeat match goal with
  | |- context [(?a ^ Z.of_nat ?n)%Z] =>
      let v := eval vm_compute in (a ^ Z.of_nat n)%Z in
      change (a ^ Z.of_nat n)%Z with v
  | H : context [(?a ^ Z.of_nat ?n)%Z] |- _ =>
      let v := eval vm_compute in (a ^ Z.of_nat n)%Z in
      change (a ^ Z.of_nat n)%Z with v in H
  end.

Lemma decimal_real (m : Z) (e : nat) :
  @decimal R _ m e = (IZR m / IZR (10 ^ Z.of_nat e))%R.
Proof. reflexivity. Qed.

Import Scoring.

Lemma getRingEpsN_real_nonneg (cfg : ScoringConfig R) :
  (0 <= getRingEpsN cfg)%R.
Proof.
  unfold getRingEpsN.
  destruct (ringEpsN cfg) as [| | | | v]; js_real; try lra.
  destruct (Rleb 0 v) eqn:E; simpl.
  - now apply Rleb_true.
  - lra.
Qed.

Lemma pushIf_nil {num} `{JsArith num} (cond : bool) (msg : string)
  (errs : list string) :
  pushIf cond msg errs = [] -> cond = false /\ errs = [].
Proof.
  unfold pushIf. destruct cond; [|auto].
  intros Happ. apply app_eq_nil in Happ as [_ Hmsg]. discriminate Hmsg.
Qed.

(** What a configuration that passes [validateScoringConfig] provides. *)
Lemma validate_ok_inv {num} `{JsArith num} (cfg : ScoringConfig num) :
  fst (validateScoringConfig (Some cfg)) = true ->
  (exists ns, numbers cfg = Some ns /\ length ns = 20%nat) /\
  (exists s, startAngle cfg = VNumber s) /\
  (exists w, wedgeAngle cfg = VNumber w) /\
  (exists rr, ringRatios cfg = Some rr).
Proof.
  unfold validateScoringConfig. cbn [fst].
  match goal with
  | |- match ?errs with _ => _ end = true -> _ =>
      destruct errs eqn:Herrs; [intros _ | discriminate]
  end.
  apply pushIf_nil in Herrs as [_ Herrs].
  apply pushIf_nil in Herrs as [Hrr Herrs].
  apply pushIf_nil in Herrs as [_ Herrs].
  apply pushIf_nil in Herrs as [Hw Herrs].
  apply pushIf_nil in Herrs as [Hs Herrs].
  apply pushIf_nil in Herrs as [Hn _].
  repeat split.
  - destruct (numbers cfg) as [ns|]; [|discriminate].
    exists ns. split; [reflexivity|].
    apply Nat.eqb_eq. now destruct (length ns =? 20)%nat.
  - destruct (startAngle cfg); try discriminate. eauto.
  - destruct (wedgeAngle cfg); try discriminate. eauto.
  - destruct (ringRatios cfg); try discriminate. eauto.
Qed.

Lemma Rleb_intro (x y : R) : (x <= y)%R -> Rleb x y = true.
Proof. apply Rleb_true. Qed.
Lemma Rltb_intro (x y : R) : (x < y)%R -> Rltb x y = true.
Proof. apply Rltb_true. Qed.
Lemma Rleb_intro_false (x y : R) : (y < x)%R -> Rleb x y = false.
Proof. apply Rleb_false. Qed.
Lemma Rltb_intro_false (x y : R) : (y <= x)%R -> Rltb x y = false.
Proof. apply Rltb_false. Qed.

(** Decide the comparisons of the goal from linear real arithmetic. *)
Ltac js_compare :=
  repeat first
    [ rewrite Rleb_intro by lra
    | rewrite Rltb_intro by lra
    | rewrite Rleb_intro_false by lra
    | rewrite Rltb_intro_false by lra ].

(** The configuration script.js scores with is a valid board. *)
Lemma scoringConfig_valid : Spec.validBoardConfig (@Script.scoringConfig R _).
Proof.
  unfold Spec.validBoardConfig, Script.scoringConfig, Board.scoring.
  cbn [segments wedgeAngle ringRatios points boardRadius].
  repeat split.
  - unfold validateScoringConfig.
    cbn [numbers startAngle wedgeAngle direction ringRatios ringEpsN isNumber
         negb andb pushIf]. 
    js_real. js_compare. reflexivity.
  - eexists. split; [reflexivity|].
    unfold Spec.ringRatiosOrdered, Board.ringRatios, Board.R_DOUBLE_INNER,
      Board.R_TRIPLE_INNER, Board.R_TRIPLE_OUTER, Board.R_BULL_OUTER,
      Board.R_DBULL_OUTER, Board.R_OUTER, Board.FACE_SCALE,
      Board.FACE_OUTER_PX, Board.LEGACY_OUTER_PX.
    cbn [outer doubleInner doubleOuter tripleInner tripleOuter bullOuter dbullOuter].
    js_real. lra.
  - eauto.
  - eexists. split; [reflexivity|].
    unfold Script.dartboardRadius, Board.boardRadius. cbn [default]. js_real. lra.
Qed.

(** ** The order of binary64 *)

Import FloatOrder.

Lemma SFcompare_key (f1 f2 : spec_float) :
  SFcompare f1 f2 =
  match floatKey f1, floatKey f2 with
  | Some a, Some b => Some (keyCompare a b)
  | _, _ => None
  end.
Proof.
  destruct f1 as [s1|s1| |s1 m1 e1], f2 as [s2|s2| |s2 m2 e2];
    try destruct s1; try destruct s2; try reflexivity.
  cbn [SFcompare floatKey keyCompare Z.compare].
  rewrite Z.compare_opp, (Z.compare_antisym e1 e2).
  destruct (e1 ?= e2)%Z; reflexivity.
Qed.

Lemma keyCompare_Lt (a b : Z * Z * Z) : keyCompare a b = Lt <-> keyLt a b.
Proof.
  destruct a as [[a1 a2] a3], b as [[b1 b2] b3]. cbn.
  destruct (Z.compare_spec a1 b1); [destruct (Z.compare_spec a2 b2);
    [destruct (Z.compare_spec a3 b3)| |]| |];
    split; intros; try discriminate; try reflexivity; lia.
Qed.

Lemma keyCompare_Le (a b : Z * Z * Z) :
  (keyCompare a b = Lt \/ keyCompare a b = Eq) <-> keyLe a b.
Proof.
  destruct a as [[a1 a2] a3], b as [[b1 b2] b3]. cbn.
  destruct (Z.compare_spec a1 b1); [destruct (Z.compare_spec a2 b2);
    [destruct (Z.compare_spec a3 b3)| |]| |];
    split; intros; try (intuition discriminate); try lia; auto.
Qed.

(** [x < y] and [x <= y] on binary64, read on the keys. *)
Lemma float_ltb_key (x y : float) :
  PrimFloat.ltb x y = true <->
  exists a b, floatKey (Prim2SF x) = Some a /\ floatKey (Prim2SF y) = Some b /\
              keyLt a b.
Proof.
  rewrite ltb_spec. unfold SFltb. rewrite SFcompare_key.
  destruct (floatKey (Prim2SF x)) as [a|], (floatKey (Prim2SF y)) as [b|].
  - split.
    + intros Hlt. exists a, b. split; [reflexivity|]. split; [reflexivity|].
      apply keyCompare_Lt. now destruct (keyCompare a b).
    + intros (a' & b' & [= <-] & [= <-] & Hlt).
      apply keyCompare_Lt in Hlt. now rewrite Hlt.
  - split; [discriminate | intros (a' & b' & _ & Hb & _); discriminate].
  - split; [discriminate | intros (a' & b' & Ha & _ & _); discriminate].
  - split; [discriminate | intros (a' & b' & Ha & _ & _); discriminate].
Qed.

Lemma float_leb_key (x y : float) :
  PrimFloat.leb x y = true <->
  exists a b, floatKey (Prim2SF x) = Some a /\ floatKey (Prim2SF y) = Some b /\
              keyLe a b.
Proof.
  rewrite leb_spec. unfold SFleb. rewrite SFcompare_key.
  destruct (floatKey (Prim2SF x)) as [a|], (floatKey (Prim2SF y)) as [b|].
  - split.
    + intros Hle. exists a, b. split; [reflexivity|]. split; [reflexivity|].
      apply keyCompare_Le. destruct (keyCompare a b); auto; discriminate.
    + intros (a' & b' & [= <-] & [= <-] & Hle).
      apply keyCompare_Le in Hle as [Hlt | Heq].
      * now rewrite Hlt.
      * now rewrite Heq.
  - split; [discriminate | intros (a' & b' & _ & Hb & _); discriminate].
  - split; [discriminate | intros (a' & b' & Ha & _ & _); discriminate].
  - split; [discriminate | intros (a' & b' & Ha & _ & _); discriminate].
Qed.

Ltac float_keys :=
  repeat match goal with
  | H : PrimFloat.ltb _ _ = true |- _ =>
      apply float_ltb_key in H; destruct H as (? & ? & ? & ? & H)
  | H : PrimFloat.leb _ _ = true |- _ =>
      apply float_leb_key in H; destruct H as (? & ? & ? & ? & H)
  end;
  repeat match goal with
  | H1 : floatKey ?f = Some ?a, H2 : floatKey ?f = Some ?b |- _ =>
      rewrite H1 in H2; injection H2 as <-
  end.

Ltac key_arith :=
  repeat match goal with
  | a : (Z * Z * Z)%type |- _ => destruct a as [[? ?] ?]
  end;
  unfold keyLt, keyLe in *; lia.

Lemma float_ltb_leb_trans (x y z : float) :
  PrimFloat.ltb x y = true -> PrimFloat.leb y z = true ->
  PrimFloat.ltb x z = true.
Proof.
  intros Hxy Hyz. float_keys. apply float_ltb_key.
  do 2 eexists. split; [eassumption|]. split; [eassumption|]. key_arith.
Qed.

Lemma float_leb_ltb_trans (x y z : float) :
  PrimFloat.leb x y = true -> PrimFloat.ltb y z = true ->
  PrimFloat.ltb x z = true.
Proof.
  intros Hxy Hyz. float_keys. apply float_ltb_key.
  do 2 eexists. split; [eassumption|]. split; [eassumption|]. key_arith.
Qed.

Lemma float_leb_trans (x y z : float) :
  PrimFloat.leb x y = true -> PrimFloat.leb y z = true ->
  PrimFloat.leb x z = true.
Proof.
  intros Hxy Hyz. float_keys. apply float_leb_key.
  do 2 eexists. split; [eassumption|]. split; [eassumption|]. key_arith.
Qed.

Lemma float_ltb_leb (x y : float) :
  PrimFloat.ltb x y = true -> PrimFloat.leb x y = true.
Proof.
  intros Hxy. float_keys. apply float_leb_key.
  do 2 eexists. split; [eassumption|]. split; [eassumption|]. key_arith.
Qed.

(** On binary64, [x < y] excludes [y <= x], and [x <= y] excludes
    [y < x]. *)
Lemma float_ltb_not_leb (x y : float) :
  PrimFloat.ltb x y = true -> PrimFloat.leb y x = false.
Proof.
  intros Hxy. destruct (PrimFloat.leb y x) eqn:Hyx; [|reflexivity].
  exfalso. float_keys. key_arith.
Qed.

Lemma float_leb_not_ltb (x y : float) :
  PrimFloat.leb x y = true -> PrimFloat.ltb y x = false.
Proof.
  intros Hxy. destruct (PrimFloat.ltb y x) eqn:Hyx; [|reflexivity].
  exfalso. float_keys. key_arith.
Qed.

(** The remainder and the floor of binary64 on a few values
    ([Leibniz.eqb] is the bitwise equality, which tells [-0] from [+0]). *)
Example float_rem_floor_values :
  PrimFloat.Leibniz.eqb (float_rem 7.5 2) 1.5 = true /\
  PrimFloat.Leibniz.eqb (float_rem (-7.5) 2) (-1.5) = true /\
  PrimFloat.Leibniz.eqb (float_rem (-4) 2) (-0) = true /\
  PrimFloat.Leibniz.eqb (float_rem 5 0x1.921fb54442d18p+2) 5 = true /\
  PrimFloat.Leibniz.eqb (float_rem 0x1.7e43c8800759cp+996 7) 1 = true /\
  PrimFloat.is_nan (float_rem 1 0) = true /\
  PrimFloat.Leibniz.eqb (float_floor 0.5) 0 = true /\
  PrimFloat.Leibniz.eqb (float_floor (-0.5)) (-1) = true /\
  PrimFloat.Leibniz.eqb (float_floor (-0)) (-0) = true /\
  PrimFloat.Leibniz.eqb (float_floor 0x1.3ffffffffffffp+4) 19 = true.
Proof. repeat split; vm_compute; reflexivity. Qed.

(** ** C1: the ring classifier *)

Section RingPrecedence.
Context {num : Type} `{JsArith num}.
Local Open Scope js_scope.

(** The six tests of [ringFromRadiusRatio], in the order of the source. *)
Lemma ringFromRadiusRatio_cases (rNorm : num) (cfg : ScoringConfig num)
  (rr : RingRatios num) :
  ringRatios cfg = Some rr ->
  let eps := getRingEpsN cfg in
  let gives r m :=
    ringFromRadiusRatio rNorm cfg = Some {| ri_ring := r; ri_mult := m |} in
  let miss := rNorm >? outer rr + eps in
  let dbull := rNorm <=? dbullOuter rr + eps in
  let sbull := rNorm <=? bullOuter rr + eps in
  let double :=
    (rNorm >=? doubleInner rr - eps) && (rNorm <=? doubleOuter rr + eps) in
  let triple :=
    (rNorm >=? tripleInner rr - eps) && (rNorm <=? tripleOuter rr + eps) in
  (miss = true -> gives MISS 0%Z) /\
  (miss = false -> dbull = true -> gives DBULL 0%Z) /\
  (miss = false -> dbull = false -> sbull = true -> gives SBULL 0%Z) /\
  (miss = false -> dbull = false -> sbull = false -> double = true ->
   gives DOUBLE 2%Z) /\
  (miss = false -> dbull = false -> sbull = false -> double = false ->
   triple = true -> gives TRIPLE 3%Z) /\
  (miss = false -> dbull = false -> sbull = false -> double = false ->
   triple = false -> gives SINGLE 1%Z).
Proof.
  intros Hrr eps gives miss dbull sbull double triple.
  subst gives. cbv beta. unfold ringFromRadiusRatio. rewrite Hrr.
  fold eps. fold miss dbull sbull double triple.
  repeat split; intros; 
    repeat match goal with Hb : _ = _ :> bool |- _ => rewrite Hb; clear Hb end;
    reflexivity.
Qed.

End RingPrecedence.

(** The rim of the default board on binary64. *)
Lemma default_board_rim_binary64 (rNorm : float) :
  let rr := @Board.ringRatios float _ in
  let eps := @getRingEpsN float _ Script.scoringConfig in
  (rNorm >? outer rr)%js = true ->
  (rNorm <=? outer rr + eps)%js = true ->
  ringFromRadiusRatio rNorm Script.scoringConfig
  = Some {| ri_ring := DOUBLE; ri_mult := 2 |}.
Proof.
  intros rr eps Hout Hin.
  destruct (ringFromRadiusRatio_cases rNorm (@Script.scoringConfig float _) rr
              eq_refl) as (_ & _ & _ & Hdouble & _).
  fold eps in Hdouble.
  assert (Hbull : (bullOuter rr + eps <=? outer rr)%js = true)
    by (vm_compute; reflexivity).
  assert (Hdbull : (dbullOuter rr + eps <=? outer rr)%js = true)
    by (vm_compute; reflexivity).
  assert (Hinner : (doubleInner rr - eps <=? outer rr)%js = true)
    by (vm_compute; reflexivity).
  cbn [ltb leb FloatArith] in *.
  apply Hdouble.
  - now apply float_leb_not_ltb.
  - apply float_ltb_not_leb. eapply float_leb_ltb_trans; eassumption.
  - apply float_ltb_not_leb. eapply float_leb_ltb_trans; eassumption.
  - apply andb_true_intro. split.
    + apply float_ltb_leb. eapply float_leb_ltb_trans; eassumption.
    + exact Hin.
Qed.

(** C1.  For every number carrier (binary64 included), every normalized
    radius and every configuration that passes the validation pass, the
    ring classifier tests the bands in the order MISS, DBULL, SBULL,
    DOUBLE, TRIPLE, SINGLE and the first test that holds decides: above
    [outer + eps] is a MISS with multiplier 0, else up to
    [dbullOuter + eps] is DBULL, else up to [bullOuter + eps] is SBULL,
    else within [doubleInner - eps, doubleOuter + eps] is DOUBLE with
    multiplier 2, else within [tripleInner - eps, tripleOuter + eps] is
    TRIPLE with multiplier 3, else SINGLE with multiplier 1, where [eps] is
    the configured tolerance.  In particular a hit with
    [outer < rNorm <= outer + eps] and [rNorm > bullOuter + eps] is a
    DOUBLE, not a MISS: over the exact numbers for every valid board (where
    [doubleOuter = outer]), and on binary64 for the board of board.js. *)
Theorem ring_classifier_precedence :
  (forall (num : Type) (N : JsArith num) (rNorm : num)
          (cfg : ScoringConfig num),
     fst (validateScoringConfig (Some cfg)) = true ->
     exists rr, ringRatios cfg = Some rr /\
       let eps := getRingEpsN cfg in
       let gives r m :=
         ringFromRadiusRatio rNorm cfg =
           Some {| ri_ring := r; ri_mult := m |} in
       let miss := (rNorm >? outer rr + eps)%js in
       let dbull := (rNorm <=? dbullOuter rr + eps)%js in
       let sbull := (rNorm <=? bullOuter rr + eps)%js in
       let double :=
         (rNorm >=? doubleInner rr - eps)%js &&
         (rNorm <=? doubleOuter rr + eps)%js in
       let triple :=
         (rNorm >=? tripleInner rr - eps)%js &&
         (rNorm <=? tripleOuter rr + eps)%js in
       (miss = true -> gives MISS 0%Z) /\
       (miss = false -> dbull = true -> gives DBULL 0%Z) /\
       (miss = false -> dbull = false -> sbull = true -> gives SBULL 0%Z) /\
       (miss = false -> dbull = false -> sbull = false -> double = true ->
        gives DOUBLE 2%Z) /\
       (miss = false -> dbull = false -> sbull = false -> double = false ->
        triple = true -> gives TRIPLE 3%Z) /\
       (miss = false -> dbull = false -> sbull = false -> double = false ->
        triple = false -> gives SINGLE 1%Z))
  /\
  (forall (rNorm : R) (cfg : ScoringConfig R) (rr : RingRatios R),
     Spec.validBoardConfig cfg ->
     ringRatios cfg = Some rr ->
     let eps := getRingEpsN cfg in
     (outer rr < rNorm <= outer rr + eps)%R ->
     (bullOuter rr + eps < rNorm)%R ->
     doubleOuter rr = outer rr /\
     ringFromRadiusRatio rNorm cfg =
       Some {| ri_ring := DOUBLE; ri_mult := 2 |})
  /\
  (forall rNorm : float,
     let rr := @Board.ringRatios float _ in
     let eps := @getRingEpsN float _ Script.scoringConfig in
     (rNorm >? outer rr)%js = true ->
     (rNorm <=? outer rr + eps)%js = true ->
     (rNorm >? bullOuter rr + eps)%js = true /\
     ringFromRadiusRatio rNorm Script.scoringConfig =
       Some {| ri_ring := DOUBLE; ri_mult := 2 |}).
Proof.
  split; [|split]; cycle 2.
  { intros rNorm rr eps Hout Hin. split.
    - assert (Hbull : (bullOuter rr + eps <=? outer rr)%js = true)
        by (vm_compute; reflexivity).
      cbn [ltb leb FloatArith] in *.
      eapply float_leb_ltb_trans; eassumption.
    - now apply default_board_rim_binary64. }
  - intros num N rNorm cfg Hok.
    destruct (validate_ok_inv cfg Hok) as (_ & _ & _ & rr & Hrr).
    exists rr. split; [exact Hrr|].
    exact (ringFromRadiusRatio_cases rNorm cfg rr Hrr).
  - intros rNorm cfg rr (_ & _ & _ & (rr' & Hrr' & Hord) & _) Hrr eps Hrim Hbull.
    rewrite Hrr in Hrr'. injection Hrr' as <-.
    destruct Hord as (Hdb & _ & _ & _ & Hdi & Hdo).
    split; [exact Hdo|].
    pose proof (getRingEpsN_real_nonneg cfg) as Heps. fold eps in Heps.
    destruct (ringFromRadiusRatio_cases rNorm cfg rr Hrr)
      as (_ & _ & _ & Hdouble & _).
    fold eps in Hdouble. js_real.
    apply Hdouble.
    + apply Rltb_false. lra.
    + apply Rleb_false. lra.
    + apply Rleb_false. lra.
    + apply andb_true_intro. split; apply Rleb_true; lra.
Qed.

(** The classifier at the rim of the default board: binary64 and exact. *)
Lemma ring_classifier_precedence_witness :
  @ringFromRadiusRatio float _ 1.0078125%float Script.scoringConfig =
    Some {| ri_ring := DOUBLE; ri_mult := 2 |} /\
  @ringFromRadiusRatio float _ 1.00390625%float Script.scoringConfig =
    Some {| ri_ring := DOUBLE; ri_mult := 2 |} /\
  @ringFromRadiusRatio R _ (129 / 128)%R Script.scoringConfig =
    Some {| ri_ring := DOUBLE; ri_mult := 2 |}.
Proof.
  destruct ring_classifier_precedence as (Hcases & Hreal & Hfloat).
  split; [|split].
  - assert (Hok : fst (@validateScoringConfig float _
                           (Some Script.scoringConfig)) = true)
      by (vm_compute; reflexivity).
    destruct (Hcases float _ 1.0078125%float Script.scoringConfig Hok)
      as (rr & Hrr & Hbands).
    injection Hrr as <-.
    destruct Hbands as (_ & _ & _ & Hdouble & _).
    apply Hdouble; vm_compute; reflexivity.
  - apply (Hfloat 1.00390625%float); vm_compute; reflexivity.
  - apply (Hreal (129 / 128)%R Script.scoringConfig Board.ringRatios
             scoringConfig_valid eq_refl).
    + unfold getRingEpsN, Script.scoringConfig, Board.scoring, Board.ringRatios.
      cbn [ringEpsN outer]. js_real. js_compare. cbn [andb]. lra.
    + unfold getRingEpsN, Script.scoringConfig, Board.scoring, Board.ringRatios,
        Board.R_BULL_OUTER, Board.R_OUTER, Board.FACE_SCALE,
        Board.FACE_OUTER_PX, Board.LEGACY_OUTER_PX.
      cbn [ringEpsN bullOuter]. js_real. js_compare. cbn [andb]. lra.
Defined.

(** ** C10: the default tolerance *)

Section DefaultTolerance.
Context {num : Type} `{JsArith num}.
Local Open Scope js_scope.

Hypothesis ltb_not_leb :
  forall x y : num, (x <? y) = true -> (y <=? x) = false.
Hypothesis default_accepted :
  isFinite (decimal 1 2) && (decimal 1 2 >=? ofZ 0) = true.



End DefaultTolerance.




(** ** C5: the double bull *)

Section ScoreTotal.
Context {num : Type} `{JsMath num}.

(** [scoreFromBoardXY] always returns a result: it never raises. *)
Lemma scoreFromBoardXY_total (x y : num) (cfg : option (ScoringConfig num)) :
  exists result, scoreFromBoardXY x y cfg = Some result.
Proof.
  unfold scoreFromBoardXY.
  destruct cfg as [cfg|]; [|eauto].
  destruct (numbers cfg) as [ns|]; [|eauto].
  destruct (ringRatios cfg) as [rr|] eqn:Hrr; [|eauto].
  destruct (wedgeAngle cfg) as [| | | |w] eqn:Hw; eauto.
  destruct (startAngle cfg) as [| | | |s] eqn:Hs; eauto.
  destruct (negb (length ns =? 20)%nat); [eauto|].
  unfold ringFromRadiusRatio. rewrite Hrr. cbn [mbind option_bind].
  match goal with
  | |- context [ring_eqb (ri_ring ?info) DBULL] => destruct (ri_ring info)
  end; cbn [ring_eqb]; eauto;
  unfold wedgeIndexFromAngle; rewrite Hw, Hs; cbn [mbind option_bind]; eauto.
Qed.

End ScoreTotal.

Section ScoreDbull.
Context {num : Type} `{JsMath num}.
Local Open Scope js_scope.

(** The double-bull branch of [scoreFromBoardXY]. *)
Lemma scoreFromBoardXY_dbull (x y : num) (cfg : ScoringConfig num)
  (ns : list num) (rr : RingRatios num) (w s b d : num) (bl : option num) :
  numbers cfg = Some ns -> length ns = 20%nat ->
  ringRatios cfg = Some rr ->
  wedgeAngle cfg = VNumber w -> startAngle cfg = VNumber s ->
  boardRadius cfg = VNumber b ->
  isFinite b && (b >? ofZ 0) = true ->
  points cfg = Some {| bull := bl; dbull := Some d |} ->
  let r := sqrt (x * x + y * y) in
  ringFromRadiusRatio (r / b) cfg = Some {| ri_ring := DBULL; ri_mult := 0 |} ->
  scoreFromBoardXY x y (Some cfg) =
    Some {| sr_points := d; sr_label := LabelText "DBULL";
            sr_wedge := None; sr_wedgeIndex := None; sr_mult := 0;
            sr_ring := DBULL; sr_angle := ofZ 0;
            sr_radius := r; sr_rNorm := r / b |}.
Proof.
  intros Hns Hlen Hrr Hw Hs Hb Hpos Hpoints r Hring.
  unfold scoreFromBoardXY.
  rewrite Hns, Hrr, Hw, Hs, Hlen, Hb, Hpos, Hpoints.
  cbn [Nat.eqb negb]. fold r. rewrite Hring. reflexivity.
Qed.

End ScoreDbull.

(** The double bull of the default board on binary64. *)
Lemma default_board_dbull_binary64 (lm : Libm) (x y : float) :
  let r := PrimFloat.sqrt (x * x + y * y)%float in
  let rNorm := (r / @Script.dartboardRadius float _)%float in
  PrimFloat.leb rNorm (dbullOuter (@Board.ringRatios float _)) = true ->
  @scoreFromBoardXY float _ (FloatMath lm) x y (Some Script.scoringConfig) =
    Some {| sr_points := 50%float; sr_label := LabelText "DBULL";
            sr_wedge := None; sr_wedgeIndex := None; sr_mult := 0;
            sr_ring := DBULL; sr_angle := 0%float;
            sr_radius := r; sr_rNorm := rNorm |}.
Proof.
  intros r rNorm Hin.
  set (rr := @Board.ringRatios float _) in *.
  set (eps := @getRingEpsN float _ Script.scoringConfig).
  assert (Hring : ringFromRadiusRatio rNorm Script.scoringConfig
                  = Some {| ri_ring := DBULL; ri_mult := 0 |}).
  { destruct (ringFromRadiusRatio_cases rNorm (@Script.scoringConfig float _)
                rr eq_refl) as (_ & Hdbull & _).
    fold eps in Hdbull.
    assert (Hout : (dbullOuter rr <=? outer rr + eps)%js = true)
      by (vm_compute; reflexivity).
    assert (Hd : (dbullOuter rr <=? dbullOuter rr + eps)%js = true)
      by (vm_compute; reflexivity).
    cbn [ltb leb FloatArith] in *.
    apply Hdbull.
    - apply float_leb_not_ltb. eapply float_leb_trans; eassumption.
    - eapply float_leb_trans; eassumption. }
  apply (scoreFromBoardXY_dbull (H0 := FloatMath lm) x y Script.scoringConfig
           Board.DARTBOARD_NUMBERS rr Board.wedgeAngle
           Board.scoringStartAngleCenter Script.dartboardRadius 50%float
           (Some 25%float)); try reflexivity.
  exact Hring.
Qed.

(** C5.  For every hit [(x, y)] with
    [sqrt (x² + y²) / boardRadius <= dbullOuter], [scoreFromBoardXY]
    returns the DBULL result whose points are [config.points.dbull]: over
    the exact numbers for every valid board configuration, and on binary64
    for the board of board.js (whatever the trigonometric functions
    are).  In particular the centre of that board
    scores 50 with label and ring DBULL, over the exact numbers and on
    binary64. *)
Theorem dbull_disc_scores_dbull :
  (forall (x y : R) (cfg : ScoringConfig R) (rr : RingRatios R)
          (radius d : R) (b : option R),
     Spec.validBoardConfig cfg ->
     ringRatios cfg = Some rr ->
     boardRadius cfg = VNumber radius ->
     points cfg = Some {| bull := b; dbull := Some d |} ->
     (R_sqrt.sqrt (x * x + y * y) / radius <= dbullOuter rr)%R ->
     scoreFromBoardXY x y (Some cfg) =
       Some {| sr_points := d; sr_label := LabelText "DBULL";
               sr_wedge := None; sr_wedgeIndex := None; sr_mult := 0;
               sr_ring := DBULL; sr_angle := 0%R;
               sr_radius := R_sqrt.sqrt (x * x + y * y);
               sr_rNorm := (R_sqrt.sqrt (x * x + y * y) / radius)%R |})
  /\
  (forall (lm : Libm) (x y : float),
     let r := PrimFloat.sqrt (x * x + y * y)%float in
     let rNorm := (r / @Script.dartboardRadius float _)%float in
     PrimFloat.leb rNorm (dbullOuter (@Board.ringRatios float _)) = true ->
     @scoreFromBoardXY float _ (FloatMath lm) x y (Some Script.scoringConfig) =
       Some {| sr_points := 50%float; sr_label := LabelText "DBULL";
               sr_wedge := None; sr_wedgeIndex := None; sr_mult := 0;
               sr_ring := DBULL; sr_angle := 0%float;
               sr_radius := r; sr_rNorm := rNorm |})
  /\
  (exists res : ScoreResult R,
     scoreFromBoardXY 0%R 0%R (Some Script.scoringConfig) = Some res /\
     sr_points res = 50%R /\ sr_label res = LabelText "DBULL" /\
     sr_ring res = DBULL)
  /\
  (forall lm : Libm,
     @scoreFromBoardXY float _ (FloatMath lm) 0%float 0%float
       (Some Script.scoringConfig) =
       Some {| sr_points := 50%float; sr_label := LabelText "DBULL";
               sr_wedge := None; sr_wedgeIndex := None; sr_mult := 0;
               sr_ring := DBULL; sr_angle := 0%float;
               sr_radius := 0%float; sr_rNorm := 0%float |}).
Proof.
  assert (Hgeneral :
    forall (x y : R) (cfg : ScoringConfig R) (rr : RingRatios R)
           (radius d : R) (b : option R),
     Spec.validBoardConfig cfg ->
     ringRatios cfg = Some rr ->
     boardRadius cfg = VNumber radius ->
     points cfg = Some {| bull := b; dbull := Some d |} ->
     (R_sqrt.sqrt (x * x + y * y) / radius <= dbullOuter rr)%R ->
     scoreFromBoardXY x y (Some cfg) =
       Some {| sr_points := d; sr_label := LabelText "DBULL";
               sr_wedge := None; sr_wedgeIndex := None; sr_mult := 0;
               sr_ring := DBULL; sr_angle := 0%R;
               sr_radius := R_sqrt.sqrt (x * x + y * y);
               sr_rNorm := (R_sqrt.sqrt (x * x + y * y) / radius)%R |}).
  { intros x y cfg rr radius d b Hvalid Hrr Hradius Hpoints Hin.
    destruct Hvalid
      as (Hok & _ & _ & (rr' & Hrr' & Hord) & _ & (radius' & Hradius' & Hpos)).
    rewrite Hrr in Hrr'. injection Hrr' as <-.
    rewrite Hradius in Hradius'. injection Hradius' as <-.
    destruct (validate_ok_inv cfg Hok)
      as ((ns & Hns & Hlen) & (s & Hs) & (w & Hw) & _).
    destruct Hord as (H1 & H2 & H3 & H4 & H5 & H6).
    pose proof (getRingEpsN_real_nonneg cfg) as Heps.
    pose proof (scoreFromBoardXY_dbull x y cfg ns rr w s radius d b
                  Hns Hlen Hrr Hw Hs Hradius) as Hscore.
    cbv zeta in Hscore. js_real. apply Hscore; [|exact Hpoints|].
    - now rewrite (Rltb_intro 0 radius Hpos).
    - destruct (ringFromRadiusRatio_cases
                  (R_sqrt.sqrt (x * x + y * y) / radius)%R cfg rr Hrr)
        as (_ & Hdbull & _).
      js_real. apply Hdbull.
      + apply Rltb_false. lra.
      + apply Rleb_true. lra. }
  split; [exact Hgeneral|]. split; [exact default_board_dbull_binary64|]. split.
  - eexists. split.
    + apply (Hgeneral 0%R 0%R Script.scoringConfig Board.ringRatios
               Script.dartboardRadius 50%R (Some 25%R) scoringConfig_valid
               eq_refl eq_refl eq_refl).
      rewrite Rmult_0_l, Rplus_0_l, sqrt_0.
      unfold Script.dartboardRadius, Board.boardRadius, Board.ringRatios,
        Board.R_DBULL_OUTER, Board.R_OUTER, Board.FACE_SCALE,
        Board.FACE_OUTER_PX, Board.LEGACY_OUTER_PX.
      cbn [default dbullOuter]. js_real. lra.
    + repeat split.
  - intros lm. vm_compute. reflexivity.
Qed.

(** A hit a tenth of a unit right of the centre of the default board. *)
Lemma dbull_disc_scores_dbull_witness :
  exists res : ScoreResult R,
    scoreFromBoardXY (1 / 10)%R 0%R (Some Script.scoringConfig) = Some res /\
    sr_points res = 50%R /\ sr_ring res = DBULL.
Proof.
  eexists. split.
  - apply (proj1 dbull_disc_scores_dbull (1 / 10)%R 0%R Script.scoringConfig
             Board.ringRatios Script.dartboardRadius 50%R (Some 25%R)
             scoringConfig_valid eq_refl eq_refl eq_refl).
    replace (1 / 10 * (1 / 10) + 0 * 0)%R with (Rsqr (1 / 10))
      by (unfold Rsqr; lra).
    rewrite sqrt_Rsqr by lra.
    unfold Script.dartboardRadius, Board.boardRadius, Board.ringRatios,
      Board.R_DBULL_OUTER, Board.R_OUTER, Board.FACE_SCALE,
      Board.FACE_OUTER_PX, Board.LEGACY_OUTER_PX.
    cbn [default dbullOuter]. js_real. lra.
  - split; reflexivity.
Defined.

(** ** C9: the wedge at the start angle *)

Lemma Int_part_unique (r : R) (z : Z) :
  (IZR z <= r < IZR z + 1)%R -> Int_part r = z.
Proof.
  intros [Hlo Hhi]. unfold Int_part.
  assert (Hup : (z + 1)%Z = up r).
  { apply tech_up; rewrite plus_IZR; lra. }
  lia.
Qed.

Lemma Rtrunc_IZR (k : Z) : Rtrunc (IZR k) = IZR k.
Proof.
  unfold Rtrunc. destruct (Rle_dec 0 (IZR k)).
  - f_equal. apply Int_part_unique. lra.
  - replace (- IZR k)%R with (IZR (- k)) by apply opp_IZR.
    rewrite (Int_part_unique (IZR (- k)) (- k)) by lra.
    rewrite opp_IZR. lra.
Qed.

Lemma Rtrunc_is_integer (x : R) : exists k : Z, Rtrunc x = IZR k.
Proof.
  unfold Rtrunc. destruct (Rle_dec 0 x).
  - eauto.
  - exists (- Int_part (- x))%Z. now rewrite opp_IZR.
Qed.

Lemma two_pi_pos : (0 < Rtrigo1.PI * 2)%R.
Proof. pose proof PI_RGT_0. lra. Qed.

(** A whole number of turns normalizes to 0. *)
Lemma normAngle0To2Pi_turns (k : Z) :
  @normAngle0To2Pi R _ (Rtrigo1.PI * 2 * IZR k)%R = 0%R.
Proof.
  pose proof two_pi_pos as Hpos.
  unfold normAngle0To2Pi. js_real. unfold Rrem.
  replace (Rtrigo1.PI * 2 * IZR k / (Rtrigo1.PI * 2))%R with (IZR k)
    by (field; lra).
  rewrite Rtrunc_IZR.
  replace (Rtrigo1.PI * 2 * IZR k - Rtrigo1.PI * 2 * IZR k)%R with 0%R by lra.
  now rewrite Rltb_intro_false by lra.
Qed.

(** Normalizing moves an angle by a whole number of turns. *)
Lemma normAngle0To2Pi_shift (a : R) :
  exists k : Z, @normAngle0To2Pi R _ a = (a - Rtrigo1.PI * 2 * IZR k)%R.
Proof.
  unfold normAngle0To2Pi. js_real. unfold Rrem.
  destruct (Rtrunc_is_integer (a / (Rtrigo1.PI * 2))) as [k ->].
  destruct (Rltb _ 0).
  - exists (k - 1)%Z. rewrite minus_IZR. lra.
  - exists k. reflexivity.
Qed.

(** The index of the wedge whose centre is hit: [delta = 0]. *)
Lemma wedge_of_delta_zero (w : R) :
  w <> 0%R ->
  (@floor R _ ((0 + w / 2) / w)%R %% 20%R)%js = 0%R.
Proof.
  intros Hw. js_real.
  replace ((0 + w / 2) / w)%R with (1 / 2)%R by (field; exact Hw).
  rewrite (Int_part_unique (1 / 2) 0) by lra.
  unfold Rrem. replace (0 / 20)%R with (IZR 0) by lra.
  rewrite Rtrunc_IZR. lra.
Qed.

(** A finite binary64 value is a zero or has a mantissa and an exponent. *)
Lemma float_finite_shape (x : float) :
  PrimFloat.is_finite x = true ->
  match Prim2SF x with
  | S754_zero _ | S754_finite _ _ _ => True
  | _ => False
  end.
Proof.
  unfold PrimFloat.is_finite, PrimFloat.is_nan, PrimFloat.is_infinity.
  rewrite !FloatAxioms.eqb_spec, FloatAxioms.abs_spec.
  change (Prim2SF infinity) with (S754_infinity false).
  destruct (Prim2SF x) as [s|s| |s m e]; cbn; try easy.
  now destruct s.
Qed.

(** On binary64, [x - x] is [+0] for every finite [x]. *)
Lemma float_sub_self (x : float) :
  PrimFloat.is_finite x = true -> (x - x)%float = 0%float.
Proof.
  intros Hfin. apply float_finite_shape in Hfin.
  rewrite <- (SF2Prim_Prim2SF (x - x)), FloatAxioms.sub_spec.
  destruct (Prim2SF x) as [s|s| |s m e]; try contradiction.
  - now destruct s.
  - unfold SF64sub, SFsub. rewrite Z.sub_diag. reflexivity.
Qed.

(** The wedge at the start angle on binary64. *)
Lemma wedge_at_start_binary64 (theta : float) (cfg : ScoringConfig float)
  (s : float) :
  wedgeAngle cfg = VNumber Board.wedgeAngle ->
  startAngle cfg = VNumber s ->
  PrimFloat.is_finite s = true ->
  normAngle0To2Pi
    (theta + match angleOffset cfg with VNumber o => o | _ => ofZ 0 end)%js = s ->
  wedgeIndexFromAngle theta cfg = Some 0%float.
Proof.
  intros Hw Hs Hfin Ha. unfold wedgeIndexFromAngle.
  rewrite Hw, Hs, Ha.
  cbn [sub FloatArith]. rewrite (float_sub_self s Hfin).
  destruct (String.eqb (if String.eqb (direction cfg) "cw" then "cw" else "ccw") "cw");
    vm_compute; reflexivity.
Qed.

(** C9.  For every valid board configuration, whatever its direction and
    its angle offset: an angle whose offset-adjusted, normalized value is
    [startAngle], so that [delta] is 0, falls in wedge 0.  Over the exact
    numbers this holds for every valid board, and also for an angle whose
    offset-adjusted value is [startAngle] before it is normalized; on
    binary64 it holds for every configuration with the wedge angle of
    board.js and a finite [startAngle]. *)
Theorem wedge_index_at_start_angle :
  (forall (theta : R) (cfg : ScoringConfig R) (s : R),
     Spec.validBoardConfig cfg ->
     startAngle cfg = VNumber s ->
     let adjusted :=
       (theta + match angleOffset cfg with VNumber o => o | _ => 0 end)%R in
     normAngle0To2Pi adjusted = s \/ adjusted = s ->
     wedgeIndexFromAngle theta cfg = Some 0%R)
  /\
  (forall (theta : float) (cfg : ScoringConfig float) (s : float),
     wedgeAngle cfg = VNumber Board.wedgeAngle ->
     startAngle cfg = VNumber s ->
     isFinite s = true ->
     normAngle0To2Pi
       (theta + match angleOffset cfg with VNumber o => o | _ => ofZ 0 end)%js
     = s ->
     wedgeIndexFromAngle theta cfg = Some 0%float).
Proof.
  split; [|exact wedge_at_start_binary64].
  intros theta cfg s (_ & _ & Hw & _) Hs adjusted Hat.
  assert (Hturn : exists k : Z,
             normAngle0To2Pi adjusted = (s - Rtrigo1.PI * 2 * IZR k)%R).
  { destruct Hat as [Hnorm | Hraw].
    - exists 0%Z. rewrite Hnorm. lra.
    - rewrite <- Hraw. apply normAngle0To2Pi_shift. }
  destruct Hturn as [k Hk].
  unfold wedgeIndexFromAngle. rewrite Hw, Hs.
  js_real.
  change (theta + match angleOffset cfg with VNumber o => o | _ => 0 end)%R
    with adjusted.
  rewrite Hk.
  assert (Hdelta : forall direction : string,
    (if String.eqb direction "cw"
     then normAngle0To2Pi (s - (s - Rtrigo1.PI * 2 * IZR k))%R
     else normAngle0To2Pi (s - Rtrigo1.PI * 2 * IZR k - s)%R) = 0%R).
  { intros direction. destruct (String.eqb direction "cw").
    - replace (s - (s - Rtrigo1.PI * 2 * IZR k))%R
        with (Rtrigo1.PI * 2 * IZR k)%R by lra.
      apply normAngle0To2Pi_turns.
    - replace (s - Rtrigo1.PI * 2 * IZR k - s)%R
        with (Rtrigo1.PI * 2 * IZR (- k))%R by (rewrite opp_IZR; lra).
      apply normAngle0To2Pi_turns. }
  rewrite Hdelta. f_equal.
  apply (wedge_of_delta_zero (Rtrigo1.PI * 2 / 20)).
  pose proof two_pi_pos. lra.
Qed.

(** Straight up on the default board: wedge 0, the 20. *)
Lemma wedge_index_at_start_angle_witness :
  wedgeIndexFromAngle (Rtrigo1.PI / 2)%R (@Script.scoringConfig R _)
    = Some 0%R /\
  wedgeIndexFromAngle 0x1.921fb54442d18p+0%float
    (@Script.scoringConfig float _) = Some 0%float.
Proof.
  split.
  - apply (proj1 wedge_index_at_start_angle (Rtrigo1.PI / 2)%R
             Script.scoringConfig (Rtrigo1.PI / 2)%R scoringConfig_valid
             eq_refl).
    right. cbn [angleOffset Script.scoringConfig Board.scoring]. js_real. lra.
  - apply (proj2 wedge_index_at_start_angle 0x1.921fb54442d18p+0%float
             Script.scoringConfig 0x1.921fb54442d18p+0%float);
      vm_compute; reflexivity.
Defined.

(** ** C6: the sampled hit lies in the aim disc *)



(** ** The round and the input handlers *)

Section GameInvariants.
Context {num : Type} `{JsMath num}.
Import Script Spec.

Lemma run_snoc (events : list (Event num)) (e : Event num) (g : Game num) :
  run (events ++ [e]) g = handle e (run events g).
Proof. unfold run. now rewrite fold_left_app. Qed.

(** Induction over the events that lead to a reachable game. *)
Lemma reachable_ind (P : Game num -> Prop) :
  P initialGame ->
  (forall e g, P g -> P (handle e g)) ->
  forall g, reachable g -> P g.
Proof.
  intros Hinit Hstep g [events ->].
  induction events as [|e events IH] using rev_ind.
  - exact Hinit.
  - rewrite run_snoc. apply Hstep, IH.
Qed.

Lemma roundInv_withAimDisc f (g : Game num) :
  roundInv g -> roundInv (withAimDisc f g).
Proof. intros Hinv. exact Hinv. Qed.

Lemma roundInv_withHold b p (g : Game num) :
  roundInv g -> roundInv (withHold b p g).
Proof. intros Hinv. exact Hinv. Qed.

Lemma registerThrowScore_active (s : option (ScoreLike num)) (g : Game num) :
  roundInv g -> roundActive g = true -> roundInv (registerThrowScore s g).
Proof.
  intros [Hrange Hleft] Hactive. specialize (Hleft Hactive).
  unfold registerThrowScore, roundInv, MAX_DARTS_PER_ROUND in *.
  destruct (Z.geb_spec (dartsThrown g + 1) 10); cbn; split;
    intros; try lia; discriminate.
Qed.

Lemma roundInv_handle (e : Event num) (g : Game num) :
  roundInv g -> roundInv (handle e g).
Proof.
  intros Hinv. destruct e as [| | |p busy|p busy r1 r2|p|delta busy];
    cbn [handle].
  - unfold startButtonClick. destruct (gameStarted g); [exact Hinv|].
    unfold roundInv, MAX_DARTS_PER_ROUND. cbn. lia.
  - unfold roundInv, MAX_DARTS_PER_ROUND. cbn. lia.
  - unfold syncBoardToWall. destruct (aimDisc g); exact Hinv.
  - unfold onAimPointerDown.
    destruct (gameStarted g), (roundActive g), (aimDisc g), busy,
      (isHoldingAim g); exact Hinv.
  - unfold onAimPointerUp.
    destruct (gameStarted g); [|exact Hinv]. cbn [negb].
    destruct (roundActive g) eqn:Hactive; [|exact Hinv]. cbn [negb].
    destruct (aimDisc g) as [disc|]; [|exact Hinv].
    destruct (isHoldingAim g); [|exact Hinv]. cbn [negb].
    destruct (pointerId_is p (holdPointerId g)); [|exact Hinv]. cbn [negb].
    destruct busy; [exact Hinv|].
    destruct (Aim.releaseAndSampleHit aimParams r1 r2 disc) as [shot disc'].
    apply registerThrowScore_active; [exact Hinv | exact Hactive].
  - unfold onAimPointerCancel.
    destruct (isHoldingAim g), (pointerId_is p (holdPointerId g)); exact Hinv.
  - exact Hinv.
Qed.

Lemma holdInv_released (g : Game num) :
  (forall disc, aimDisc g = Some disc -> Aim.holding disc = false) -> holdInv g.
Proof. intros Hreleased disc Hdisc Hholding. rewrite (Hreleased disc Hdisc) in Hholding. discriminate. Qed.

Lemma registerThrowScore_aimDisc_released (s : option (ScoreLike num)) (g : Game num) :
  (forall disc, aimDisc g = Some disc -> Aim.holding disc = false) ->
  forall disc, aimDisc (registerThrowScore s g) = Some disc ->
               Aim.holding disc = false.
Proof.
  intros Hreleased disc. unfold registerThrowScore.
  destruct (_ >=? _)%Z; cbn.
  - destruct (aimDisc g); cbn; [|discriminate]. now intros [= <-].
  - apply Hreleased.
Qed.

Lemma holdInv_handle (e : Event num) (g : Game num) :
  holdInv g -> holdInv (handle e g).
Proof.
  intros Hinv. destruct e as [| | |p busy|p busy r1 r2|p|delta busy];
    cbn [handle].
  - unfold startButtonClick. destruct (gameStarted g); [exact Hinv|].
    intros disc. cbn.
    destruct (aimDisc g) as [disc0|] eqn:Hdisc; cbn; [|discriminate].
    intros [= <-]. cbn. apply (Hinv disc0 Hdisc).
  - exact Hinv.
  - unfold syncBoardToWall. destruct (aimDisc g); [exact Hinv|].
    intros disc. cbn. intros [= <-]. discriminate.
  - unfold onAimPointerDown.
    destruct (gameStarted g), (roundActive g), (aimDisc g), busy,
      (isHoldingAim g); try exact Hinv.
    intros disc _ _. reflexivity.
  - unfold onAimPointerUp.
    destruct (gameStarted g); [|exact Hinv]. cbn [negb].
    destruct (roundActive g) eqn:Hactive; [|exact Hinv]. cbn [negb].
    destruct (aimDisc g) as [disc|] eqn:Hdisc; [|exact Hinv].
    destruct (isHoldingAim g); [|exact Hinv]. cbn [negb].
    destruct (pointerId_is p (holdPointerId g)); [|exact Hinv]. cbn [negb].
    destruct busy.
    + apply holdInv_released. intros disc'. cbn. rewrite Hdisc. cbn.
      now intros [= <-].
    + destruct (Aim.releaseAndSampleHit aimParams r1 r2 disc)
        as [shot disc'] eqn:Hshot.
      apply holdInv_released. apply registerThrowScore_aimDisc_released.
      intros disc''. cbn. rewrite Hdisc. cbn. now intros [= <-].
  - unfold onAimPointerCancel.
    destruct (isHoldingAim g); [|exact Hinv]. cbn [negb].
    destruct (pointerId_is p (holdPointerId g)); [|exact Hinv]. cbn [negb].
    apply holdInv_released. intros disc. cbn.
    destruct (aimDisc g); cbn; [|discriminate]. now intros [= <-].
  - unfold animate. intros disc. cbn.
    destruct (aimDisc g) as [disc0|] eqn:Hdisc; cbn; [|discriminate].
    intros [= <-].
    destruct (isHoldingAim g) eqn:Hhold; [reflexivity|]. cbn [negb].
    specialize (Hinv disc0 Hdisc). rewrite Hhold in Hinv.
    unfold Aim.update, Aim.setEnabled.
    destruct (gameStarted g && roundActive g && negb busy); cbn;
      destruct (Aim.holding disc0); cbn; auto.
Qed.

End GameInvariants.

(** ** C2: ten darts complete the round *)

Section RoundCompletion.
Context {num : Type} `{JsArith num}.
Import Script.

Lemma registerThrows_snoc (throws : list (option (ScoreLike num)))
  (s : option (ScoreLike num)) (g : Game num) :
  registerThrows (throws ++ [s]) g =
  registerThrowScore s (registerThrows throws g).
Proof. unfold registerThrows. now rewrite fold_left_app. Qed.

(** Before the last dart every call counts one dart and the round stays
    active. *)
Lemma registerThrows_before_last (throws : list (option (ScoreLike num)))
  (g : Game num) :
  roundActive g = true ->
  (dartsThrown g + Z.of_nat (length throws) < MAX_DARTS_PER_ROUND)%Z ->
  dartsThrown (registerThrows throws g)
    = (dartsThrown g + Z.of_nat (length throws))%Z /\
  roundActive (registerThrows throws g) = true.
Proof.
  induction throws as [|s throws IH] using rev_ind; intros Hactive Hleft.
  - cbn. split; [lia | exact Hactive].
  - rewrite length_app in Hleft. cbn [length] in Hleft.
    rewrite registerThrows_snoc.
    destruct IH as [IHcount IHactive]; [exact Hactive | lia |].
    unfold registerThrowScore.
    destruct (Z.geb_spec (dartsThrown (registerThrows throws g) + 1)
                MAX_DARTS_PER_ROUND) as [Hfull|_].
    + lia.
    + cbn. rewrite length_app. cbn [length]. split; [lia | exact IHactive].
Qed.

Lemma registerThrows_ten (throws : list (option (ScoreLike num)))
  (g : Game num) :
  length throws = 10%nat ->
  dartsThrown (registerThrows throws (resetRound g)) = 10%Z /\
  roundActive (registerThrows throws (resetRound g)) = false.
Proof.
  intros Hlen.
  destruct throws as [|s throws _] using rev_ind; [discriminate|].
  rewrite length_app in Hlen. cbn [length] in Hlen.
  rewrite registerThrows_snoc.
  destruct (registerThrows_before_last throws (resetRound g)) as [Hcount _].
  { reflexivity. }
  { cbn. unfold MAX_DARTS_PER_ROUND. lia. }
  cbn [resetRound dartsThrown] in Hcount.
  unfold registerThrowScore. rewrite Hcount.
  replace (0 + Z.of_nat (length throws) + 1)%Z with 10%Z by lia.
  cbn. split; reflexivity.
Qed.

End RoundCompletion.

(** C2, as the code has it.  From a fresh round, ten calls of
    [registerThrowScore] leave [dartsThrown] at 10 and the round complete
    ([roundActive] false).  The eleventh throw is stopped by the input
    handler, not by [registerThrowScore]: once the round is complete
    [onAimPointerUp] returns the game as it is, [totalScore] included.
    Every game the events can reach has [0 <= dartsThrown <= 10], and has
    the round complete when [dartsThrown] is 10. *)
Theorem round_completes_after_ten_darts :
  forall (num : Type) (A : JsArith num) (M : JsMath num),
    (forall (g : Script.Game num) (throws : list (option (Script.ScoreLike num))),
       length throws = 10%nat ->
       let g10 := Script.registerThrows throws (Script.resetRound g) in
       Script.dartsThrown g10 = 10%Z /\
       Script.roundActive g10 = false /\
       forall pointerId busy random1 random2,
         Script.onAimPointerUp pointerId busy random1 random2 g10 = g10) /\
    (forall g : Script.Game num,
       Script.reachable g ->
       (0 <= Script.dartsThrown g <= Script.MAX_DARTS_PER_ROUND)%Z /\
       (Script.dartsThrown g = Script.MAX_DARTS_PER_ROUND ->
        Script.roundActive g = false)).
Proof.
  intros num A M. split.
  - intros g throws Hlen g10.
    destruct (registerThrows_ten throws g Hlen) as [Hcount Hdone].
    fold g10 in Hcount, Hdone.
    split; [exact Hcount|]. split; [exact Hdone|].
    intros pointerId busy random1 random2.
    unfold Script.onAimPointerUp. rewrite Hdone.
    now destruct (Script.gameStarted g10).
  - intros g Hreach.
    assert (Hinv : Spec.roundInv g).
    { revert g Hreach. apply reachable_ind.
      - unfold Spec.roundInv, Script.MAX_DARTS_PER_ROUND. cbn.
        split; [lia|discriminate].
      - intros e g. apply roundInv_handle. }
    destruct Hinv as [Hrange Hleft]. split; [exact Hrange|].
    intros Hfull. destruct (Script.roundActive g); [|reflexivity].
    specialize (Hleft eq_refl). lia.
Qed.

(** Two binary64 values that the equality test tells apart are different. *)
Lemma float_eqb_neq (x y : float) :
  PrimFloat.eqb x x = true -> PrimFloat.eqb x y = false -> x <> y.
Proof. intros Hxx Hxy Heq. rewrite <- Heq in Hxy. congruence. Qed.

(** C2, as the specification words it, fails on [registerThrowScore]: an
    eleventh call after a complete round of single 20s raises [totalScore]
    from 200 to 220 and [dartsThrown] to 11 (binary64). *)
Lemma eleventh_registerThrowScore_counts :
  let throw : option (Script.ScoreLike float) :=
    Some {| Script.points := VNumber 20%float;
            Script.label := Some (Scoring.LabelWedge "S" 20%float);
            Script.ring := Some Scoring.SINGLE;
            Script.mult := Some 1%Z;
            Script.wedge := Some 20%float |} in
  let g10 :=
    Script.registerThrows (replicate 10 throw)
      (Script.resetRound Script.initialGame) in
  let g11 := Script.registerThrowScore throw g10 in
  Script.dartsThrown g10 = 10%Z /\
  Script.roundActive g10 = false /\
  Script.totalScore g10 = 200%float /\
  Script.totalScore g11 = 220%float /\
  Script.totalScore g11 <> Script.totalScore g10 /\
  Script.dartsThrown g11 = 11%Z /\
  ~ (Script.dartsThrown g11 <= Script.MAX_DARTS_PER_ROUND)%Z.
Proof.
  intros throw g10 g11.
  repeat match goal with |- _ /\ _ => split end;
    try (vm_compute; reflexivity).
  - apply float_eqb_neq; vm_compute; reflexivity.
  - vm_compute. intros Hle. apply Hle. reflexivity.
Qed.

(** Ten single 20s over the exact numbers, then one more pointer release;
    and a game reached by the start button alone. *)
Lemma round_completes_after_ten_darts_witness :
  let throw : option (Script.ScoreLike R) :=
    Some {| Script.points := VNumber 20%R;
            Script.label := Some (Scoring.LabelWedge "S" 20%R);
            Script.ring := Some Scoring.SINGLE;
            Script.mult := Some 1%Z;
            Script.wedge := Some 20%R |} in
  let g10 :=
    Script.registerThrows (replicate 10 throw)
      (Script.resetRound Script.initialGame) in
  (Script.dartsThrown g10 = 10%Z /\
   Script.roundActive g10 = false /\
   Script.onAimPointerUp 1 false (1 / 2)%R (1 / 2)%R g10 = g10) /\
  (0 <= Script.dartsThrown
          (Script.run [Script.EBoardSynced; Script.EStartClick]
             (@Script.initialGame R _))
     <= Script.MAX_DARTS_PER_ROUND)%Z.
Proof.
  intros throw g10.
  pose proof (round_completes_after_ten_darts R _ _) as [Hten Hreach].
  split.
  - destruct (Hten Script.initialGame (replicate 10 throw) eq_refl)
      as (Hcount & Hdone & Hup).
    split; [exact Hcount|]. split; [exact Hdone|]. apply Hup.
  - apply Hreach. eexists. reflexivity.
Defined.

(** ** C7: a second [beginHold] *)

(** C7, as the code has it.  [beginHold] does not look at [holding]: it
    always leaves the disc holding with [holdTime] 0 and the radius at
    [maxRadius], and keeps [enabled], the centre and the clock; on a disc
    that is already holding it therefore restarts the shrink.  The no-op is
    the caller's: in every game the events can reach, while the aim disc is
    holding, [onAimPointerDown] returns the game as it is, aim state
    included.  (Every aim-disc operation is a total function: none
    throws.) *)
Theorem beginHold_restarts_and_is_guarded :
  forall (num : Type) (A : JsArith num) (M : JsMath num),
    (forall (p : Aim.AimParams num) (state : Aim.AimState num),
       let state' := Aim.beginHold p state in
       Aim.holding state' = true /\
       Aim.holdTime state' = ofZ 0 /\
       Aim.radius state' = Aim.maxRadius p /\
       Aim.enabled state' = Aim.enabled state /\
       Aim.centerX state' = Aim.centerX state /\
       Aim.centerY state' = Aim.centerY state /\
       Aim.time state' = Aim.time state) /\
    (forall (g : Script.Game num) (disc : Aim.AimState num),
       Script.reachable g ->
       Script.aimDisc g = Some disc ->
       Aim.holding disc = true ->
       forall pointerId busy,
         Script.onAimPointerDown pointerId busy g = g).
Proof.
  intros num A M. split.
  - intros p state state'. subst state'. cbn. repeat split.
  - intros g disc Hreach Hdisc Hholding pointerId busy.
    assert (Hinv : Spec.holdInv g).
    { apply (reachable_ind Spec.holdInv).
      - intros d. discriminate.
      - intros e g0. apply holdInv_handle.
      - exact Hreach. }
    unfold Script.onAimPointerDown.
    rewrite Hdisc, (Hinv disc Hdisc Hholding).
    now destruct (Script.gameStarted g), (Script.roundActive g), busy.
Qed.

(** C7, as the specification words it, fails on [beginHold]: half a second
    into a hold, with the radius shrunk to 0.5, a second [beginHold] puts
    [holdTime] back to 0 and the radius back to 0.75 (binary64). *)
Lemma beginHold_while_holding_restarts :
  let state : Aim.AimState float :=
    {| Aim.enabled := true; Aim.time := 3%float; Aim.holding := true;
       Aim.holdTime := 0.5%float; Aim.centerX := 0.25%float;
       Aim.centerY := (-0.5)%float; Aim.radius := 0.5%float |} in
  let state' := Aim.beginHold Script.aimParams state in
  Aim.holding state = true /\
  state' <> state /\
  Aim.holdTime state' = 0%float /\ Aim.holdTime state' <> Aim.holdTime state /\
  Aim.radius state' = 0.75%float /\ Aim.radius state' <> Aim.radius state.
Proof.
  intros state state'.
  assert (Htime : Aim.holdTime state' <> Aim.holdTime state)
    by (apply float_eqb_neq; vm_compute; reflexivity).
  assert (Hradius : Aim.radius state' <> Aim.radius state)
    by (apply float_eqb_neq; vm_compute; reflexivity).
  repeat match goal with |- _ /\ _ => split end;
    try assumption; try (vm_compute; reflexivity).
  intros Heq. apply Htime. now rewrite Heq.
Qed.

(** A second pointer-down while the first hold is still on, over the exact
    numbers. *)
Lemma beginHold_restarts_and_is_guarded_witness :
  let g := Script.run [Script.EBoardSynced; Script.EStartClick;
                       Script.EPointerDown 1 false]
             (@Script.initialGame R _) in
  (exists disc, Script.aimDisc g = Some disc /\ Aim.holding disc = true) /\
  Script.onAimPointerDown 2 false g = g.
Proof.
  intros g. split.
  - eexists. split; reflexivity.
  - refine (proj2 (beginHold_restarts_and_is_guarded R _ _) g _ _ _ _ 2%nat false).
    + eexists. reflexivity.
    + reflexivity.
    + reflexivity.
Defined.

(** ** C4: the composite score *)

Import Leaderboard.

Lemma compositeScore_real (s t : Z) :
  @toCompositeScore R _ (IZR s) (IZR t) = IZR (s * 10 ^ 12 - t).
Proof.
  unfold toCompositeScore, SCORE_MULTIPLIER. js_real.
  rewrite minus_IZR, mult_IZR. reflexivity.
Qed.

(** C4, as the code has it.  The composite is
    [score * 10^12 - submittedAt].  Take integer scores and time stamps
    whose composites binary64 computes exactly.  Then the composite is that
    exact integer; of two entries with scores [s1 > s2] the first has the
    strictly greater composite provided [t1 - t2 < 10^12 * (s1 - s2)], in
    particular whenever the time stamps are less than [10^12] ms apart; and
    of two entries with equal scores the one submitted earlier has the
    strictly greater composite. *)
Theorem composite_score_order :
  (forall (num : Type) (A : JsArith num) (score submittedAt : num),
     toCompositeScore score submittedAt
     = (score * ofZ 1000000000000 - submittedAt)%js)
  /\
  (forall s t : Z,
     Spec.compositeExact s t ->
     @toCompositeScore R _ (IZR s) (IZR t) = IZR (s * 10 ^ 12 - t) /\
     Spec.exactInteger (s * 10 ^ 12 - t))
  /\
  (forall s1 t1 s2 t2 : Z,
     Spec.compositeExact s1 t1 -> Spec.compositeExact s2 t2 ->
     (s2 < s1)%Z ->
     (t1 - t2 < 10 ^ 12 * (s1 - s2))%Z ->
     (@toCompositeScore R _ (IZR s1) (IZR t1)
        >? toCompositeScore (IZR s2) (IZR t2))%js = true)
  /\
  (forall s1 t1 s2 t2 : Z,
     Spec.compositeExact s1 t1 -> Spec.compositeExact s2 t2 ->
     (s2 < s1)%Z ->
     (Z.abs (t1 - t2) < 10 ^ 12)%Z ->
     (@toCompositeScore R _ (IZR s1) (IZR t1)
        >? toCompositeScore (IZR s2) (IZR t2))%js = true)
  /\
  (forall s t1 t2 : Z,
     Spec.compositeExact s t1 -> Spec.compositeExact s t2 ->
     (t1 < t2)%Z ->
     (@toCompositeScore R _ (IZR s) (IZR t1)
        >? toCompositeScore (IZR s) (IZR t2))%js = true).
Proof.
  assert (Horder : forall s1 t1 s2 t2 : Z,
            (s2 * 10 ^ 12 - t2 < s1 * 10 ^ 12 - t1)%Z ->
            (@toCompositeScore R _ (IZR s1) (IZR t1)
               >? toCompositeScore (IZR s2) (IZR t2))%js = true).
  { intros s1 t1 s2 t2 Hlt. rewrite !compositeScore_real. js_real.
    apply Rltb_true, IZR_lt, Hlt. }
  split; [reflexivity|]. split; [|split; [|split]].
  - intros s t (_ & _ & _ & Hexact). split; [apply compositeScore_real | exact Hexact].
  - intros s1 t1 s2 t2 _ _ Hs Ht. apply Horder. lia.
  - intros s1 t1 s2 t2 _ _ Hs Ht. apply Horder. lia.
  - intros s t1 t2 _ _ Ht. apply Horder. lia.
Qed.

(** C4, as the specification words it, fails twice on binary64.  A score of
    1 submitted at 2 800 000 000 000 ms ranks below a score of 0 submitted
    at 1 700 000 000 000 ms: the time stamps are more than [10^12] ms
    apart.  And two entries with the score 10 000 submitted one millisecond
    apart have the same composite, 9 998 300 000 000 000: above [2^53] the
    subtraction rounds. *)
Lemma composite_score_order_fails :
  ((@toCompositeScore float _ (ofZ 1) (ofZ 2800000000000)
      <? toCompositeScore (ofZ 0) (ofZ 1700000000000))%js = true /\
   (@toCompositeScore float _ (ofZ 1) (ofZ 2800000000000)
      >? toCompositeScore (ofZ 0) (ofZ 1700000000000))%js = false)
  /\
  (@toCompositeScore float _ (ofZ 10000) (ofZ 1700000000000)
     = ofZ 9998300000000000 /\
   @toCompositeScore float _ (ofZ 10000) (ofZ 1700000000001)
     = ofZ 9998300000000000 /\
   (@toCompositeScore float _ (ofZ 10000) (ofZ 1700000000000)
      >? toCompositeScore (ofZ 10000) (ofZ 1700000000001))%js = false).
Proof. repeat split; vm_compute; reflexivity. Qed.

(** Two rounds of the game a second apart, and a tie at the maximum round
    score of 600. *)
Lemma composite_score_order_witness :
  (@toCompositeScore R _ (IZR 200) (IZR 1762100001000)
     >? toCompositeScore (IZR 100) (IZR 1762100000000))%js = true /\
  (@toCompositeScore R _ (IZR 600) (IZR 1762100000000)
     >? toCompositeScore (IZR 600) (IZR 1762100000001))%js = true.
Proof.
  destruct composite_score_order as (_ & _ & Hscore & _ & Htie).
  split.
  - apply (Hscore 200 1762100001000 100 1762100000000)%Z;
      unfold Spec.compositeExact, Spec.exactInteger; lia.
  - apply (Htie 600 1762100000000 1762100000001)%Z;
      unfold Spec.compositeExact, Spec.exactInteger; lia.
Defined.

(** The same two comparisons on binary64. *)
Example composite_score_order_binary64 :
  (@toCompositeScore float _ (ofZ 200) (ofZ 1762100001000)
     >? toCompositeScore (ofZ 100) (ofZ 1762100000000))%js = true /\
  (@toCompositeScore float _ (ofZ 600) (ofZ 1762100000000)
     >? toCompositeScore (ofZ 600) (ofZ 1762100000001))%js = true.
Proof. split; vm_compute; reflexivity. Qed.

(** ** C3: a score that is not higher changes nothing *)

Section Upsert.
Context {num : Type} `{JsArith num}.
Variable JSON_stringify : StoredLeaderboardRecord num -> string.
Variable JSON_parse : string -> option (StoredLeaderboardRecord num).

Lemma hGet_hSet (redis : Redis num) (key field value : string) :
  hGet (hSet redis key field value) key field = Some value.
Proof.
  unfold hGet, hSet. cbn [hashes].
  rewrite lookup_insert_eq. cbn. apply lookup_insert_eq.
Qed.

Lemma hGet_zAdd (redis : Redis num) (zkey member : string) (s : num)
  (key field : string) :
  hGet (zAdd redis zkey member s) key field = hGet redis key field.
Proof. reflexivity. Qed.


End Upsert.



(** ** C8: the rank of a user *)

Section Rank.
Context {num : Type} `{JsArith num}.

Lemma zindex_None (member : string) (l : list (string * num)) :
  member ∉ l.*1 -> zindex member l = None.
Proof.
  induction l as [|[m s] l IH]; intros Hnot; [reflexivity|].
  cbn [zindex fst]. rewrite fmap_cons, not_elem_of_cons in Hnot.
  destruct Hnot as [Hne Hnot]. cbn [fst] in Hne.
  destruct (String.eqb m member) eqn:Heq.
  - apply String.eqb_eq in Heq. congruence.
  - rewrite (IH Hnot). reflexivity.
Qed.

Lemma zindex_Some (member : string) (l : list (string * num)) (r : nat)
  (s : num) :
  NoDup l.*1 -> l !! r = Some (member, s) -> zindex member l = Some r.
Proof.
  revert r. induction l as [|[m s'] l IH]; intros r Hnodup Hr; [discriminate|].
  rewrite fmap_cons in Hnodup. apply NoDup_cons in Hnodup as [Hfresh Hnodup].
  cbn [zindex fst] in *. destruct r as [|r]; cbn in Hr.
  - injection Hr as -> ->. now rewrite String.eqb_refl.
  - destruct (String.eqb m member) eqn:Heq.
    + apply String.eqb_eq in Heq. subst m. exfalso. apply Hfresh.
      apply list_elem_of_fmap. exists (member, s). split; [reflexivity|].
      apply list_elem_of_lookup. eauto.
    + rewrite (IH r Hnodup Hr). reflexivity.
Qed.

Lemma zRange_all_reversed (redis : Redis num) (key : string) :
  zRange redis key 0 (-1) true = reverse (zmembers redis key).
Proof.
  unfold zRange. cbn [Z.ltb Z.compare].
  rewrite drop_0. apply take_ge. rewrite length_reverse. lia.
Qed.


Lemma zinsert_Permutation (e : string * num) (l : list (string * num)) :
  zinsert e l ≡ₚ e :: l.
Proof.
  induction l as [|x l IH]; [reflexivity|].
  cbn [zinsert]. destruct (zbefore e x); [reflexivity|].
  rewrite IH. apply Permutation_swap.
Qed.

Lemma NoDup_filter_fst (P : string * num -> Prop)
  `{!forall e, Decision (P e)} (l : list (string * num)) :
  NoDup l.*1 -> NoDup (filter P l).*1.
Proof.
  induction l as [|x l IH]; intros Hnodup; [constructor|].
  rewrite fmap_cons in Hnodup. apply NoDup_cons in Hnodup as [Hfresh Hnodup].
  rewrite filter_cons. destruct (decide (P x)); [|auto].
  rewrite fmap_cons. apply NoDup_cons. split; [|auto].
  intros Hin. apply Hfresh.
  apply list_elem_of_fmap in Hin as (y & Hy & Hin).
  apply list_elem_of_filter in Hin as [_ Hin].
  apply list_elem_of_fmap. eauto.
Qed.

(** [zAdd] keeps each member once. *)
Lemma zAdd_NoDup (redis : Redis num) (key member : string) (s : num) :
  NoDup (zmembers redis key).*1 ->
  NoDup (zmembers (zAdd redis key member s) key).*1.
Proof.
  intros Hnodup. unfold zmembers at 1, zAdd. cbn [zsets].
  rewrite lookup_insert_eq. cbn.
  rewrite (fmap_Permutation fst _ _ (zinsert_Permutation _ _)).
  rewrite fmap_cons. cbn [fst].
  apply NoDup_cons. split.
  - rewrite list_elem_of_fmap. intros ([m s'] & Hm & Hin). cbn in Hm. subst m.
    apply list_elem_of_filter in Hin as [Hne _]. now apply Hne.
  - now apply NoDup_filter_fst.
Qed.

End Rank.

Lemma zbefore_false_le (a b : string * R) :
  zbefore a b = false -> (b.2 <= a.2)%R.
Proof.
  unfold zbefore. cbn [ltb RealArith]. unfold Rltb.
  destruct (Rlt_dec a.2 b.2); [discriminate|]. intros _. lra.
Qed.

Lemma zbefore_true_le (a b : string * R) :
  zbefore a b = true -> (a.2 <= b.2)%R.
Proof.
  unfold zbefore. cbn [ltb RealArith]. unfold Rltb.
  destruct (Rlt_dec a.2 b.2); [lra|].
  destruct (Rlt_dec b.2 a.2); [discriminate|lra].
Qed.

Lemma zinsert_ascending (e : string * R) (l : list (string * R)) :
  Spec.zascending l -> Spec.zascending (zinsert e l).
Proof.
  unfold Spec.zascending. induction l as [|x l IH]; intros Hsorted.
  - repeat constructor.
  - apply StronglySorted_inv in Hsorted as [Hl Hx]. cbn [zinsert].
    destruct (zbefore e x) eqn:Hbefore.
    + pose proof (zbefore_true_le e x Hbefore) as Hle.
      constructor; [constructor; assumption|].
      constructor; [exact Hle|].
      eapply Forall_impl; [exact Hx|]. cbn. intros y Hy. lra.
    + pose proof (zbefore_false_le e x Hbefore) as Hle.
      constructor; [auto|].
      rewrite (zinsert_Permutation e l). constructor; assumption.
Qed.

Lemma filter_ascending (P : string * R -> Prop) `{!forall e, Decision (P e)}
  (l : list (string * R)) :
  Spec.zascending l -> Spec.zascending (filter P l).
Proof.
  unfold Spec.zascending. induction l as [|x l IH]; intros Hsorted; [constructor|].
  apply StronglySorted_inv in Hsorted as [Hl Hx].
  rewrite filter_cons. destruct (decide (P x)); [|auto].
  constructor; [auto|].
  rewrite Forall_forall in Hx. apply Forall_forall. intros y Hy.
  apply Hx. apply list_elem_of_filter in Hy as [_ Hy]. exact Hy.
Qed.

Lemma zAdd_ascending (redis : Redis R) (key member : string) (s : R) :
  Spec.zascending (zmembers redis key) ->
  Spec.zascending (zmembers (zAdd redis key member s) key).
Proof.
  intros Hsorted. unfold zmembers at 1, zAdd. cbn [zsets].
  rewrite lookup_insert_eq. cbn.
  now apply zinsert_ascending, filter_ascending.
Qed.

(** C8.  For every sorted set and every user: a user with no entry has
    rank [null]; a user whose entry is at the 0-based position
    [ascendingRank] from the lowest composite score gets
    [total - ascendingRank], where [total] is the cardinality of the set,
    and this is the user's 1-based position in the listing from the highest
    score down (the one [zRange] gives in reverse).  After A submits 100
    and B submits 200 (binary64, whatever the JSON encoding), A has rank 2
    and B has rank 1.  The positions are those of a sorted set: [zAdd]
    keeps each member once and, over the exact numbers, keeps the members
    in ascending order of their scores. *)
Theorem getRankForUser_descending_rank :
  (forall (num : Type) (A : JsArith num) (redis : Redis num)
          (postId userId : string),
     let members := zmembers redis (leaderboardKey postId) in
     let total := length members in
     (userId ∉ members.*1 -> getRankForUser redis postId userId = None) /\
     (forall (ascendingRank : nat) (composite : num),
        NoDup members.*1 ->
        members !! ascendingRank = Some (userId, composite) ->
        getRankForUser redis postId userId
          = Some (Z.of_nat total - Z.of_nat ascendingRank)%Z /\
        (1 <= Z.of_nat total - Z.of_nat ascendingRank <= Z.of_nat total)%Z /\
        zRange redis (leaderboardKey postId) 0 (-1) true
          !! (total - ascendingRank - 1)%nat = Some (userId, composite)))
  /\
  (forall (JSON_stringify : StoredLeaderboardRecord float -> string)
          (JSON_parse : string -> option (StoredLeaderboardRecord float)),
     let redis1 :=
       snd (upsertScore JSON_stringify JSON_parse emptyRedis "t3_post" "A"
              (ofZ 100) None (ofZ 1762100000000)) in
     let redis2 :=
       snd (upsertScore JSON_stringify JSON_parse redis1 "t3_post" "B"
              (ofZ 200) None (ofZ 1762100005000)) in
     getRankForUser redis2 "t3_post" "A" = Some 2%Z /\
     getRankForUser redis2 "t3_post" "B" = Some 1%Z /\
     map (fun e => (e_userId e, e_rank e))
       (fetchTopN JSON_parse redis2 "t3_post" 1) = [("B", 1%Z)])
  /\
  (forall (num : Type) (A : JsArith num) (redis : Redis num)
          (key member : string) (composite : num),
     NoDup (zmembers redis key).*1 ->
     NoDup (zmembers (zAdd redis key member composite) key).*1)
  /\
  (forall (redis : Redis R) (key member : string) (composite : R),
     Spec.zascending (zmembers redis key) ->
     Spec.zascending (zmembers (zAdd redis key member composite) key)).
Proof.
  split; [|split; [|split]];
    [| | intros num A; apply zAdd_NoDup | apply zAdd_ascending].
  - intros num A redis postId userId members total. split.
    + intros Habsent. unfold getRankForUser, zRank. fold members.
      now rewrite (zindex_None userId members Habsent).
    + intros ascendingRank composite Hnodup Hat.
      pose proof (lookup_lt_Some _ _ _ Hat) as Hlt. fold total in Hlt.
      split; [|split].
      * unfold getRankForUser, zRank, zCard. fold members.
        now rewrite (zindex_Some userId members ascendingRank composite Hnodup Hat).
      * lia.
      * rewrite zRange_all_reversed. fold members.
        rewrite reverse_lookup by (fold total; lia). fold total.
        replace (total - S (total - ascendingRank - 1))%nat
          with ascendingRank by lia.
        exact Hat.
  - intros JSON_stringify JSON_parse redis1 redis2.
    repeat split; vm_compute; reflexivity.
Qed.

(** A and B on the board, and a user C who never submitted (binary64). *)
Lemma getRankForUser_descending_rank_witness :
  let JSON_stringify := fun _ : StoredLeaderboardRecord float => "{}" in
  let JSON_parse := fun _ : string => @None (StoredLeaderboardRecord float) in
  let redis1 :=
    snd (upsertScore JSON_stringify JSON_parse emptyRedis "t3_post" "A"
           (ofZ 100) None (ofZ 1762100000000)) in
  let redis2 :=
    snd (upsertScore JSON_stringify JSON_parse redis1 "t3_post" "B"
           (ofZ 200) None (ofZ 1762100005000)) in
  getRankForUser redis2 "t3_post" "A" = Some 2%Z /\
  getRankForUser redis2 "t3_post" "C" = None.
Proof.
  intros JSON_stringify JSON_parse redis1 redis2.
  destruct (proj1 getRankForUser_descending_rank float _ redis2 "t3_post" "A")
    as [_ Hpresent].
  destruct (proj1 getRankForUser_descending_rank float _ redis2 "t3_post" "C")
    as [Habsent _].
  split.
  - destruct (Hpresent 0%nat (ofZ 98237900000000)) as [Hrank _].
    + apply (bool_decide_unpack _). vm_compute. reflexivity.
    + vm_compute. reflexivity.
    + rewrite Hrank. vm_compute. reflexivity.
  - apply Habsent. apply (bool_decide_unpack _). vm_compute. reflexivity.
Defined.

(* ================================================================== *)
(** * Further properties of the code                                   *)
(* ================================================================== *)

(** ** scoring.js: angles and wedges *)

Lemma Rtrunc_near (x : R) :
  (0 <= x -> Rtrunc x <= x < Rtrunc x + 1)%R /\
  (x < 0 -> x <= Rtrunc x < x + 1)%R.
Proof.
  unfold Rtrunc. split; intros Hx.
  - destruct (Rle_dec 0 x); [|lra]. pose proof (base_Int_part x). lra.
  - destruct (Rle_dec 0 x); [lra|]. pose proof (base_Int_part (- x)). lra.
Qed.

Lemma normAngle0To2Pi_bounds (a : R) :
  (0 <= normAngle0To2Pi a < Rtrigo1.PI * 2)%R.
Proof.
  pose proof two_pi_pos as Hpos.
  unfold normAngle0To2Pi. js_real. unfold Rrem.
  set (T := (Rtrigo1.PI * 2)%R) in *. set (q := (a / T)%R).
  assert (Hx : (a - T * Rtrunc q = T * (q - Rtrunc q))%R)
    by (unfold q; field; lra).
  rewrite Hx.
  destruct (Rtrunc_near q) as [Hnn Hneg].
  destruct (Rle_dec 0 q) as [Hq | Hq].
  - specialize (Hnn Hq).
    assert (0 <= T * (q - Rtrunc q) < T)%R by nra.
    rewrite Rltb_intro_false by lra. lra.
  - assert (Hq' : (q < 0)%R) by lra. specialize (Hneg Hq').
    assert (- T < T * (q - Rtrunc q) <= 0)%R by nra.
    destruct (Rltb (T * (q - Rtrunc q)) 0) eqn:Hlt.
    + apply Rltb_true in Hlt. lra.
    + apply Rltb_false in Hlt. lra.
Qed.

(** An integer strictly between -1 and 1 is 0. *)
Lemma IZR_small (k : Z) : (-1 < IZR k < 1)%R -> k = 0%Z.
Proof.
  intros [Hlo Hhi].
  apply (lt_IZR (-1) k) in Hlo. apply (lt_IZR k 1) in Hhi. lia.
Qed.

(** Two angles of [[0, 2π)] a whole number of turns apart are equal. *)
Lemma turn_unique (x y : R) (k : Z) :
  (0 <= x < Rtrigo1.PI * 2)%R -> (0 <= y < Rtrigo1.PI * 2)%R ->
  (x = y - Rtrigo1.PI * 2 * IZR k)%R -> x = y.
Proof.
  intros Hx Hy Hxy. pose proof two_pi_pos as Hpos.
  assert (Hk : k = 0%Z).
  { apply IZR_small. split; nra. }
  subst k. lra.
Qed.

Lemma normAngle0To2Pi_fixed (a : R) :
  (0 <= a < Rtrigo1.PI * 2)%R -> normAngle0To2Pi a = a.
Proof.
  intros Ha. destruct (normAngle0To2Pi_shift a) as [k Hk].
  apply (turn_unique _ _ k); [apply normAngle0To2Pi_bounds | exact Ha | exact Hk].
Qed.

(** X1.  Over the exact numbers, [normAngle0To2Pi] returns the
    representative of its argument in [[0, 2π)]: the result lies in that
    interval, differs from the argument by a whole number of turns, and is
    left alone by a second normalization. *)
Theorem normAngle0To2Pi_representative :
  forall a : R,
    (0 <= normAngle0To2Pi a < Rtrigo1.PI * 2)%R /\
    (exists k : Z, normAngle0To2Pi a = (a - Rtrigo1.PI * 2 * IZR k)%R) /\
    normAngle0To2Pi (normAngle0To2Pi a) = normAngle0To2Pi a.
Proof.
  intros a. split; [apply normAngle0To2Pi_bounds|].
  split; [apply normAngle0To2Pi_shift|].
  apply normAngle0To2Pi_fixed, normAngle0To2Pi_bounds.
Qed.

Lemma Int_part_IZR_div (n m : Z) :
  (0 <= n)%Z -> (0 < m)%Z -> Int_part (IZR n / IZR m) = (n / m)%Z.
Proof.
  intros Hn Hm. apply Int_part_unique.
  pose proof (Z.div_mod n m ltac:(lia)) as Hdiv.
  pose proof (Z.mod_pos_bound n m Hm) as Hmod.
  assert (HR : IZR n = (IZR m * IZR (n / m) + IZR (n mod m))%R).
  { rewrite <- mult_IZR, <- plus_IZR. now f_equal. }
  assert (Hm' : (0 < IZR m)%R) by now apply (IZR_lt 0).
  assert (Hr : (0 <= IZR (n mod m) < IZR m)%R).
  { split; [apply (IZR_le 0) | apply IZR_lt]; lia. }
  set (x := (IZR n / IZR m)%R).
  assert (Hx : (x * IZR m = IZR n)%R) by (unfold x; field; lra).
  nra.
Qed.

(** The remainder of two integers, on the exact carrier. *)
Lemma Rrem_IZR (n m : Z) :
  (0 <= n)%Z -> (0 < m)%Z -> Rrem (IZR n) (IZR m) = IZR (n mod m).
Proof.
  intros Hn Hm. unfold Rrem, Rtrunc.
  assert (Hm' : (0 < IZR m)%R) by now apply (IZR_lt 0).
  assert (Hq : (0 <= IZR n / IZR m)%R).
  { apply Rmult_le_pos; [now apply (IZR_le 0)|].
    apply Rlt_le, Rinv_0_lt_compat, Hm'. }
  destruct (Rle_dec 0 (IZR n / IZR m)); [|contradiction].
  rewrite Int_part_IZR_div by assumption.
  rewrite <- mult_IZR, <- minus_IZR. f_equal.
  pose proof (Z.div_mod n m ltac:(lia)). lia.
Qed.

(** The index computed from [delta], the angular distance from the centre
    of wedge 0: [delta] within half a wedge of [k] wedges gives [k], and the
    last half wedge before a full turn gives 0 again. *)
Lemma wedge_of_delta (w delta : R) (k : Z) :
  (0 < w)%R -> (0 <= k <= 20)%Z ->
  (IZR k * w - w / 2 <= delta < IZR k * w + w / 2)%R ->
  (@floor R _ ((delta + w / 2) / w)%R %% 20%R)%js = IZR (k mod 20).
Proof.
  intros Hw Hk Hdelta. js_real.
  set (q := ((delta + w / 2) / w)%R).
  assert (Hq : (q * w = delta + w / 2)%R) by (unfold q; field; lra).
  rewrite (Int_part_unique q k) by (split; nra).
  apply (Rrem_IZR k 20); lia.
Qed.

(** What [wedgeIndexFromAngle] computes on a board of twenty wedges, with
    [delta] made explicit. *)
Lemma wedgeIndexFromAngle_delta (theta : R) (cfg : ScoringConfig R) (s : R) :
  wedgeAngle cfg = VNumber (Rtrigo1.PI * 2 / 20)%R ->
  startAngle cfg = VNumber s ->
  let w := (Rtrigo1.PI * 2 / 20)%R in
  let a := normAngle0To2Pi
             (theta + match angleOffset cfg with VNumber o => o | _ => 0 end)%R in
  let delta :=
    if String.eqb (direction cfg) "cw"
    then normAngle0To2Pi (s - a)%R else normAngle0To2Pi (a - s)%R in
  wedgeIndexFromAngle theta cfg
  = Some (@floor R _ ((delta + w / 2) / w)%R %% 20%R)%js.
Proof.
  intros Hw Hs w a delta. unfold wedgeIndexFromAngle. rewrite Hw, Hs.
  subst delta a w. js_real.
  destruct (String.eqb (direction cfg) "cw"); reflexivity.
Qed.

Lemma wedge_pos : (0 < Rtrigo1.PI * 2 / 20)%R.
Proof. pose proof two_pi_pos. lra. Qed.

(** Every [delta] of [[0, 2π)] is within half a wedge of some [k] wedges,
    [0 <= k <= 20]. *)
Lemma delta_wedge (delta : R) :
  (0 <= delta < Rtrigo1.PI * 2)%R ->
  let w := (Rtrigo1.PI * 2 / 20)%R in
  exists k : Z, (0 <= k <= 20)%Z /\
    (IZR k * w - w / 2 <= delta < IZR k * w + w / 2)%R.
Proof.
  intros Hdelta w. pose proof wedge_pos as Hw. fold w in Hw.
  set (q := ((delta + w / 2) / w)%R).
  assert (Hq : (q * w = delta + w / 2)%R) by (unfold q; field; lra).
  pose proof (base_Int_part q) as [Hlo Hhi].
  assert (HT : (Rtrigo1.PI * 2 = 20 * w)%R) by (unfold w; lra).
  exists (Int_part q). split.
  - split.
    + assert (Hgt : (-1 < IZR (Int_part q))%R) by nra.
      apply (lt_IZR (-1)) in Hgt. lia.
    + assert (Hlt : (IZR (Int_part q) < 21)%R) by nra.
      apply (lt_IZR _ 21) in Hlt. lia.
  - split; nra.
Qed.

(** The wedge index is one of the integers 0, ..., 19. *)
Lemma wedgeIndexFromAngle_integer (theta : R) (cfg : ScoringConfig R) :
  Spec.validBoardConfig cfg ->
  exists k : Z, (0 <= k <= 19)%Z /\ wedgeIndexFromAngle theta cfg = Some (IZR k).
Proof.
  intros (Hok & _ & Hw & _).
  destruct (validate_ok_inv cfg Hok) as (_ & (s & Hs) & _).
  rewrite (wedgeIndexFromAngle_delta theta cfg s Hw Hs). cbv zeta.
  set (delta := if String.eqb (direction cfg) "cw" then _ else _).
  assert (Hdelta : (0 <= delta < Rtrigo1.PI * 2)%R).
  { subst delta. destruct (String.eqb (direction cfg) "cw");
      apply normAngle0To2Pi_bounds. }
  destruct (delta_wedge delta Hdelta) as (k & Hk & Hband).
  rewrite (wedge_of_delta _ delta k wedge_pos Hk Hband).
  exists (k mod 20)%Z. split; [|reflexivity].
  pose proof (Z.mod_pos_bound k 20 ltac:(lia)). lia.
Qed.

(** X2.  Over the exact numbers, on every valid board, the wedge index of
    every angle is one of the integers 0, ..., 19. *)
Theorem wedgeIndexFromAngle_in_range (theta : R) (cfg : ScoringConfig R) :
  Spec.validBoardConfig cfg ->
  exists k : Z, (0 <= k <= 19)%Z /\ wedgeIndexFromAngle theta cfg = Some (IZR k).
Proof. apply wedgeIndexFromAngle_integer. Qed.

Lemma wedgeIndexFromAngle_in_range_witness :
  exists k : Z, (0 <= k <= 19)%Z /\
    wedgeIndexFromAngle 1%R (@Script.scoringConfig R _) = Some (IZR k).
Proof.
  exact (wedgeIndexFromAngle_in_range 1%R Script.scoringConfig
           scoringConfig_valid).
Defined.

Lemma normAngle0To2Pi_congr (x c : R) (m : Z) :
  (x = c + Rtrigo1.PI * 2 * IZR m)%R -> (0 <= c < Rtrigo1.PI * 2)%R ->
  normAngle0To2Pi x = c.
Proof.
  intros Hx Hc. destruct (normAngle0To2Pi_shift x) as [k Hk].
  apply (turn_unique _ _ (k - m)); [apply normAngle0To2Pi_bounds | exact Hc |].
  rewrite Hk, Hx, minus_IZR. lra.
Qed.

(** The wedge index is the nearest wedge centre. *)
Lemma wedgeIndexFromAngle_nearest
  (theta : R) (cfg : ScoringConfig R) (s eps : R) (k j : Z) :
  Spec.validBoardConfig cfg ->
  startAngle cfg = VNumber s ->
  (0 <= k <= 19)%Z ->
  let w := (Rtrigo1.PI * 2 / 20)%R in
  let sign := if String.eqb (direction cfg) "cw" then (-1)%R else 1%R in
  (- (w / 2) <= eps < w / 2)%R ->
  (theta + match angleOffset cfg with VNumber o => o | _ => 0 end
   = s + sign * (IZR k * w + eps) + Rtrigo1.PI * 2 * IZR j)%R ->
  wedgeIndexFromAngle theta cfg = Some (IZR k).
Proof.
  intros (_ & _ & Hw & _) Hs Hk w sign Heps Htheta.
  pose proof wedge_pos as Hwpos. fold w in Hwpos.
  assert (HT : (Rtrigo1.PI * 2 = 20 * w)%R) by (unfold w; lra).
  rewrite (wedgeIndexFromAngle_delta theta cfg s Hw Hs). cbv zeta. fold w.
  set (adjusted := (theta + _)%R) in *.
  destruct (normAngle0To2Pi_shift adjusted) as [j1 Ha].
  set (a := normAngle0To2Pi adjusted) in *.
  set (c := (IZR k * w + eps)%R) in *.
  assert (Hkw : (0 <= IZR k * w <= 19 * w)%R).
  { assert (0 <= IZR k <= 19)%R
      by (split; [apply (IZR_le 0) | apply (IZR_le _ 19)]; lia).
    nra. }
  (* delta is the representative of c *)
  assert (Hdelta : forall c', (0 <= c' < Rtrigo1.PI * 2)%R ->
            (exists m : Z, c' = c + Rtrigo1.PI * 2 * IZR m)%R ->
            (if String.eqb (direction cfg) "cw"
             then normAngle0To2Pi (s - a)%R
             else normAngle0To2Pi (a - s)%R) = c').
  { intros c' Hc' [m Hm]. subst sign.
    destruct (String.eqb (direction cfg) "cw").
    - apply (normAngle0To2Pi_congr _ c' (j1 - j - m)); [|exact Hc'].
      rewrite !minus_IZR. lra.
    - apply (normAngle0To2Pi_congr _ c' (j - j1 - m)); [|exact Hc'].
      rewrite !minus_IZR. lra. }
  destruct (Rle_dec 0 c) as [Hc | Hc].
  - rewrite (Hdelta c) by (try (exists 0%Z); unfold c in *; lra).
    rewrite (wedge_of_delta w c k) by (try lia; unfold c in *; lra).
    now rewrite Z.mod_small by lia.
  - assert (k = 0%Z) as ->.
    { destruct (Z.eq_dec k 0%Z) as [|Hne]; [assumption|exfalso].
      assert (1 <= IZR k)%R by (apply (IZR_le 1); lia).
      unfold c in Hc. nra. }
    rewrite (Hdelta (c + Rtrigo1.PI * 2)%R)
      by (try (exists 1%Z); unfold c in *; lra).
    rewrite (wedge_of_delta w _ 20) by (try lia; unfold c in *; lra).
    reflexivity.
Qed.

(** X3.  Over the exact numbers, on every valid board, the wedge index is
    the nearest wedge centre: an angle that lies [k] wedges and [eps] past
    [startAngle] in the direction of the board (clockwise for ["cw"],
    counter-clockwise otherwise), with [-w/2 <= eps < w/2] and
    [0 <= k <= 19], has index [k], whatever the angle offset and the number
    of whole turns added. *)
Theorem wedgeIndexFromAngle_nearest_centre
  (theta : R) (cfg : ScoringConfig R) (s eps : R) (k j : Z) :
  Spec.validBoardConfig cfg ->
  startAngle cfg = VNumber s ->
  (0 <= k <= 19)%Z ->
  let w := (Rtrigo1.PI * 2 / 20)%R in
  let sign := if String.eqb (direction cfg) "cw" then (-1)%R else 1%R in
  (- (w / 2) <= eps < w / 2)%R ->
  (theta + match angleOffset cfg with VNumber o => o | _ => 0 end
   = s + sign * (IZR k * w + eps) + Rtrigo1.PI * 2 * IZR j)%R ->
  wedgeIndexFromAngle theta cfg = Some (IZR k).
Proof. apply wedgeIndexFromAngle_nearest. Qed.

(** One wedge clockwise of the top of the default board: index 1. *)
Lemma wedgeIndexFromAngle_nearest_centre_witness :
  wedgeIndexFromAngle (Rtrigo1.PI / 2 - Rtrigo1.PI * 2 / 20)%R
    (@Script.scoringConfig R _) = Some 1%R.
Proof.
  apply (wedgeIndexFromAngle_nearest_centre _ Script.scoringConfig
           (Rtrigo1.PI / 2)%R 0%R 1 0 scoringConfig_valid eq_refl).
  - lia.
  - pose proof wedge_pos. lra.
  - cbn. lra.
Defined.

(** ** scoring.js: the result of [scoreFromBoardXY] *)

Section ScoreShape.
Context {num : Type} `{JsMath num}.
Local Open Scope js_scope.

(** The ring and the multiplier [ringFromRadiusRatio] returns go
    together. *)
Lemma ringFromRadiusRatio_mult (rNorm : num) (cfg : ScoringConfig num)
  (info : RingInfo) :
  ringFromRadiusRatio rNorm cfg = Some info ->
  ri_mult info = match ri_ring info with
                 | DOUBLE => 2 | TRIPLE => 3 | SINGLE => 1 | _ => 0
                 end%Z.
Proof.
  unfold ringFromRadiusRatio. destruct (ringRatios cfg) as [rr|]; [|discriminate].
  intros [= <-].
  repeat match goal with
  | |- context [if ?c then _ else _] => destruct c
  end; reflexivity.
Qed.

(** The result of [scoreFromBoardXY] on a configuration that passes its
    defensive checks, by the ring of the hit. *)
Lemma scoreFromBoardXY_scored (x y : num) (cfg : ScoringConfig num)
  (ns : list num) :
  numbers cfg = Some ns -> length ns = 20%nat ->
  ringRatios cfg <> None ->
  isNumber (wedgeAngle cfg) = true -> isNumber (startAngle cfg) = true ->
  let r := Invariant.hitRadius x y in
  let rNorm := Invariant.hitRNorm x y cfg in
  exists info idx,
    ringFromRadiusRatio rNorm cfg = Some info /\
    wedgeIndexFromAngle (normAngle0To2Pi (atan2 y x)) cfg = Some idx /\
    scoreFromBoardXY x y (Some cfg) = Some
      match ri_ring info with
      | DBULL =>
          {| sr_points := match points cfg with
                          | Some p => default (ofZ 50) (dbull p)
                          | None => ofZ 50
                          end;
             sr_label := LabelText "DBULL";
             sr_wedge := None; sr_wedgeIndex := None; sr_mult := 0;
             sr_ring := DBULL; sr_angle := ofZ 0;
             sr_radius := r; sr_rNorm := rNorm |}
      | SBULL =>
          {| sr_points := match points cfg with
                          | Some p => default (ofZ 25) (bull p)
                          | None => ofZ 25
                          end;
             sr_label := LabelText "SBULL";
             sr_wedge := None; sr_wedgeIndex := None; sr_mult := 0;
             sr_ring := SBULL; sr_angle := ofZ 0;
             sr_radius := r; sr_rNorm := rNorm |}
      | MISS => missResult r rNorm
      | ring =>
          let wedgeValue :=
            match toIndex idx with
            | Some i => nth i ns (ofZ 0)
            | None => ofZ 0
            end in
          let mult := ri_mult info in
          {| sr_points := wedgeValue * ofZ mult;
             sr_label :=
               LabelWedge (if (mult =? 3)%Z then "T"
                           else if (mult =? 2)%Z then "D" else "S")
                          wedgeValue;
             sr_wedge := Some wedgeValue; sr_wedgeIndex := Some idx;
             sr_mult := mult; sr_ring := ring;
             sr_angle := normAngle0To2Pi (atan2 y x);
             sr_radius := r; sr_rNorm := rNorm |}
      end.
Proof.
  intros Hns Hlen Hrr Hw Hs r rNorm.
  destruct (ringRatios cfg) as [rr|] eqn:Err; [|contradiction].
  destruct (wedgeAngle cfg) as [| | | |w] eqn:Ew; try discriminate.
  destruct (startAngle cfg) as [| | | |s] eqn:Es; try discriminate.
  assert (Hring : exists info, ringFromRadiusRatio rNorm cfg = Some info).
  { unfold ringFromRadiusRatio. rewrite Err. eauto. }
  destruct Hring as [info Hinfo].
  assert (Hidx : exists idx,
             wedgeIndexFromAngle (normAngle0To2Pi (atan2 y x)) cfg = Some idx).
  { unfold wedgeIndexFromAngle. rewrite Ew, Es. eauto. }
  destruct Hidx as [idx Hidx].
  exists info, idx. split; [exact Hinfo|]. split; [exact Hidx|].
  unfold scoreFromBoardXY. rewrite Hns, Err, Ew, Es, Hlen.
  cbn [Nat.eqb negb].
  assert (HrNorm :
    match boardRadius cfg with
    | VNumber b =>
        if match boardRadius cfg with
           | VNumber b0 => isFinite b0 && (b0 >? ofZ 0)
           | _ => false
           end
        then sqrt (x * x + y * y) / b else sqrt (x * x + y * y)
    | _ => sqrt (x * x + y * y)
    end = rNorm).
  { subst rNorm. unfold Invariant.hitRNorm, Invariant.hitRadius.
    destruct (boardRadius cfg); reflexivity. }
  rewrite HrNorm, Hinfo. cbn [mbind option_bind].
  destruct (ri_ring info); cbn [ring_eqb]; try reflexivity;
    rewrite Hidx; cbn [mbind option_bind]; cbv zeta; do 2 f_equal;
    destruct (ri_mult info =? 3)%Z, (ri_mult info =? 2)%Z; reflexivity.
Qed.

(** The defensive checks reject a configuration that is not scorable. *)
Lemma scoreFromBoardXY_rejects (x y : num) (cfg : ScoringConfig num) :
  ~ Invariant.scorable cfg ->
  scoreFromBoardXY x y (Some cfg) = Some (missResult (ofZ 0) (ofZ 0)).
Proof.
  intros Hnot. unfold scoreFromBoardXY.
  destruct (numbers cfg) as [ns|] eqn:Hns; [|reflexivity].
  destruct (ringRatios cfg) as [rr|] eqn:Hrr; [|reflexivity].
  destruct (wedgeAngle cfg) as [| | | |w] eqn:Hw; try reflexivity.
  destruct (startAngle cfg) as [| | | |s] eqn:Hs; try reflexivity.
  destruct (Nat.eqb_spec (length ns) 20) as [Hlen | Hlen]; [|reflexivity].
  exfalso. apply Hnot. unfold Invariant.scorable.
  rewrite Hns, Hrr, Hw, Hs. repeat split; eauto.
Qed.

Lemma validate_ok_scorable (cfg : ScoringConfig num) :
  fst (validateScoringConfig (Some cfg)) = true -> Invariant.scorable cfg.
Proof.
  intros Hok.
  destruct (validate_ok_inv cfg Hok) as
    ((ns & Hns & Hlen) & (s & Hs) & (w & Hw) & (rr & Hrr)).
  unfold Invariant.scorable. rewrite Hs, Hw, Hrr. repeat split; eauto.
Qed.

End ScoreShape.

Section ScoreResults.
Context {num : Type} `{JsMath num}.
Local Open Scope js_scope.

(** X4.  For every number carrier, every hit and every configuration,
    [scoreFromBoardXY] returns a result whose fields agree with its ring: a
    miss scores 0 and, like the bulls, has no wedge, no wedge index and the
    multiplier 0; a double, a triple and a single carry a wedge, its index,
    the multiplier 2, 3 and 1, the label D, T and S followed by the wedge,
    and the points [wedge * mult]. *)
Theorem scoreFromBoardXY_fields_agree
  (x y : num) (cfg : option (ScoringConfig num)) :
  exists result, scoreFromBoardXY x y cfg = Some result /\
                 Invariant.resultCoherent result.
Proof.
  assert (Hmiss : forall r rNorm : num,
            Invariant.resultCoherent (missResult r rNorm)).
  { intros r rNorm. repeat split. }
  assert (Hdefensive : forall c, scoreFromBoardXY x y c
                                 = Some (missResult (ofZ 0) (ofZ 0)) ->
            exists result, scoreFromBoardXY x y c = Some result /\
                           Invariant.resultCoherent result).
  { intros c ->. eauto. }
  destruct cfg as [cfg|]; [|now apply Hdefensive].
  destruct (numbers cfg) as [ns|] eqn:Hns;
    [|apply Hdefensive; unfold scoreFromBoardXY; now rewrite Hns].
  destruct (ringRatios cfg) as [rr|] eqn:Hrr;
    [|apply Hdefensive; unfold scoreFromBoardXY; now rewrite Hns, Hrr].
  destruct (isNumber (wedgeAngle cfg)) eqn:Hw;
    [|apply Hdefensive; unfold scoreFromBoardXY; rewrite Hns, Hrr;
      now destruct (wedgeAngle cfg)].
  destruct (isNumber (startAngle cfg)) eqn:Hs;
    [|apply Hdefensive; unfold scoreFromBoardXY; rewrite Hns, Hrr;
      destruct (wedgeAngle cfg); try discriminate;
      now destruct (startAngle cfg)].
  destruct (Nat.eqb_spec (length ns) 20) as [Hlen | Hlen].
  - destruct (scoreFromBoardXY_scored x y cfg ns Hns Hlen) as
      (info & idx & Hinfo & _ & ->); try assumption; [now rewrite Hrr|].
    eexists. split; [reflexivity|].
    pose proof (ringFromRadiusRatio_mult _ _ _ Hinfo) as Hmult.
    unfold Invariant.resultCoherent.
    destruct (ri_ring info); cbn [sr_ring]; rewrite ?Hmult;
      try (repeat split; fail);
      do 2 eexists; repeat split.
  - apply Hdefensive. unfold scoreFromBoardXY. rewrite Hns, Hrr.
    destruct (wedgeAngle cfg); try discriminate.
    destruct (startAngle cfg); try discriminate.
    apply Nat.eqb_neq in Hlen. now rewrite Hlen.
Qed.

(** X5.  A configuration that passes [validateScoringConfig] passes the
    defensive checks of [scoreFromBoardXY]: the result reports the radius
    of the hit.  A configuration that is missing, or fails one of the
    checks (numbers not an array of length 20, no ring ratios, a wedge
    angle or a start angle that is not a number), gives the miss with
    points, radius and normalized radius 0. *)
Theorem scoreFromBoardXY_checks (x y : num) (cfg : ScoringConfig num) :
  (fst (validateScoringConfig (Some cfg)) = true ->
   exists result,
     scoreFromBoardXY x y (Some cfg) = Some result /\
     sr_radius result = sqrt (x * x + y * y)) /\
  (~ Invariant.scorable cfg ->
   scoreFromBoardXY x y (Some cfg) = Some (missResult (ofZ 0) (ofZ 0))) /\
  scoreFromBoardXY x y None = Some (missResult (ofZ 0) (ofZ 0)).
Proof.
  split; [|split; [apply scoreFromBoardXY_rejects | reflexivity]].
  intros Hok.
  destruct (validate_ok_scorable cfg Hok) as ((ns & Hns & Hlen) & Hrr & Hw & Hs).
  destruct (scoreFromBoardXY_scored x y cfg ns Hns Hlen Hrr Hw Hs)
    as (info & idx & _ & _ & ->).
  eexists. split; [reflexivity|].
  destruct (ri_ring info); reflexivity.
Qed.


(** The points of a hit on the board of board.js, given that the carrier
    multiplies the small integers involved exactly. *)
Lemma default_board_points
  (Hmul : forall v m : Z, (0 <= v <= 20)%Z -> (1 <= m <= 3)%Z ->
                          ofZ v * ofZ m = ofZ (v * m))
  (x y : num) :
  exists result (n : Z),
    scoreFromBoardXY x y (Some Script.scoringConfig) = Some result /\
    sr_points result = ofZ n /\ (0 <= n <= 60)%Z.
Proof.
  destruct (scoreFromBoardXY_scored x y Script.scoringConfig
              Board.DARTBOARD_NUMBERS eq_refl eq_refl)
    as (info & idx & Hinfo & _ & ->); try reflexivity; [discriminate|].
  pose proof (ringFromRadiusRatio_mult _ _ _ Hinfo) as Hmult.
  assert (Hnth : forall i, exists v : Z, (0 <= v <= 20)%Z /\
            nth i (@Board.DARTBOARD_NUMBERS num _) (ofZ 0) = ofZ v).
  { intros i. unfold Board.DARTBOARD_NUMBERS. rewrite map_nth.
    eexists. split; [|reflexivity].
    do 20 (destruct i as [|i]; [cbn; lia|]). destruct i; cbn; lia. }
  assert (Hwedge : exists v : Z, (0 <= v <= 20)%Z /\
            match toIndex idx with
            | Some i => nth i (@Board.DARTBOARD_NUMBERS num _) (ofZ 0)
            | None => ofZ 0
            end = ofZ v).
  { destruct (toIndex idx) as [i|]; [apply Hnth|].
    exists 0%Z. split; [lia | reflexivity]. }
  destruct Hwedge as (v & Hv & Hwedge).
  destruct (ri_ring info); cbv zeta; eexists;
    try (exists (v * ri_mult info)%Z; rewrite Hmult;
         split; [reflexivity|]; cbn [sr_points];
         rewrite Hwedge, Hmul by lia; split; [reflexivity|lia]).
  - exists 0%Z. repeat split; lia.
  - exists 50%Z. repeat split; lia.
  - exists 25%Z. repeat split; lia.
Qed.

End ScoreResults.

(** Binary64 multiplies the wedge values by the multipliers exactly. *)
Lemma float_wedge_products (v m : Z) :
  (0 <= v <= 20)%Z -> (1 <= m <= 3)%Z ->
  (@ofZ float _ v * ofZ m)%js = ofZ (v * m).
Proof.
  intros Hv Hm.
  assert (Hcheck :
    forallb (fun v' =>
      forallb (fun m' =>
        PrimFloat.Leibniz.eqb (@ofZ float _ v' * ofZ m')%js (ofZ (v' * m')))
        (seqZ 1 3)) (seqZ 0 21) = true) by (vm_compute; reflexivity).
  rewrite forallb_forall in Hcheck.
  specialize (Hcheck v). rewrite forallb_forall in Hcheck.
  apply FloatAxioms.Leibniz.eqb_spec, Hcheck.
  - apply list_elem_of_In, elem_of_seqZ. lia.
  - apply list_elem_of_In, elem_of_seqZ. lia.
Qed.

(** X7.  On the board of board.js a dart scores a whole number of points
    between 0 and 60: on binary64, for every hit (NaN and the infinities
    included) and whatever the library computes for [atan2], and over the
    exact numbers. *)
Theorem default_board_points_range :
  (forall (lm : Libm) (x y : float),
     exists result (n : Z),
       @scoreFromBoardXY float _ (FloatMath lm) x y (Some Script.scoringConfig)
       = Some result /\
       sr_points result = ofZ n /\ (0 <= n <= 60)%Z) /\
  (forall x y : R,
     exists result (n : Z),
       scoreFromBoardXY x y (Some Script.scoringConfig) = Some result /\
       sr_points result = IZR n /\ (0 <= n <= 60)%Z).
Proof.
  split.
  - intros lm x y.
    apply (@default_board_points float _ (FloatMath lm) float_wedge_products).
  - intros x y. apply (@default_board_points R RealArith RealMath).
    intros v m _ _. js_real. now rewrite mult_IZR.
Qed.

(** The straight-up hit on the default board, and a configuration without
    its numbers. *)
Lemma scoreFromBoardXY_checks_witness :
  (exists result,
     scoreFromBoardXY 0%R 1%R (Some Script.scoringConfig) = Some result /\
     sr_radius result = R_sqrt.sqrt (0 * 0 + 1 * 1)%R) /\
  scoreFromBoardXY 0%R 1%R
    (Some {| segments := 20%R; wedgeAngle := VNumber 1%R;
             startAngle := VNumber 0%R; direction := "cw";
             angleOffset := VUndefined; numbers := None;
             ringRatios := Some Board.ringRatios; ringEpsN := VUndefined;
             points := None; boardRadius := VUndefined |})
  = Some (missResult 0%R 0%R).
Proof.
  split.
  - destruct (scoreFromBoardXY_checks 0%R 1%R Script.scoringConfig)
      as (Hok & _ & _).
    apply Hok. apply scoringConfig_valid.
  - match goal with
    | |- scoreFromBoardXY _ _ (Some ?cfg) = _ =>
        destruct (scoreFromBoardXY_checks 0%R 1%R cfg) as (_ & Hbad & _)
    end.
    apply Hbad. intros ((ns & Hns & _) & _). discriminate Hns.
Defined.

(** ** script_helpers.js: the aim disc *)

Import Aim.

Lemma float_is_nan_spec (t : float) :
  PrimFloat.is_nan t = false -> Prim2SF t <> S754_nan.
Proof.
  unfold PrimFloat.is_nan. rewrite FloatAxioms.eqb_spec.
  intros Hnan Ht. rewrite Ht in Hnan. discriminate Hnan.
Qed.

(** A binary64 value that is not NaN and neither above nor below 0 is a
    zero. *)
Lemma float_zero_of_not_lt (t : float) :
  PrimFloat.is_nan t = false ->
  PrimFloat.ltb 0 t = false -> PrimFloat.ltb t 0 = false ->
  exists s, Prim2SF t = S754_zero s.
Proof.
  intros Hnan. apply float_is_nan_spec in Hnan. revert Hnan.
  rewrite !ltb_spec. change (Prim2SF 0) with (S754_zero false).
  destruct (Prim2SF t) as [s|s| |s m e]; intros Hnan H0t Ht0;
    try (destruct s; discriminate); [eauto | contradiction].
Qed.

Lemma float_add_zero (t : float) (s : bool) :
  Prim2SF t = S754_zero s -> (0 + t)%float = 0%float.
Proof.
  intros Ht. rewrite <- (SF2Prim_Prim2SF (0 + t)), add_spec, Ht.
  now destruct s.
Qed.

Lemma clamp01_binary64 (t : float) :
  PrimFloat.is_nan t = false ->
  PrimFloat.leb 0 (clamp01 t) = true /\ PrimFloat.leb (clamp01 t) 1 = true.
Proof.
  intros Hnan. unfold clamp01. cbn [max min ofZ FloatArith].
  change (float_ofZ 0) with 0%float. change (float_ofZ 1) with 1%float.
  assert (Hm : exists m, float_min 1 t = m /\ PrimFloat.is_nan m = false /\
                         PrimFloat.leb m 1 = true /\
                         (m = 1%float \/ m = t)).
  { unfold float_min. change (PrimFloat.is_nan 1) with false. rewrite Hnan.
    change (PrimFloat.is_zero 1) with false.
    destruct (PrimFloat.ltb 1 t) eqn:H1t; [eexists; repeat split; auto|].
    destruct (PrimFloat.ltb t 1) eqn:Ht1; [|eexists; repeat split; auto].
    exists t. repeat split; auto using float_ltb_leb. }
  destruct Hm as (m & -> & Hmnan & Hm1 & Hm).
  unfold float_max. change (PrimFloat.is_nan 0) with false. rewrite Hmnan.
  change (PrimFloat.is_zero 0) with true.
  destruct (PrimFloat.ltb 0 m) eqn:H0m; [auto using float_ltb_leb|].
  destruct (PrimFloat.ltb m 0) eqn:Hm0; [split; reflexivity|].
  destruct (float_zero_of_not_lt m Hmnan H0m Hm0) as [s Hs].
  rewrite (float_add_zero m s Hs). split; reflexivity.
Qed.

(** X8.  [clamp01] clamps to [[0, 1]]: over the exact numbers the result
    lies in the interval and a value of the interval is returned as it is;
    on binary64 the result lies in the interval for every argument that is
    not NaN, and NaN is returned as NaN. *)
Theorem clamp01_range :
  (forall t : R,
     (0 <= clamp01 t <= 1)%R /\ ((0 <= t <= 1)%R -> clamp01 t = t)) /\
  (forall t : float,
     PrimFloat.is_nan t = false ->
     PrimFloat.leb 0 (clamp01 t) = true /\
     PrimFloat.leb (clamp01 t) 1 = true) /\
  (forall t : float,
     PrimFloat.is_nan t = true -> PrimFloat.is_nan (clamp01 t) = true).
Proof.
  split; [|split].
  - intros t. unfold clamp01. js_real. unfold Rmax, Rmin.
    split; [|intros Ht];
      destruct (Rle_dec 1 t); destruct (Rle_dec 0 _); lra.
  - apply clamp01_binary64.
  - intros t Hnan. unfold clamp01. cbn [max min ofZ FloatArith].
    unfold float_min.
    change (PrimFloat.is_nan (float_ofZ 1)) with false. rewrite Hnan.
    unfold float_max.
    change (PrimFloat.is_nan (float_ofZ 0)) with false. now rewrite Hnan.
Qed.

Lemma clamp01_range_witness :
  (@clamp01 R _ (1 / 2)%R = (1 / 2)%R) /\
  (PrimFloat.leb 0 (clamp01 7%float) = true /\
   PrimFloat.leb (clamp01 7%float) 1 = true) /\
  PrimFloat.is_nan (clamp01 PrimFloat.nan) = true.
Proof.
  destruct clamp01_range as (Hreal & Hfloat & Hnan).
  split; [|split].
  - apply (Hreal (1 / 2)%R). lra.
  - apply (Hfloat 7%float). reflexivity.
  - apply (Hnan PrimFloat.nan). reflexivity.
Defined.

Lemma clamp01_real (t : R) :
  (0 <= clamp01 t <= 1)%R /\
  ((1 <= t)%R -> clamp01 t = 1%R) /\
  ((t <= 0)%R -> clamp01 t = 0%R) /\
  ((0 <= t <= 1)%R -> clamp01 t = t).
Proof.
  unfold clamp01. js_real. unfold Rmax, Rmin.
  repeat split; intros;
    destruct (Rle_dec 1 t); destruct (Rle_dec 0 _); lra.
Qed.

(** X9.  Over the exact numbers, one frame of [update] on a disc that is
    enabled and held advances the hold time by [delta] and sets the radius
    to the linear shrink from [maxRadius] to [minRadius] over [shrinkTime]:
    the radius stays between the two, is [maxRadius] until the hold time is
    positive and [minRadius] once it reaches [shrinkTime]; the centre does
    not move. *)
Theorem update_holding_shrinks
  (p : AimParams R) (delta : R) (state : AimState R) :
  enabled state = true -> holding state = true ->
  (minRadius p <= maxRadius p)%R -> (0 < shrinkTime p)%R ->
  let state' := update p delta state in
  let held := (holdTime state + delta)%R in
  holdTime state' = held /\
  time state' = (time state + delta)%R /\
  centerX state' = centerX state /\ centerY state' = centerY state /\
  enabled state' = true /\ holding state' = true /\
  (minRadius p <= radius state' <= maxRadius p)%R /\
  ((held <= 0)%R -> radius state' = maxRadius p) /\
  ((shrinkTime p <= held)%R -> radius state' = minRadius p) /\
  ((0 <= held <= shrinkTime p)%R ->
   radius state' =
     (maxRadius p - (maxRadius p - minRadius p) * (held / shrinkTime p))%R).
Proof.
  intros Hen Hhold Hmm Hst state' held.
  subst state'. unfold update. rewrite Hen, Hhold. cbn [negb].
  cbn [holdTime time centerX centerY enabled holding radius].
  js_real. fold held.
  destruct (clamp01_real (held / shrinkTime p)) as (Hq & Hone & Hzero & Hmid).
  set (q := clamp01 (held / shrinkTime p)%R) in *.
  assert (Hdiv : forall c : R, (held / shrinkTime p * shrinkTime p = held)%R)
    by (intros _; field; lra).
  specialize (Hdiv 0%R).
  do 6 (split; [reflexivity|]).
  split; [split; nra|].
  set (d := (held / shrinkTime p)%R) in *.
  split; [|split]; intros Hheld.
  - rewrite Hzero; [lra | nra].
  - rewrite Hone; [lra | nra].
  - rewrite Hmid; [lra | split; nra].
Qed.

(** Held for half the shrink time with the parameters of script.js. *)
Lemma update_holding_shrinks_witness :
  radius (update (@Script.aimParams R _) (5 / 8)%R
            {| enabled := true; time := 3%R; holding := true;
               holdTime := 0%R; centerX := 0%R; centerY := 0%R;
               radius := (3 / 4)%R |})
  = (3 / 4 - (3 / 4 - 6 / 100) * (5 / 8 / (125 / 100)))%R.
Proof.
  assert (Hmm : (minRadius (@Script.aimParams R _)
                 <= maxRadius (@Script.aimParams R _))%R)
    by (cbn; js_real; lra).
  assert (Hst : (0 < shrinkTime (@Script.aimParams R _))%R)
    by (cbn; js_real; lra).
  destruct (update_holding_shrinks Script.aimParams (5 / 8)%R
    {| enabled := true; time := 3%R; holding := true;
       holdTime := 0%R; centerX := 0%R; centerY := 0%R;
       radius := (3 / 4)%R |} eq_refl eq_refl Hmm Hst)
    as (_ & _ & _ & _ & _ & _ & _ & _ & _ & Hlinear).
  rewrite Hlinear; cbn; js_real; lra.
Defined.

(** The squared length of the clamped centre. *)
Lemma clampCenterForRadius_real (p : AimParams R) (x y r : R) :
  let limit := Rmax (1 / 1000) (boardRadius p - r - 2 / 100) in
  let c := clampCenterForRadius p x y r in
  (fst c * fst c + snd c * snd c <= limit * limit)%R /\
  ((x * x + y * y <= limit * limit)%R -> c = (x, y)) /\
  exists s : R, (0 < s <= 1)%R /\ c = (x * s, y * s)%R.
Proof.
  intros limit c. subst c. unfold clampCenterForRadius. js_real.
  fold limit.
  assert (Hlimit : (0 < limit)%R).
  { unfold limit, Rmax. destruct (Rle_dec _ _); lra. }
  set (n := (x * x + y * y)%R).
  assert (Hn : (0 <= n)%R) by (unfold n; nra).
  pose proof (sqrt_sqrt n Hn) as Hsq.
  pose proof (sqrt_pos n) as Hpos.
  set (len := R_sqrt.sqrt n) in *.
  destruct (Rltb limit len) eqn:Hcmp.
  - apply Rltb_true in Hcmp. cbn [fst snd].
    assert (Hs : (limit / len * len = limit)%R) by (field; lra).
    set (s := (limit / len)%R) in *.
    assert (Hs1 : (0 < s <= 1)%R).
    { split.
      - unfold s. apply Rdiv_lt_0_compat; lra.
      - apply (Rmult_le_reg_r len); [lra|]. rewrite Hs. lra. }
    assert (Hsum : (x * s * (x * s) + y * s * (y * s) = limit * limit)%R).
    { transitivity (s * s * (len * len))%R.
      - rewrite Hsq. unfold n. ring.
      - rewrite <- Hs. ring. }
    split; [lra|]. split; [intros Hle; nra|].
    exists s. split; [exact Hs1 | reflexivity].
  - apply Rltb_false in Hcmp. cbn [fst snd]. fold n.
    split; [nra|]. split; [reflexivity|].
    exists 1%R. split; [lra|]. now rewrite !Rmult_1_r.
Qed.

(** The same, as distances. *)
Lemma clampCenterForRadius_dist (p : AimParams R) (x y r : R) :
  let limit := Rmax (1 / 1000) (boardRadius p - r - 2 / 100) in
  let c := clampCenterForRadius p x y r in
  (R_sqrt.sqrt (fst c * fst c + snd c * snd c) <= limit)%R /\
  ((R_sqrt.sqrt (x * x + y * y) <= limit)%R -> c = (x, y)) /\
  exists s : R, (0 < s <= 1)%R /\ c = (x * s, y * s)%R.
Proof.
  intros limit c.
  destruct (clampCenterForRadius_real p x y r) as (Hin & Hfix & Hs).
  fold limit in Hin, Hfix. fold c in Hin, Hfix, Hs.
  assert (Hlimit : (0 < limit)%R).
  { unfold limit, Rmax. destruct (Rle_dec _ _); lra. }
  split; [|split; [|exact Hs]].
  - rewrite <- (sqrt_square limit) by lra. apply sqrt_le_1_alt. exact Hin.
  - intros Hle. apply Hfix.
    assert (Hn : (0 <= x * x + y * y)%R) by nra.
    rewrite <- (sqrt_sqrt _ Hn).
    pose proof (sqrt_pos (x * x + y * y)). nra.
Qed.

(** X10.  Over the exact numbers, [clampCenterForRadius] keeps the centre
    of the disc within [limit = max(0.001, boardRadius - r - 0.02)] of the
    centre of the board: the clamped point is at most [limit] away from the
    origin, a point that already is stays where it is, and any other point
    is pulled toward the origin along its own direction. *)
Theorem clampCenterForRadius_within_limit (p : AimParams R) (x y r : R) :
  let limit := Rmax (1 / 1000) (boardRadius p - r - 2 / 100) in
  let c := clampCenterForRadius p x y r in
  (R_sqrt.sqrt (fst c * fst c + snd c * snd c) <= limit)%R /\
  ((R_sqrt.sqrt (x * x + y * y) <= limit)%R -> c = (x, y)) /\
  exists s : R, (0 < s <= 1)%R /\ c = (x * s, y * s)%R.
Proof. apply clampCenterForRadius_dist. Qed.

(** A point far to the right, clamped onto the circle of radius 1.28. *)
Lemma clampCenterForRadius_within_limit_witness :
  clampCenterForRadius (@Script.aimParams R _) 1%R 0%R (3 / 4)%R = (1, 0)%R.
Proof.
  apply (clampCenterForRadius_within_limit Script.aimParams 1%R 0%R (3 / 4)%R).
  replace (1 * 1 + 0 * 0)%R with 1%R by ring. rewrite sqrt_1.
  cbn [Script.aimParams createParams numberOr boardRadius
       Script.dartboardRadius Board.boardRadius default]. js_real.
  unfold Rmax. destruct (Rle_dec _ _); lra.
Defined.

(** ** script.js: the bookkeeping of the round *)

Section Bookkeeping.
Context {num : Type} `{JsMath num}.
Import Script Invariant.
Local Open Scope js_scope.

Lemma registerThrowScore_history (s : option (ScoreLike num)) (g : Game num) :
  historyInv g -> historyInv (registerThrowScore s g).
Proof.
  intros [Hlen Hsum]. unfold registerThrowScore, historyInv.
  destruct (_ >=? _)%Z; cbn;
    rewrite length_app, map_app, fold_left_app, <- Hsum; cbn;
    split; try reflexivity; lia.
Qed.

Lemma historyInv_handle (e : Event num) (g : Game num) :
  historyInv g -> historyInv (handle e g).
Proof.
  intros Hinv. destruct e as [| | |p busy|p busy r1 r2|p|delta busy];
    cbn [handle].
  - unfold startButtonClick. destruct (gameStarted g); [exact Hinv|].
    split; reflexivity.
  - split; reflexivity.
  - unfold syncBoardToWall. destruct (aimDisc g); exact Hinv.
  - unfold onAimPointerDown.
    destruct (gameStarted g), (roundActive g), (aimDisc g), busy,
      (isHoldingAim g); exact Hinv.
  - unfold onAimPointerUp.
    destruct (gameStarted g); [|exact Hinv]. cbn [negb].
    destruct (roundActive g); [|exact Hinv]. cbn [negb].
    destruct (aimDisc g) as [disc|]; [|exact Hinv].
    destruct (isHoldingAim g); [|exact Hinv]. cbn [negb].
    destruct (pointerId_is p (holdPointerId g)); [|exact Hinv]. cbn [negb].
    destruct busy; [exact Hinv|].
    destruct (Aim.releaseAndSampleHit aimParams r1 r2 disc) as [shot disc'].
    apply registerThrowScore_history. exact Hinv.
  - unfold onAimPointerCancel.
    destruct (isHoldingAim g), (pointerId_is p (holdPointerId g)); exact Hinv.
  - exact Hinv.
Qed.

(** X11.  In every game state that the event handlers can reach, for
    every number carrier, the history has exactly [dartsThrown] entries and
    [totalScore] is the sum of their points, added from 0 in the order of
    the throws. *)
Theorem history_matches_counters (g : Game num) :
  reachable g -> historyInv g.
Proof.
  revert g. apply reachable_ind.
  - split; reflexivity.
  - intros e g. apply historyInv_handle.
Qed.

Lemma registerThrowScore_input (s : option (ScoreLike num)) (g : Game num) :
  gameStarted g = true -> isHoldingAim g = false -> holdPointerId g = None ->
  inputInv (registerThrowScore s g).
Proof.
  intros Hstarted Hhold Hptr. unfold registerThrowScore, inputInv.
  destruct (_ >=? _)%Z; cbn; rewrite Hstarted, Hhold, Hptr;
    repeat split; intros; try discriminate; reflexivity.
Qed.

Lemma inputInv_handle (e : Event num) (g : Game num) :
  inputInv g -> inputInv (handle e g).
Proof.
  intros Hinv. pose proof Hinv as (Hheld & Hfree & Hidle).
  destruct e as [| | |p busy|p busy r1 r2|p|delta busy]; cbn [handle].
  - unfold startButtonClick. destruct (gameStarted g) eqn:Hstarted;
      [exact Hinv|].
    unfold inputInv. cbn.
    destruct (isHoldingAim g) eqn:Hhold.
    + destruct (Hheld eq_refl) as (Habs & _). discriminate Habs.
    + repeat split; intros; try discriminate. now apply Hfree.
  - unfold inputInv. cbn. repeat split; intros; try reflexivity.
    + now apply Hheld.
    + now apply Hheld.
    + now apply Hheld.
    + now apply Hfree.
  - unfold syncBoardToWall. destruct (aimDisc g) eqn:Hdisc; [exact Hinv|].
    unfold inputInv. cbn. repeat split; intros; try discriminate.
    + now apply Hheld.
    + now apply Hheld.
    + now apply Hheld.
    + now apply Hfree.
    + now apply Hidle.
    + now apply Hidle.
    + now apply Hidle.
  - unfold onAimPointerDown.
    destruct (gameStarted g) eqn:Hstarted; [|exact Hinv]. cbn [negb].
    destruct (roundActive g) eqn:Hactive; [|exact Hinv]. cbn [negb].
    destruct (aimDisc g) as [disc|] eqn:Hdisc; [|exact Hinv].
    destruct busy; [exact Hinv|].
    destruct (isHoldingAim g); [exact Hinv|].
    unfold inputInv. cbn. rewrite Hstarted, Hactive, Hdisc. cbn.
    repeat split; intros; discriminate.
  - unfold onAimPointerUp.
    destruct (gameStarted g) eqn:Hstarted; [|exact Hinv]. cbn [negb].
    destruct (roundActive g) eqn:Hactive; [|exact Hinv]. cbn [negb].
    destruct (aimDisc g) as [disc|] eqn:Hdisc; [|exact Hinv].
    destruct (isHoldingAim g); [|exact Hinv]. cbn [negb].
    destruct (pointerId_is p (holdPointerId g)); [|exact Hinv]. cbn [negb].
    destruct busy.
    + unfold inputInv. cbn. rewrite Hstarted.
      repeat split; intros; discriminate.
    + destruct (Aim.releaseAndSampleHit aimParams r1 r2 disc) as [shot disc'].
      apply registerThrowScore_input; [exact Hstarted | reflexivity..].
  - unfold onAimPointerCancel.
    destruct (isHoldingAim g); [|exact Hinv]. cbn [negb].
    destruct (pointerId_is p (holdPointerId g)); [|exact Hinv]. cbn [negb].
    unfold inputInv. cbn. repeat split; intros; try discriminate.
    + now apply Hidle.
    + now apply Hidle.
    + now apply Hidle.
  - unfold animate, inputInv. cbn. repeat split; intros.
    + now apply Hheld.
    + now apply Hheld.
    + destruct (Hheld ltac:(assumption)) as (_ & _ & Hdisc & _).
      destruct (aimDisc g); [discriminate | contradiction].
    + now apply Hheld.
    + now apply Hfree.
    + now apply Hidle.
    + now apply Hidle.
    + now apply Hidle.
Qed.

(** X12.  In every reachable game state, for every number carrier: while
    the input layer holds a pointer the game is started, the round is
    active, the aim disc exists and the pointer id is recorded; while it
    holds none, no pointer id is recorded; and before the start button is
    clicked no dart is counted, the history is empty and the total is 0. *)
Theorem input_layer_is_consistent (g : Game num) :
  reachable g -> inputInv g.
Proof.
  revert g. apply reachable_ind.
  - repeat split; intros; try discriminate; reflexivity.
  - intros e g. apply inputInv_handle.
Qed.

(** A frame leaves everything but the aim disc alone. *)
Lemma run_frames (frames : list (Event num)) (g : Game num) :
  Forall isFrame frames ->
  let g' := run frames g in
  gameStarted g' = gameStarted g /\ roundActive g' = roundActive g /\
  dartsThrown g' = dartsThrown g /\ totalScore g' = totalScore g /\
  throwHistory g' = throwHistory g /\
  isHoldingAim g' = isHoldingAim g /\ holdPointerId g' = holdPointerId g /\
  (aimDisc g <> None -> aimDisc g' <> None).
Proof.
  intros Hframes. revert g.
  induction Hframes as [|e frames He _ IH]; intros g; [now repeat split|].
  destruct e; try contradiction. cbn [run fold_left handle].
  specialize (IH (animate delta busy g)). cbv zeta in IH. unfold run in IH.
  destruct IH as (-> & -> & -> & -> & -> & -> & -> & Hdisc).
  repeat split. intros Hsome. apply Hdisc. unfold animate. cbn.
  destruct (aimDisc g); [discriminate | contradiction].
Qed.

(** X13.  A press, any number of frames and the release of the same
    pointer, with no throw in flight, register exactly one dart: from every
    state in which the game is started, the round is active, the disc
    exists and no pointer is held, the sequence counts one more dart, adds
    one entry to the history and leaves no pointer held. *)
Theorem press_and_release_throws_once
  (g : Game num) (pointerId : nat) (frames : list (Event num))
  (random1 random2 : num) :
  gameStarted g = true -> roundActive g = true -> aimDisc g <> None ->
  isHoldingAim g = false ->
  Forall isFrame frames ->
  let g' := run ([EPointerDown pointerId false] ++ frames
                 ++ [EPointerUp pointerId false random1 random2]) g in
  dartsThrown g' = (dartsThrown g + 1)%Z /\
  length (throwHistory g') = S (length (throwHistory g)) /\
  isHoldingAim g' = false /\ holdPointerId g' = None.
Proof.
  intros Hstarted Hactive Hdisc Hhold Hframes g'. subst g'.
  unfold run. rewrite !fold_left_app. cbn [fold_left handle].
  set (g1 := onAimPointerDown pointerId false g).
  assert (Hg1 : gameStarted g1 = true /\ roundActive g1 = true /\
                aimDisc g1 <> None /\ isHoldingAim g1 = true /\
                holdPointerId g1 = Some pointerId /\
                dartsThrown g1 = dartsThrown g /\
                throwHistory g1 = throwHistory g).
  { subst g1. unfold onAimPointerDown. rewrite Hstarted, Hactive, Hhold.
    destruct (aimDisc g) eqn:Ed; [|contradiction]. cbn. rewrite Ed.
    repeat split; try assumption. discriminate. }
  destruct Hg1 as (Hs1 & Ha1 & Hd1 & Hh1 & Hp1 & Hn1 & Ht1).
  pose proof (run_frames frames g1 Hframes) as Hrun. cbv zeta in Hrun.
  unfold run in Hrun.
  set (g2 := fold_left (fun g e => handle e g) frames g1) in *.
  destruct Hrun as (Hs2 & Ha2 & Hn2 & _ & Ht2 & Hh2 & Hp2 & Hd2).
  specialize (Hd2 Hd1).
  unfold onAimPointerUp. rewrite Hs2, Hs1, Ha2, Ha1, Hh2, Hh1, Hp2, Hp1.
  destruct (aimDisc g2) as [disc|]; [|contradiction]. cbn [negb pointerId_is].
  rewrite Nat.eqb_refl. cbn [negb].
  destruct (Aim.releaseAndSampleHit aimParams random1 random2 disc)
    as [shot disc'].
  unfold registerThrowScore.
  destruct (_ >=? _)%Z; cbn; rewrite length_app, Hn2, Hn1, Ht2, Ht1; cbn;
    repeat split; lia.
Qed.

End Bookkeeping.

(** A first dart over the exact numbers: the board is placed, the start
    button is clicked, a pointer goes down and up. *)
Lemma history_matches_counters_witness :
  Invariant.historyInv
    (Script.run
       [Script.EBoardSynced; Script.EStartClick; Script.EPointerDown 1 false;
        Script.EPointerUp 1 false (1 / 2)%R (1 / 4)%R]
       (@Script.initialGame R _)).
Proof.
  apply (@history_matches_counters R RealArith RealMath).
  eexists. reflexivity.
Defined.

(** A pointer that is held, on binary64 with a library that answers 0. *)
Lemma input_layer_is_consistent_witness :
  let lm := {| lm_atan2 := fun _ _ => 0%float; lm_cos := fun _ => 1%float;
               lm_sin := fun _ => 0%float;
               lm_hypot := fun _ _ => 0%float |} in
  Invariant.inputInv
    (@Script.run float _ (FloatMath lm)
       [Script.EBoardSynced; Script.EStartClick; Script.EPointerDown 1 false]
       Script.initialGame).
Proof.
  intros lm.
  apply (@input_layer_is_consistent float FloatArith (FloatMath lm)).
  eexists. reflexivity.
Defined.

(** A press, two frames and the release, on binary64. *)
Lemma press_and_release_throws_once_witness :
  let lm := {| lm_atan2 := fun _ _ => 0%float; lm_cos := fun _ => 1%float;
               lm_sin := fun _ => 0%float;
               lm_hypot := fun _ _ => 0%float |} in
  let g := @Script.run float _ (FloatMath lm)
             [Script.EBoardSynced; Script.EStartClick] Script.initialGame in
  let g' := @Script.run float _ (FloatMath lm)
              ([Script.EPointerDown 1 false]
               ++ [Script.EFrame 0.015625%float false;
                   Script.EFrame 0.015625%float false]
               ++ [Script.EPointerUp 1 false 0.5%float 0.25%float]) g in
  Script.dartsThrown g' = (Script.dartsThrown g + 1)%Z /\
  length (Script.throwHistory g') = S (length (Script.throwHistory g)) /\
  Script.isHoldingAim g' = false /\ Script.holdPointerId g' = None.
Proof.
  intros lm g.
  apply (@press_and_release_throws_once float FloatArith (FloatMath lm) g 1%nat
           [Script.EFrame 0.015625%float false; Script.EFrame 0.015625%float false]
           0.5%float 0.25%float).
  - vm_compute. reflexivity.
  - vm_compute. reflexivity.
  - vm_compute. discriminate.
  - vm_compute. reflexivity.
  - repeat constructor.
Defined.

(** ** script.js: the total of a round *)

Section ScoreBound.
Context {num : Type} `{JsMath num}.
Import Script Spec Invariant.
Local Open Scope js_scope.

(** The carrier computes the products and the sums of a round exactly. *)
Hypothesis Hmul : forall v m : Z, (0 <= v <= 20)%Z -> (1 <= m <= 3)%Z ->
                                  ofZ v * ofZ m = ofZ (v * m).
Hypothesis Hadd : forall a b : Z, (0 <= a <= 540)%Z -> (0 <= b <= 60)%Z ->
                                  ofZ a + ofZ b = ofZ (a + b).

Lemma registerThrowScore_total (hitX hitY : num) (g : Game num) :
  roundInv g -> roundActive g = true -> scoreInv g ->
  scoreInv (registerThrowScore (scoreHitAtBoardLocalXY hitX hitY) g).
Proof.
  intros [Hrange Hleft] Hactive (n & Hn & Hbound). specialize (Hleft Hactive).
  unfold MAX_DARTS_PER_ROUND in *.
  unfold scoreHitAtBoardLocalXY.
  destruct (default_board_points Hmul hitX hitY) as (result & k & -> & Hk & Hkr).
  unfold registerThrowScore, scoreInv.
  exists (n + k)%Z.
  destruct (_ >=? _)%Z; cbn; rewrite Hn, Hk, Hadd by lia; split;
    try reflexivity; lia.
Qed.

Lemma scoreInv_handle (e : Event num) (g : Game num) :
  roundInv g -> scoreInv g -> scoreInv (handle e g).
Proof.
  intros Hround Hinv. destruct e as [| | |p busy|p busy r1 r2|p|delta busy];
    cbn [handle].
  - unfold startButtonClick. destruct (gameStarted g); [exact Hinv|].
    exists 0%Z. split; [reflexivity | cbn; lia].
  - exists 0%Z. split; [reflexivity | cbn; lia].
  - unfold syncBoardToWall. destruct (aimDisc g); exact Hinv.
  - unfold onAimPointerDown.
    destruct (gameStarted g), (roundActive g), (aimDisc g), busy,
      (isHoldingAim g); exact Hinv.
  - unfold onAimPointerUp.
    destruct (gameStarted g); [|exact Hinv]. cbn [negb].
    destruct (roundActive g) eqn:Hactive; [|exact Hinv]. cbn [negb].
    destruct (aimDisc g) as [disc|]; [|exact Hinv].
    destruct (isHoldingAim g); [|exact Hinv]. cbn [negb].
    destruct (pointerId_is p (holdPointerId g)); [|exact Hinv]. cbn [negb].
    destruct busy; [exact Hinv|].
    destruct (Aim.releaseAndSampleHit aimParams r1 r2 disc) as [shot disc'].
    apply registerThrowScore_total; [exact Hround | exact Hactive | exact Hinv].
  - unfold onAimPointerCancel.
    destruct (isHoldingAim g), (pointerId_is p (holdPointerId g)); exact Hinv.
  - exact Hinv.
Qed.

Lemma reachable_total (g : Game num) :
  reachable g -> scoreInv g /\ (dartsThrown g <= 10)%Z.
Proof.
  intros Hreach.
  assert (Hboth : roundInv g /\ scoreInv g).
  { revert g Hreach. apply reachable_ind.
    - split.
      + unfold roundInv, MAX_DARTS_PER_ROUND. cbn. split; [lia | discriminate].
      + exists 0%Z. split; [reflexivity | cbn; lia].
    - intros e g [Hround Hscore]. split.
      + now apply roundInv_handle.
      + now apply scoreInv_handle. }
  destruct Hboth as [[Hrange _] Hscore]. unfold MAX_DARTS_PER_ROUND in Hrange.
  split; [exact Hscore | lia].
Qed.

End ScoreBound.

(** Binary64 adds the points of a round exactly. *)
Lemma float_round_sums (a b : Z) :
  (0 <= a <= 540)%Z -> (0 <= b <= 60)%Z ->
  (@ofZ float _ a + ofZ b)%js = ofZ (a + b).
Proof.
  intros Ha Hb.
  assert (Hcheck :
    forallb (fun a' =>
      forallb (fun b' =>
        PrimFloat.Leibniz.eqb (@ofZ float _ a' + ofZ b')%js (ofZ (a' + b')))
        (seqZ 0 61)) (seqZ 0 541) = true) by (vm_compute; reflexivity).
  rewrite forallb_forall in Hcheck.
  specialize (Hcheck a). rewrite forallb_forall in Hcheck.
  apply FloatAxioms.Leibniz.eqb_spec, Hcheck.
  - apply list_elem_of_In, elem_of_seqZ. lia.
  - apply list_elem_of_In, elem_of_seqZ. lia.
Qed.

(** X14.  In every reachable game state the total is a whole number of
    points between 0 and 60 times the number of darts thrown, which is at
    most 10: so the total of a round is at most 600.  This holds on
    binary64, whatever the library computes for the trigonometric functions
    and whatever numbers (NaN included) the events carry, and over the
    exact numbers. *)
Theorem total_score_is_bounded :
  (forall (lm : Libm) (g : Script.Game float),
     @Script.reachable float _ (FloatMath lm) g ->
     Invariant.scoreInv g /\ (Script.dartsThrown g <= 10)%Z) /\
  (forall g : Script.Game R,
     Script.reachable g ->
     Invariant.scoreInv g /\ (Script.dartsThrown g <= 10)%Z).
Proof.
  split.
  - intros lm g.
    apply (@reachable_total float _ (FloatMath lm)
             float_wedge_products float_round_sums).
  - intros g. apply (@reachable_total R RealArith RealMath).
    + intros v m _ _. js_real. now rewrite mult_IZR.
    + intros a b _ _. js_real. now rewrite plus_IZR.
Qed.

(** A press and a release on binary64, with a library that answers 0, and
    over the exact numbers. *)
Lemma total_score_is_bounded_witness :
  let lm := {| lm_atan2 := fun _ _ => 0%float; lm_cos := fun _ => 1%float;
               lm_sin := fun _ => 0%float;
               lm_hypot := fun _ _ => 0%float |} in
  let events (num : Type) (u1 u2 : num) :=
    [Script.EBoardSynced; Script.EStartClick; Script.EPointerDown 1 false;
     Script.EPointerUp 1 false u1 u2] in
  (Invariant.scoreInv
     (@Script.run float _ (FloatMath lm) (events float 0.5%float 0.25%float)
        Script.initialGame) /\
   (Script.dartsThrown
      (@Script.run float _ (FloatMath lm) (events float 0.5%float 0.25%float)
         Script.initialGame) <= 10)%Z) /\
  (Invariant.scoreInv
     (Script.run (events R (1 / 2)%R (1 / 4)%R) Script.initialGame) /\
   (Script.dartsThrown
      (Script.run (events R (1 / 2)%R (1 / 4)%R) Script.initialGame) <= 10)%Z).
Proof.
  intros lm events.
  destruct total_score_is_bounded as [Hfloat Hreal].
  split.
  - apply (Hfloat lm). eexists. reflexivity.
  - apply Hreal. eexists. reflexivity.
Defined.

(** ** script.js and script_helpers.js: the aim disc stays on the board *)

Section DiscOnBoard.
Import Script Invariant Aim.
Local Open Scope R_scope.

(** The parameters script.js gives the disc. *)
Lemma aimParams_real :
  boardRadius (@aimParams R _) = 205 / 100 /\
  maxRadius (@aimParams R _) = 75 / 100 /\
  minRadius (@aimParams R _) = 6 / 100 /\
  shrinkTime (@aimParams R _) = 125 / 100 /\
  centreLimit = 128 / 100.
Proof.
  unfold centreLimit. cbn. js_real. repeat split; lra.
Qed.

Lemma discOk_intro (disc : AimState R) :
  6 / 100 <= radius disc <= 75 / 100 ->
  R_sqrt.sqrt (centerX disc * centerX disc + centerY disc * centerY disc)
    <= 128 / 100 ->
  discOk disc.
Proof.
  destruct aimParams_real as (_ & Hmax & Hmin & _ & Hlimit).
  unfold discOk. rewrite Hmax, Hmin, Hlimit. auto.
Qed.

Lemma discOk_elim (disc : AimState R) :
  discOk disc ->
  6 / 100 <= radius disc <= 75 / 100 /\
  R_sqrt.sqrt (centerX disc * centerX disc + centerY disc * centerY disc)
    <= 128 / 100.
Proof.
  destruct aimParams_real as (_ & Hmax & Hmin & _ & Hlimit).
  unfold discOk. rewrite Hmax, Hmin, Hlimit. auto.
Qed.

(** Resetting the radius to [maxRadius] keeps the disc in order. *)
Lemma discOk_reset (disc disc' : AimState R) :
  discOk disc ->
  radius disc' = maxRadius aimParams ->
  centerX disc' = centerX disc -> centerY disc' = centerY disc ->
  discOk disc'.
Proof.
  intros Hok Hr Hx Hy. apply discOk_elim in Hok as [_ Hc].
  destruct aimParams_real as (_ & Hmax & _).
  apply discOk_intro; rewrite ?Hr, ?Hx, ?Hy, ?Hmax; [lra | exact Hc].
Qed.

Lemma discOk_setEnabled (b : bool) (disc : AimState R) :
  discOk disc -> discOk (setEnabled aimParams b disc).
Proof.
  intros Hok. destruct b; [exact Hok|].
  now apply (discOk_reset disc).
Qed.

Lemma discOk_update (delta : R) (disc : AimState R) :
  discOk disc -> discOk (update aimParams delta disc).
Proof.
  intros Hok. pose proof (discOk_elim _ Hok) as [Hr Hc].
  destruct aimParams_real as (Hboard & Hmax & Hmin & Hshrink & _).
  unfold update. destruct (enabled disc); [|exact Hok]. cbn [negb].
  destruct (holding disc); cbn [negb].
  - apply discOk_intro;
      cbn [radius centerX centerY]; [|exact Hc].
    rewrite Hmax, Hmin. js_real.
    destruct (clamp01_real ((holdTime disc + delta) / shrinkTime aimParams))
      as (Hq & _).
    set (q := clamp01 _) in *. nra.
  - apply discOk_intro; cbn [radius centerX centerY]; [rewrite Hmax; lra|].
    match goal with
    | |- context [clampCenterForRadius ?p ?x ?y ?r] =>
        destruct (clampCenterForRadius_dist p x y r) as (Hin & _);
        set (c := clampCenterForRadius p x y r) in *
    end.
    rewrite Hboard, Hmax in Hin. unfold Rmax in Hin.
    destruct (Rle_dec _ _) in Hin; lra.
Qed.

Lemma discInv_withAimDisc (f : AimState R -> AimState R) (g : Game R) :
  (forall disc, discOk disc -> discOk (f disc)) ->
  discInv g -> discInv (withAimDisc f g).
Proof.
  intros Hf Hinv disc. cbn.
  destruct (aimDisc g) as [disc0|] eqn:Hdisc; cbn; [|discriminate].
  intros [= <-]. apply Hf, (Hinv disc0 Hdisc).
Qed.

Lemma discOk_cancelHold (disc : AimState R) :
  discOk disc -> discOk (cancelHold aimParams disc).
Proof. intros Hok. now apply (discOk_reset disc). Qed.

Lemma discOk_beginHold (disc : AimState R) :
  discOk disc -> discOk (beginHold aimParams disc).
Proof. intros Hok. now apply (discOk_reset disc). Qed.

Lemma discOk_release (random1 random2 : R) (disc : AimState R) :
  discOk disc ->
  discOk (snd (releaseAndSampleHit aimParams random1 random2 disc)).
Proof. intros Hok. now apply (discOk_reset disc). Qed.

Lemma discInv_registerThrowScore (s : option (ScoreLike R)) (g : Game R) :
  discInv g -> discInv (registerThrowScore s g).
Proof.
  intros Hinv. unfold registerThrowScore.
  destruct (_ >=? _)%Z; [|exact Hinv].
  unfold endRound. apply discInv_withAimDisc; [|exact Hinv].
  intros disc Hok. now apply discOk_cancelHold, discOk_setEnabled.
Qed.

Lemma discInv_handle (e : Event R) (g : Game R) :
  discInv g -> discInv (handle e g).
Proof.
  intros Hinv. destruct e as [| | |p busy|p busy r1 r2|p|delta busy];
    cbn [handle].
  - unfold startButtonClick. destruct (gameStarted g); [exact Hinv|].
    apply discInv_withAimDisc; [apply discOk_setEnabled | exact Hinv].
  - exact Hinv.
  - unfold syncBoardToWall. destruct (aimDisc g); [exact Hinv|].
    intros disc. cbn. intros [= <-].
    destruct aimParams_real as (_ & Hmax & _).
    apply discOk_intro; cbn [radius centerX centerY initialState];
      [rewrite Hmax; lra|].
    js_real. replace (0 * 0 + 0 * 0) with 0 by ring. rewrite sqrt_0. lra.
  - unfold onAimPointerDown.
    destruct (gameStarted g), (roundActive g), (aimDisc g) eqn:Hdisc, busy,
      (isHoldingAim g); try exact Hinv.
    apply discInv_withAimDisc; [apply discOk_beginHold|].
    intros disc. cbn. apply Hinv.
  - unfold onAimPointerUp.
    destruct (gameStarted g); [|exact Hinv]. cbn [negb].
    destruct (roundActive g); [|exact Hinv]. cbn [negb].
    destruct (aimDisc g) as [disc|] eqn:Hdisc; [|exact Hinv].
    destruct (isHoldingAim g); [|exact Hinv]. cbn [negb].
    destruct (pointerId_is p (holdPointerId g)); [|exact Hinv]. cbn [negb].
    destruct busy.
    + apply discInv_withAimDisc; [apply discOk_cancelHold|].
      intros disc0. cbn. apply Hinv.
    + pose proof (discOk_release r1 r2 disc (Hinv disc Hdisc)) as Hrel.
      destruct (releaseAndSampleHit aimParams r1 r2 disc) as [shot disc'].
      cbn [snd] in Hrel.
      apply discInv_registerThrowScore.
      intros disc0. cbn. rewrite Hdisc. cbn. intros [= <-].
      exact (discOk_setEnabled false _ Hrel).
  - unfold onAimPointerCancel.
    destruct (isHoldingAim g), (pointerId_is p (holdPointerId g));
      try exact Hinv.
    apply discInv_withAimDisc; [apply discOk_cancelHold|].
    intros disc. cbn. apply Hinv.
  - unfold animate. apply discInv_withAimDisc; [|exact Hinv].
    intros disc Hok. apply discOk_update.
    destruct (isHoldingAim g); [exact Hok|]. now apply discOk_setEnabled.
Qed.

Lemma reachable_discInv (g : Game R) : reachable g -> discInv g.
Proof.
  revert g. apply reachable_ind.
  - intros disc. discriminate.
  - intros e g. apply discInv_handle.
Qed.

(** X15.  Over the exact numbers, in every reachable game state the aim
    disc, once created, has a radius between [minRadius = 0.06] and
    [maxRadius = 0.75] and a centre at most
    [boardRadius - maxRadius - 0.02 = 1.28] from the centre of the board. *)
Theorem aim_disc_stays_on_board (g : Game R) :
  reachable g -> discInv g.
Proof. apply reachable_discInv. Qed.

(** The sampled hit is at most [centreLimit + maxRadius = 2.03] from the
    centre of the board. *)
Lemma sampled_hit_distance (random1 random2 : R) (disc : AimState R) :
  discOk disc -> 0 <= random2 < 1 ->
  let shot := fst (releaseAndSampleHit aimParams random1 random2 disc) in
  R_sqrt.sqrt (hitX shot * hitX shot + hitY shot * hitY shot) <= 203 / 100.
Proof.
  intros Hok Hu shot. apply discOk_elim in Hok as [Hr Hc].
  subst shot. unfold releaseAndSampleHit. cbn [fst hitX hitY]. js_real.
  set (angle := random1 * Rtrigo1.PI * 2).
  set (cx := centerX disc) in *. set (cy := centerY disc) in *.
  assert (Hn : 0 <= cx * cx + cy * cy) by nra.
  pose proof (sqrt_sqrt _ Hn) as HL. pose proof (sqrt_pos (cx * cx + cy * cy)) as HL0.
  set (L := R_sqrt.sqrt (cx * cx + cy * cy)) in *.
  assert (Hsu : 0 <= R_sqrt.sqrt random2 <= 1).
  { split; [apply sqrt_pos|]. rewrite <- sqrt_1. apply sqrt_le_1_alt. lra. }
  set (su := R_sqrt.sqrt random2) in *.
  set (rho := su * radius disc).
  assert (Hrho : 0 <= rho <= 75 / 100) by (unfold rho; nra).
  pose proof (sin2_cos2 angle) as Htrig. unfold Rsqr in Htrig.
  set (c := Rtrigo_def.cos angle) in *. set (s := Rtrigo_def.sin angle) in *.
  assert (Hdot : cx * c + cy * s <= L).
  { assert (Hsq : (cx * c + cy * s) * (cx * c + cy * s) <= L * L).
    { rewrite HL.
      assert (Hid : (cx * c + cy * s) * (cx * c + cy * s)
                    + (cx * s - cy * c) * (cx * s - cy * c)
                    = (cx * cx + cy * cy) * (s * s + c * c)) by ring.
      rewrite Htrig in Hid.
      pose proof (Rle_0_sqr (cx * s - cy * c)) as Hsqr. unfold Rsqr in Hsqr.
      lra. }
    nra. }
  assert (Hsum : (cx + c * rho) * (cx + c * rho) + (cy + s * rho) * (cy + s * rho)
                 <= (L + rho) * (L + rho)).
  { replace ((cx + c * rho) * (cx + c * rho) + (cy + s * rho) * (cy + s * rho))
      with (cx * cx + cy * cy + 2 * rho * (cx * c + cy * s)
            + rho * rho * (s * s + c * c)) by ring.
    rewrite Htrig, <- HL. nra. }
  apply (Rle_trans _ (L + rho)); [|lra].
  rewrite <- (sqrt_square (L + rho)) by lra.
  apply sqrt_le_1_alt. exact Hsum.
Qed.

(** A hit at most 2.03 from the centre is on the board of board.js. *)
Lemma near_hit_not_miss (hx hy : R) :
  R_sqrt.sqrt (hx * hx + hy * hy) <= 203 / 100 ->
  exists s : ScoreLike R,
    scoreHitAtBoardLocalXY hx hy = Some s /\ ring s <> Some MISS.
Proof.
  intros Hdist. unfold scoreHitAtBoardLocalXY.
  destruct (scoreFromBoardXY_scored hx hy Script.scoringConfig
              Board.DARTBOARD_NUMBERS eq_refl eq_refl)
    as (info & idx & Hinfo & _ & ->); try reflexivity; [discriminate|].
  eexists. split; [reflexivity|].
  assert (Hring : ri_ring info <> MISS).
  { revert Hinfo. unfold ringFromRadiusRatio, hitRNorm, hitRadius, getRingEpsN.
    cbn [ringRatios Script.scoringConfig Board.scoring Scoring.boardRadius
         ringEpsN Script.dartboardRadius Board.boardRadius default
         Board.ringRatios outer].
    js_real. js_compare. cbn [andb].
    rewrite (Rltb_intro 0 (205 / 100)) by lra.
    pose proof (sqrt_pos (hx * hx + hy * hy)) as Hpos.
    set (r := R_sqrt.sqrt (hx * hx + hy * hy)) in *.
    assert (Hn : r / (205 / 100) <= 1) by
      (apply (Rmult_le_reg_r (205 / 100)); [lra|]; field_simplify; lra).
    rewrite (Rltb_intro_false (10 / 10 + 10 / 1000)) by lra.
    intros [= <-].
    repeat match goal with
    | |- context [if ?c then _ else _] => destruct c
    end; discriminate. }
  cbn. destruct (ri_ring info); cbn; congruence.
Qed.

Lemma noMiss_registerThrowScore (s : ScoreLike R) (g : Game R) :
  ring s <> Some MISS -> noMiss g -> noMiss (registerThrowScore (Some s) g).
Proof.
  intros Hring Hinv. unfold registerThrowScore, noMiss.
  destruct (_ >=? _)%Z; cbn; apply Forall_app; split; try exact Hinv;
    repeat constructor; exact Hring.
Qed.

Lemma noMiss_handle (e : Event R) (g : Game R) :
  match e with
  | EPointerUp _ _ random1 random2 => 0 <= random1 < 1 /\ 0 <= random2 < 1
  | _ => True
  end ->
  discInv g -> noMiss g -> noMiss (handle e g).
Proof.
  intros He Hdisc Hinv. destruct e as [| | |p busy|p busy r1 r2|p|delta busy];
    cbn [handle].
  - unfold startButtonClick. destruct (gameStarted g); [exact Hinv|].
    constructor.
  - constructor.
  - unfold syncBoardToWall. destruct (aimDisc g); exact Hinv.
  - unfold onAimPointerDown.
    destruct (gameStarted g), (roundActive g), (aimDisc g), busy,
      (isHoldingAim g); exact Hinv.
  - unfold onAimPointerUp.
    destruct (gameStarted g); [|exact Hinv]. cbn [negb].
    destruct (roundActive g); [|exact Hinv]. cbn [negb].
    destruct (aimDisc g) as [disc|] eqn:Ed; [|exact Hinv].
    destruct (isHoldingAim g); [|exact Hinv]. cbn [negb].
    destruct (pointerId_is p (holdPointerId g)); [|exact Hinv]. cbn [negb].
    destruct busy; [exact Hinv|].
    pose proof (sampled_hit_distance r1 r2 disc (Hdisc disc Ed) (proj2 He))
      as Hdist. cbv zeta in Hdist.
    destruct (releaseAndSampleHit aimParams r1 r2 disc) as [shot disc'].
    cbn [fst] in Hdist.
    destruct (near_hit_not_miss _ _ Hdist) as (s & -> & Hring).
    apply noMiss_registerThrowScore; [exact Hring | exact Hinv].
  - unfold onAimPointerCancel.
    destruct (isHoldingAim g), (pointerId_is p (holdPointerId g)); exact Hinv.
  - exact Hinv.
Qed.

(** X16.  Over the exact numbers, a dart thrown through the input handlers
    never misses: whatever the events, as long as the values of
    [Math.random()] lie in [[0, 1)], no entry of the history has the ring
    MISS. *)
Theorem thrown_darts_never_miss (events : list (Event R)) :
  randomsInRange events -> noMiss (run events initialGame).
Proof.
  intros Hrandoms.
  assert (Hboth : noMiss (run events initialGame)); [|exact Hboth].
  induction events as [|e events IH] using rev_ind; [constructor|].
  apply Forall_app in Hrandoms as [Hevents He].
  apply Forall_inv in He.
  rewrite run_snoc. apply noMiss_handle; [exact He | | now apply IH].
  apply reachable_discInv. now exists events.
Qed.

End DiscOnBoard.

(** The disc after a press and a frame of a tenth of a second. *)
Lemma aim_disc_stays_on_board_witness :
  Invariant.discInv
    (Script.run
       [Script.EBoardSynced; Script.EStartClick; Script.EPointerDown 1 false;
        Script.EFrame (1 / 10)%R false]
       (@Script.initialGame R _)).
Proof.
  apply aim_disc_stays_on_board. eexists. reflexivity.
Defined.

(** Two darts. *)
Lemma thrown_darts_never_miss_witness :
  Invariant.noMiss
    (Script.run
       [Script.EBoardSynced; Script.EStartClick;
        Script.EPointerDown 1 false;
        Script.EPointerUp 1 false (1 / 2)%R (1 / 4)%R;
        Script.EPointerDown 2 false; Script.EFrame (1 / 10)%R false;
        Script.EPointerUp 2 false (9 / 10)%R 0%R]
       (@Script.initialGame R _)).
Proof.
  apply thrown_darts_never_miss.
  repeat (constructor; try exact I; try (split; lra)).
Defined.

(** ** leaderboard.ts: the keys *)

Lemma string_length_app (s t : string) :
  String.length (s +:+ t) = (String.length s + String.length t)%nat.
Proof.
  induction s as [|a s IH]; [reflexivity|].
  change (String a s +:+ t) with (String a (s +:+ t)).
  cbn [String.length Nat.add]. now rewrite IH.
Qed.

Lemma string_app_inv_tail (s s' t : string) : s +:+ t = s' +:+ t -> s = s'.
Proof.
  revert s'. induction s as [|a s IH]; intros [|a' s'] Heq.
  - reflexivity.
  - apply (f_equal String.length) in Heq.
    rewrite !string_length_app in Heq. cbn in Heq. lia.
  - apply (f_equal String.length) in Heq.
    rewrite !string_length_app in Heq. cbn in Heq. lia.
  - change (String a (s +:+ t) = String a' (s' +:+ t)) in Heq.
    injection Heq as -> Heq. f_equal. now apply IH.
Qed.

Lemma leaderboardKey_inj (p p' : string) :
  leaderboardKey p = leaderboardKey p' -> p = p'.
Proof. unfold leaderboardKey. apply String.app_inj. Qed.

Lemma leaderboardMetaKey_inj (p p' : string) :
  leaderboardMetaKey p = leaderboardMetaKey p' -> p = p'.
Proof.
  unfold leaderboardMetaKey. intros Heq.
  apply String.app_inj in Heq. now apply string_app_inv_tail in Heq.
Qed.

Section Store.
Context {num : Type} `{JsArith num}.
Variable JSON_stringify : StoredLeaderboardRecord num -> string.
Variable JSON_parse : string -> option (StoredLeaderboardRecord num).
Import Invariant.
Local Open Scope js_scope.

(** ** The commands of the store *)

Lemma hGet_hSet_ne (redis : Redis num) (key field value key' field' : string) :
  key <> key' \/ field <> field' ->
  hGet (hSet redis key field value) key' field' = hGet redis key' field'.
Proof.
  intros Hne. unfold hGet, hSet. cbn [hashes].
  destruct (decide (key = key')) as [<-|Hkey].
  - rewrite lookup_insert_eq. cbn.
    destruct Hne as [Hne | Hne]; [contradiction|].
    rewrite lookup_insert_ne by exact Hne.
    destruct (hashes redis !! key); reflexivity.
  - now rewrite lookup_insert_ne.
Qed.

Lemma zmembers_zAdd (redis : Redis num) (key member : string) (s : num) :
  zmembers (zAdd redis key member s) key =
  zinsert (member, s) (filter (fun e => e.1 <> member) (zmembers redis key)).
Proof. unfold zmembers at 1, zAdd. cbn [zsets]. now rewrite lookup_insert_eq. Qed.

Lemma zmembers_zAdd_ne (redis : Redis num) (key member : string) (s : num)
  (key' : string) :
  key <> key' ->
  zmembers (zAdd redis key member s) key' = zmembers redis key'.
Proof.
  intros Hne. unfold zmembers, zAdd. cbn [zsets]. now rewrite lookup_insert_ne.
Qed.

Lemma zmembers_hSet (redis : Redis num) (key field value key' : string) :
  zmembers (hSet redis key field value) key' = zmembers redis key'.
Proof. reflexivity. Qed.

Lemma elem_of_zinsert (x e : string * num) (l : list (string * num)) :
  x ∈ zinsert e l <-> x = e \/ x ∈ l.
Proof. rewrite (zinsert_Permutation e l). apply elem_of_cons. Qed.

(** The members of the sorted set after [zAdd]: the new one, and the old
    ones of other names. *)
Lemma elem_of_zmembers_zAdd (redis : Redis num) (key member : string) (s : num)
  (x : string * num) :
  x ∈ zmembers (zAdd redis key member s) key <->
  x = (member, s) \/ (x.1 <> member /\ x ∈ zmembers redis key).
Proof.
  rewrite zmembers_zAdd, elem_of_zinsert, list_elem_of_filter. reflexivity.
Qed.

Lemma zindex_is_Some (member : string) (l : list (string * num)) :
  is_Some (zindex member l) <-> member ∈ l.*1.
Proof.
  split.
  - intros [r Hr]. destruct (decide (member ∈ l.*1)) as [|Hnot]; [assumption|].
    rewrite (zindex_None member l Hnot) in Hr. discriminate.
  - induction l as [|[m s] l IH]; intros Hin; [inversion Hin|].
    cbn [zindex fst]. destruct (String.eqb_spec m member) as [|Hne]; [eauto|].
    rewrite fmap_cons in Hin. apply elem_of_cons in Hin as [Heq | Hin].
    + cbn in Heq. congruence.
    + destruct (IH Hin) as [r ->]. eauto.
Qed.

Lemma zindex_lt (member : string) (l : list (string * num)) (r : nat) :
  zindex member l = Some r -> (r < length l)%nat.
Proof.
  revert r. induction l as [|[m s] l IH]; intros r; [discriminate|].
  cbn [zindex fst length]. destruct (String.eqb m member).
  - intros [= <-]. lia.
  - destruct (zindex member l) as [r'|]; [|discriminate].
    intros [= <-]. specialize (IH r' eq_refl). lia.
Qed.

Lemma zRank_zAdd_same (redis : Redis num) (key member : string) (s : num) :
  is_Some (zRank (zAdd redis key member s) key member).
Proof.
  unfold zRank. apply zindex_is_Some. apply list_elem_of_fmap.
  exists (member, s). split; [reflexivity|].
  apply elem_of_zmembers_zAdd. now left.
Qed.

Lemma zRank_zAdd_other (redis : Redis num) (key member : string) (s : num)
  (member' : string) :
  member' <> member ->
  is_Some (zRank (zAdd redis key member s) key member') <->
  is_Some (zRank redis key member').
Proof.
  intros Hne. unfold zRank. rewrite !zindex_is_Some, !list_elem_of_fmap.
  split; intros ([m c] & Hm & Hin); cbn in Hm; subst m;
    exists (member', c); (split; [reflexivity|]).
  - apply elem_of_zmembers_zAdd in Hin as [Heq | [_ Hin]]; [|exact Hin].
    congruence.
  - apply elem_of_zmembers_zAdd. right. now split.
Qed.

(** ** [upsertScore] *)

(** The two outcomes of [upsertScore]. *)
Lemma upsertScore_cases (redis : Redis num) (postId userId : string)
  (score : num) (metadata : option (gmap string string)) (now : num) :
  let result :=
    upsertScore JSON_stringify JSON_parse redis postId userId score metadata now in
  let record := {| rec_score := score; rec_submittedAt := now;
                   rec_metadata := metadata |} in
  (decodeMetadata JSON_parse (hGet redis (leaderboardMetaKey postId) userId)
   = Some (fst result) /\ (rec_score (fst result) >=? score) = true /\
   snd result = redis) \/
  (fst result = record /\
   snd result =
     zAdd (hSet redis (leaderboardMetaKey postId) userId
                 (encodeMetadata JSON_stringify record))
          (leaderboardKey postId) userId (toCompositeScore score now)).
Proof.
  cbv zeta. unfold upsertScore.
  destruct (decodeMetadata JSON_parse _) as [existing|]; [|now right].
  destruct (rec_score existing >=? score) eqn:Hge; [left | right]; cbn; auto.
Qed.

Lemma decodeMetadata_Some (value : option string)
  (record : StoredLeaderboardRecord num) :
  decodeMetadata JSON_parse value = Some record -> is_Some value.
Proof. destruct value; [eauto | discriminate]. Qed.

Lemma upsertScore_consistent (redis : Redis num) (postId userId : string)
  (score : num) (metadata : option (gmap string string)) (now : num)
  (postId' : string) :
  storeConsistent redis postId' ->
  storeConsistent
    (snd (upsertScore JSON_stringify JSON_parse redis postId userId score
            metadata now)) postId'.
Proof.
  intros [Hsame Hnodup].
  destruct (upsertScore_cases redis postId userId score metadata now)
    as [(_ & _ & ->) | (_ & ->)]; [now split|].
  destruct (decide (postId = postId')) as [<-|Hpost].
  - split; [|now apply zAdd_NoDup].
    intros userId'. rewrite hGet_zAdd.
    destruct (decide (userId' = userId)) as [->|Huser].
    + rewrite hGet_hSet. split; [intros _ | eauto].
      apply zRank_zAdd_same.
    + rewrite hGet_hSet_ne by auto.
      rewrite zRank_zAdd_other by exact Huser. apply Hsame.
  - assert (Hkey : leaderboardKey postId <> leaderboardKey postId')
      by (intros Heq; now apply leaderboardKey_inj in Heq).
    assert (Hmeta : leaderboardMetaKey postId <> leaderboardMetaKey postId')
      by (intros Heq; now apply leaderboardMetaKey_inj in Heq).
    unfold storeConsistent, zRank.
    rewrite zmembers_zAdd_ne by exact Hkey. split; [|exact Hnodup].
    intros userId'. rewrite hGet_zAdd, hGet_hSet_ne by auto. apply Hsame.
Qed.

Lemma storeConsistent_empty (postId : string) :
  storeConsistent (@emptyRedis num) postId.
Proof.
  split; [|constructor].
  intros userId. split; intros [x Hx]; discriminate.
Qed.

(** X17.  Whatever the JSON encoding and the number carrier, after any
    sequence of [upsertScore] calls on an empty store, for every post, the
    metadata map and the sorted set hold the same users and the sorted set
    holds each of them once. *)
Theorem upsertScore_keeps_store_consistent
  (submissions : list (Submission num)) (postId : string) :
  storeConsistent (storeAfter JSON_stringify JSON_parse submissions) postId.
Proof.
  unfold storeAfter.
  induction submissions as [|s submissions IH] using rev_ind.
  - apply storeConsistent_empty.
  - rewrite fold_left_app. cbn [fold_left]. unfold submit at 1.
    now apply upsertScore_consistent.
Qed.

Lemma getRankForUser_bounds (redis : Redis num) (postId userId : string) :
  is_Some (zRank redis (leaderboardKey postId) userId) ->
  exists rank : Z,
    getRankForUser redis postId userId = Some rank /\
    (1 <= rank <= Z.of_nat (zCard redis (leaderboardKey postId)))%Z.
Proof.
  intros [r Hr]. unfold getRankForUser. rewrite Hr.
  eexists. split; [reflexivity|].
  apply zindex_lt in Hr. unfold zCard. lia.
Qed.

Lemma upsertScore_ranked (redis : Redis num) (postId userId : string)
  (score : num) (metadata : option (gmap string string)) (now : num) :
  storeConsistent redis postId ->
  let redis' :=
    snd (upsertScore JSON_stringify JSON_parse redis postId userId score
           metadata now) in
  exists rank : Z,
    getRankForUser redis' postId userId = Some rank /\
    (1 <= rank <= Z.of_nat (zCard redis' (leaderboardKey postId)))%Z.
Proof.
  intros [Hsame _] redis'. apply getRankForUser_bounds. subst redis'.
  destruct (upsertScore_cases redis postId userId score metadata now)
    as [(Hdecode & _ & ->) | (_ & ->)].
  - apply Hsame. eapply decodeMetadata_Some. exact Hdecode.
  - apply zRank_zAdd_same.
Qed.

(** X18.  On a store in which the metadata map and the sorted set of the
    post hold the same users, the user who just called [upsertScore] has a
    rank, whether the call wrote or not: [getRankForUser] returns a number
    between 1 and the number of entries. *)
Theorem submitter_is_ranked (redis : Redis num) (postId userId : string)
  (score : num) (metadata : option (gmap string string)) (now : num) :
  storeConsistent redis postId ->
  let redis' :=
    snd (upsertScore JSON_stringify JSON_parse redis postId userId score
           metadata now) in
  exists rank : Z,
    getRankForUser redis' postId userId = Some rank /\
    (1 <= rank <= Z.of_nat (zCard redis' (leaderboardKey postId)))%Z.
Proof. apply upsertScore_ranked. Qed.

(** ** [fetchTopN] *)

Lemma zRange_top (redis : Redis num) (key : string) (limit : Z) :
  (0 < limit)%Z ->
  zRange redis key 0 (limit - 1) true
  = take (Z.to_nat limit) (reverse (zmembers redis key)).
Proof.
  intros Hlimit. unfold zRange.
  destruct (Z.ltb_spec (limit - 1) 0); [lia|].
  rewrite drop_0. f_equal. lia.
Qed.

Lemma fetchTopN_lookup (redis : Redis num) (postId : string) (limit : Z)
  (i : nat) (entry : LeaderboardEntry num) :
  fetchTopN JSON_parse redis postId limit !! i = Some entry ->
  (0 < limit)%Z /\ (i < Z.to_nat limit)%nat /\
  e_rank entry = (Z.of_nat i + 1)%Z /\
  exists composite : num,
    reverse (zmembers redis (leaderboardKey postId)) !! i
    = Some (e_userId entry, composite) /\
    let meta := decodeMetadata JSON_parse
                  (hGet redis (leaderboardMetaKey postId) (e_userId entry)) in
    e_score entry = from_option rec_score composite meta /\
    e_submittedAt entry = from_option rec_submittedAt (ofZ 0) meta /\
    e_metadata entry = meta ≫= rec_metadata.
Proof.
  unfold fetchTopN. destruct (Z.leb_spec limit 0) as [|Hlimit]; [discriminate|].
  rewrite (zRange_top _ _ _ Hlimit).
  set (top := take (Z.to_nat limit) _).
  destruct (Nat.eqb_spec (length top) 0) as [|_]; [discriminate|].
  rewrite list_lookup_imap.
  destruct (top !! i) as [[user composite]|] eqn:Htop; [|discriminate].
  cbn [fmap option_fmap option_map]. intros [= <-]. cbn.
  split; [exact Hlimit|].
  unfold top in Htop. rewrite lookup_take in Htop.
  destruct (decide (i < Z.to_nat limit)%nat) as [Hi|]; [|discriminate].
  split; [exact Hi|]. split; [reflexivity|].
  exists composite. split; [exact Htop|].
  assert (Hmeta : mjoin (hMGet redis (leaderboardMetaKey postId)
                           (map fst top) !! i)
                  = hGet redis (leaderboardMetaKey postId) user).
  { unfold hMGet. rewrite list_lookup_fmap.
    change (map fst top) with (fst <$> top). rewrite list_lookup_fmap.
    unfold top. rewrite lookup_take_lt by exact Hi. rewrite Htop.
    reflexivity. }
  rewrite Hmeta. repeat split.
Qed.

Lemma fetchTopN_length (redis : Redis num) (postId : string) (limit : Z) :
  length (fetchTopN JSON_parse redis postId limit)
  = Nat.min (Z.to_nat limit) (zCard redis (leaderboardKey postId)).
Proof.
  unfold fetchTopN, zCard. destruct (Z.leb_spec limit 0) as [Hle|Hlimit].
  - replace (Z.to_nat limit) with 0%nat by lia. reflexivity.
  - rewrite (zRange_top _ _ _ Hlimit).
    set (top := take (Z.to_nat limit) _).
    assert (Hlen : length top = Nat.min (Z.to_nat limit)
                     (length (zmembers redis (leaderboardKey postId)))).
    { unfold top. now rewrite length_take, length_reverse. }
    destruct (Nat.eqb_spec (length top) 0) as [Hzero|_].
    + now rewrite <- Hlen, Hzero.
    + now rewrite length_imap.
Qed.

(** X19.  [fetchTopN] returns the first [limit] entries of the sorted set
    read from the highest composite score down, and none for a limit that
    is not positive: it has [min(limit, cardinality)] entries, and the
    entry at 0-based position [i] has rank [i + 1], the user at position
    [i] of the descending listing, and the score, the time stamp and the
    metadata of that user's stored record (the composite score and 0 where
    the record does not decode). *)
Theorem fetchTopN_lists_the_top
  (redis : Redis num) (postId : string) (limit : Z) :
  let top := fetchTopN JSON_parse redis postId limit in
  length top = Nat.min (Z.to_nat limit) (zCard redis (leaderboardKey postId)) /\
  forall (i : nat) (entry : LeaderboardEntry num),
    top !! i = Some entry ->
    e_rank entry = (Z.of_nat i + 1)%Z /\
    exists composite : num,
      reverse (zmembers redis (leaderboardKey postId)) !! i
      = Some (e_userId entry, composite) /\
      let meta := decodeMetadata JSON_parse
                    (hGet redis (leaderboardMetaKey postId) (e_userId entry)) in
      e_score entry = from_option rec_score composite meta /\
      e_submittedAt entry = from_option rec_submittedAt (ofZ 0) meta /\
      e_metadata entry = meta ≫= rec_metadata.
Proof.
  intros top. split; [apply fetchTopN_length|].
  intros i entry Hentry.
  destruct (fetchTopN_lookup _ _ _ _ _ Hentry) as (_ & _ & Hrank & Hrest).
  split; [exact Hrank | exact Hrest].
Qed.

(** X20.  On a sorted set that holds each user once, the rank
    [fetchTopN] prints beside a user is the rank [getRankForUser] returns
    for that user. *)
Theorem fetchTopN_agrees_with_getRankForUser
  (redis : Redis num) (postId : string) (limit : Z)
  (i : nat) (entry : LeaderboardEntry num) :
  NoDup (zmembers redis (leaderboardKey postId)).*1 ->
  fetchTopN JSON_parse redis postId limit !! i = Some entry ->
  getRankForUser redis postId (e_userId entry) = Some (e_rank entry).
Proof.
  intros Hnodup Hentry.
  destruct (fetchTopN_lookup _ _ _ _ _ Hentry)
    as (_ & _ & -> & composite & Hrev & _).
  apply reverse_lookup_Some in Hrev as [Hlookup Hi].
  unfold getRankForUser, zRank, zCard.
  rewrite (zindex_Some _ _ _ _ Hnodup Hlookup). f_equal. lia.
Qed.

End Store.

(** The first submission to an empty store. *)
Lemma submitter_is_ranked_witness :
  let JSON_stringify := fun _ : StoredLeaderboardRecord float => "{score:5}" in
  let JSON_parse := fun _ : string =>
    Some {| rec_score := 5%float; rec_submittedAt := 1%float;
            rec_metadata := None |} in
  let redis' :=
    snd (upsertScore JSON_stringify JSON_parse emptyRedis "post" "user"
           5%float None 1%float) in
  exists rank : Z,
    getRankForUser redis' "post" "user" = Some rank /\
    (1 <= rank <= Z.of_nat (zCard redis' (leaderboardKey "post")))%Z.
Proof.
  intros JSON_stringify JSON_parse.
  apply (@submitter_is_ranked float FloatArith JSON_stringify JSON_parse
           emptyRedis "post" "user" 5%float None 1%float).
  apply storeConsistent_empty.
Defined.

(** The listing of a board with one entry. *)
Lemma fetchTopN_agrees_with_getRankForUser_witness :
  let JSON_stringify := fun _ : StoredLeaderboardRecord float => "{score:5}" in
  let JSON_parse := fun _ : string =>
    Some {| rec_score := 5%float; rec_submittedAt := 1%float;
            rec_metadata := None |} in
  let redis :=
    snd (upsertScore JSON_stringify JSON_parse emptyRedis "post" "user"
           5%float None 1%float) in
  exists entry,
    fetchTopN JSON_parse redis "post" 10 !! 0%nat = Some entry /\
    getRankForUser redis "post" (e_userId entry) = Some (e_rank entry).
Proof.
  intros JSON_stringify JSON_parse redis.
  assert (Hconsistent : Invariant.storeConsistent redis "post").
  { apply (upsertScore_consistent JSON_stringify JSON_parse), storeConsistent_empty. }
  destruct (fetchTopN JSON_parse redis "post" 10 !! 0%nat) as [entry|] eqn:Hentry;
    [|vm_compute in Hentry; discriminate].
  exists entry. split; [reflexivity|].
  exact (@fetchTopN_agrees_with_getRankForUser float FloatArith JSON_parse
           redis "post" 10 0%nat entry (proj2 Hconsistent) Hentry).
Defined.

Section StoreRoundTrip.
Context {num : Type} `{JsArith num}.
Variable JSON_stringify : StoredLeaderboardRecord num -> string.
Variable JSON_parse : string -> option (StoredLeaderboardRecord num).
Import Invariant.
Local Open Scope js_scope.

Lemma decodeMetadata_encodeMetadata (record : StoredLeaderboardRecord num) :
  jsonRoundTrip JSON_stringify JSON_parse record ->
  decodeMetadata JSON_parse (Some (encodeMetadata JSON_stringify record))
  = Some record.
Proof.
  intros [Hnonempty Hparse]. unfold decodeMetadata, encodeMetadata.
  destruct (JSON_stringify record) eqn:Hs; [contradiction | exact Hparse].
Qed.

(** X21.  [upsertScore] returns the record that is stored: provided
    [JSON.parse] reads back what [JSON.stringify] writes for the new
    record, decoding the metadata field of the user after the call gives
    the returned record, whether the call wrote or not; and a further
    call with a score that is not higher returns that same record and
    leaves the store as it is. *)
Theorem upsertScore_returns_stored_record
  (redis : Redis num) (postId userId : string) (score : num)
  (metadata : option (gmap string string)) (now : num) :
  jsonRoundTrip JSON_stringify JSON_parse
    {| rec_score := score; rec_submittedAt := now; rec_metadata := metadata |} ->
  let result :=
    upsertScore JSON_stringify JSON_parse redis postId userId score metadata now in
  decodeMetadata JSON_parse
    (hGet (snd result) (leaderboardMetaKey postId) userId)
  = Some (fst result) /\
  forall (score' : num) (metadata' : option (gmap string string)) (now' : num),
    (rec_score (fst result) >=? score') = true ->
    upsertScore JSON_stringify JSON_parse (snd result) postId userId score'
      metadata' now'
    = result.
Proof.
  intros Hjson result.
  assert (Hstored : decodeMetadata JSON_parse
            (hGet (snd result) (leaderboardMetaKey postId) userId)
          = Some (fst result)).
  { subst result.
    destruct (upsertScore_cases JSON_stringify JSON_parse redis postId userId
                score metadata now) as [(Hdecode & _ & ->) | (-> & ->)].
    - exact Hdecode.
    - rewrite hGet_zAdd, hGet_hSet.
      now apply decodeMetadata_encodeMetadata. }
  split; [exact Hstored|].
  intros score' metadata' now' Hge.
  unfold upsertScore at 1. rewrite Hstored, Hge.
  now destruct result.
Qed.

(** X22.  [upsertScore] touches one entry: for every other user of the
    post and for every user of another post, the metadata field and the
    membership and composite score in the sorted set are what they were,
    and the sorted set of another post is unchanged as a whole. *)
Theorem upsertScore_touches_one_entry
  (redis : Redis num) (postId userId : string) (score : num)
  (metadata : option (gmap string string)) (now : num)
  (postId' userId' : string) :
  (postId', userId') <> (postId, userId) ->
  let redis' :=
    snd (upsertScore JSON_stringify JSON_parse redis postId userId score
           metadata now) in
  hGet redis' (leaderboardMetaKey postId') userId'
  = hGet redis (leaderboardMetaKey postId') userId' /\
  (forall composite : num,
     (userId', composite) ∈ zmembers redis' (leaderboardKey postId') <->
     (userId', composite) ∈ zmembers redis (leaderboardKey postId')) /\
  (postId' <> postId ->
   zmembers redis' (leaderboardKey postId')
   = zmembers redis (leaderboardKey postId')).
Proof.
  intros Hother redis'. subst redis'.
  destruct (upsertScore_cases JSON_stringify JSON_parse redis postId userId
              score metadata now) as [(_ & _ & ->) | (_ & ->)];
    [now repeat split|].
  assert (Hkeys : postId' <> postId ->
            leaderboardKey postId <> leaderboardKey postId' /\
            leaderboardMetaKey postId <> leaderboardMetaKey postId').
  { intros Hne. split; intros Heq;
      [apply leaderboardKey_inj in Heq | apply leaderboardMetaKey_inj in Heq];
      congruence. }
  split; [|split].
  - rewrite hGet_zAdd. apply hGet_hSet_ne.
    destruct (decide (postId' = postId)) as [->|Hne].
    + right. congruence.
    + left. now apply Hkeys.
  - intros composite.
    destruct (decide (postId' = postId)) as [->|Hne].
    + rewrite elem_of_zmembers_zAdd. cbn [fst].
      split; [intros [Heq | [_ Hin]] | intros Hin].
      * congruence.
      * exact Hin.
      * right. split; [congruence | exact Hin].
    + rewrite zmembers_zAdd_ne by now apply Hkeys. reflexivity.
  - intros Hne. rewrite zmembers_zAdd_ne by now apply Hkeys. reflexivity.
Qed.

(** ** index.ts: the leaderboard routes *)

Import Server.
Variable String_trim : string -> string.


Lemma zindex_lookup (member : string) (l : list (string * num)) (r : nat) :
  zindex member l = Some r -> exists s, l !! r = Some (member, s).
Proof.
  revert r. induction l as [|[m s] l IH]; intros r; [discriminate|].
  cbn [zindex fst]. destruct (String.eqb_spec m member) as [->|_].
  - intros [= <-]. eauto.
  - destruct (zindex member l) as [r'|]; [|discriminate].
    intros [= <-]. apply (IH r' eq_refl).
Qed.

(** The entry of a ranked user in a listing that is long enough. *)
Lemma fetchTopN_caller (redis : Redis num) (postId userId : string)
  (limit rank : Z) :
  getRankForUser redis postId userId = Some rank ->
  (rank <= limit)%Z ->
  exists entry,
    fetchTopN JSON_parse redis postId limit !! Z.to_nat (rank - 1) = Some entry /\
    e_userId entry = userId /\ e_rank entry = rank.
Proof.
  unfold getRankForUser, zRank, zCard. intros Hrank Hlimit.
  destruct (zindex userId _) as [r|] eqn:Hr; [|discriminate].
  injection Hrank as <-.
  pose proof (zindex_lt _ _ _ Hr) as Hlt.
  destruct (zindex_lookup _ _ _ Hr) as [s Hs].
  set (l := zmembers redis (leaderboardKey postId)) in *.
  set (i := Z.to_nat (Z.of_nat (length l) - Z.of_nat r - 1)).
  assert (Hi : (i < length (fetchTopN JSON_parse redis postId limit))%nat).
  { rewrite fetchTopN_length. unfold zCard. fold l. unfold i. lia. }
  apply lookup_lt_is_Some in Hi as [entry Hentry].
  exists entry. split; [exact Hentry|].
  destruct (fetchTopN_lookup JSON_parse _ _ _ _ _ Hentry)
    as (_ & _ & Hrk & composite & Hrev & _).
  fold l in Hrev. apply reverse_lookup_Some in Hrev as [Hlookup _].
  replace (length l - S i)%nat with r in Hlookup by (unfold i; lia).
  rewrite Hs in Hlookup. injection Hlookup as Huser _.
  split; [now symmetry|]. rewrite Hrk. unfold i. lia.
Qed.

(** X24.  On a store in which the metadata map and the sorted set of the
    post hold the same users, an accepted submit answers with a listing of
    at least one and at most [topLimit <= 100] entries and with a rank for
    the caller, between 1 and the number of entries of the board; when
    that rank is within the limit, the entry of the listing at that rank
    is the caller's. *)
Theorem leaderboardSubmit_answers
  (post : string) (body : LeaderboardSubmitRequest num) (user : string)
  (s now : num) (redis : Redis num) :
  storeConsistent redis post ->
  post <> "" -> userId body = Some user -> falsy (Some (String_trim user)) = false ->
  score body = VNumber s -> isNaN s = false ->
  let result :=
    leaderboardSubmit JSON_stringify JSON_parse String_trim (Some post) body
      now redis in
  exists top rank,
    fst result = LeaderboardResponse "leaderboard-submit" post top (Some rank) /\
    (1 <= Z.of_nat (length top) <= topLimit (limit body))%Z /\
    (topLimit (limit body) <= 100)%Z /\
    (1 <= rank <= Z.of_nat (zCard (snd result) (leaderboardKey post)))%Z /\
    ((rank <= topLimit (limit body))%Z ->
     exists entry, top !! Z.to_nat (rank - 1) = Some entry /\
                   e_userId entry = user /\ e_rank entry = rank).
Proof.
  intros Hconsistent Hpost Huser Htrim Hscore Hnan result.
  subst result. unfold Server.leaderboardSubmit.
  assert (Hfalsy : falsy (Some post) = false)
    by (destruct post; [now contradiction Hpost | reflexivity]).
  rewrite Hfalsy, Huser. cbn [fmap option_fmap option_map default].
  rewrite Htrim, Hscore, Hnan. cbn [fst snd]. unfold Datatypes.id.
  destruct (upsertScore_ranked JSON_stringify JSON_parse redis post user s
              (metadata body) now Hconsistent) as (rank & Hrank & Hbounds).
  cbv zeta in Hrank, Hbounds.
  set (redis' := snd (upsertScore _ _ redis post user s (metadata body) now)) in *.
  exists (fetchTopN JSON_parse redis' post (topLimit (limit body))), rank.
  rewrite Hrank. split; [reflexivity|].
  assert (Hlimit : (1 <= topLimit (limit body) <= 100)%Z)
    by (unfold topLimit; lia).
  rewrite fetchTopN_length.
  split; [lia|]. split; [lia|]. split; [exact Hbounds|].
  intros Hwithin. now apply fetchTopN_caller.
Qed.

End StoreRoundTrip.

Lemma upsertScore_returns_stored_record_witness :
  let JSON_stringify := fun _ : StoredLeaderboardRecord float => "{score:5}" in
  let JSON_parse := fun _ : string =>
    Some {| rec_score := 5%float; rec_submittedAt := 1%float;
            rec_metadata := None |} in
  let result :=
    upsertScore JSON_stringify JSON_parse emptyRedis "post" "user" 5%float None
      1%float in
  decodeMetadata JSON_parse
    (hGet (snd result) (leaderboardMetaKey "post") "user")
  = Some (fst result) /\
  forall (score' : float) (metadata' : option (gmap string string))
         (now' : float),
    (rec_score (fst result) >=? score')%js = true ->
    upsertScore JSON_stringify JSON_parse (snd result) "post" "user" score'
      metadata' now'
    = result.
Proof.
  intros JSON_stringify JSON_parse.
  apply (@upsertScore_returns_stored_record float FloatArith JSON_stringify
           JSON_parse emptyRedis "post" "user" 5%float None 1%float).
  split; [discriminate | reflexivity].
Defined.

(** Another user of the same post. *)
Lemma upsertScore_touches_one_entry_witness :
  let JSON_stringify := fun _ : StoredLeaderboardRecord float => "{score:5}" in
  let JSON_parse := fun _ : string =>
    Some {| rec_score := 5%float; rec_submittedAt := 1%float;
            rec_metadata := None |} in
  let redis' :=
    snd (upsertScore JSON_stringify JSON_parse emptyRedis "post" "user"
           5%float None 1%float) in
  hGet redis' (leaderboardMetaKey "post") "other"
  = hGet (@emptyRedis float) (leaderboardMetaKey "post") "other" /\
  (forall composite : float,
     ("other", composite) ∈ zmembers redis' (leaderboardKey "post") <->
     ("other", composite) ∈ zmembers (@emptyRedis float) (leaderboardKey "post")) /\
  ("post" <> "post" ->
   zmembers redis' (leaderboardKey "post")
   = zmembers (@emptyRedis float) (leaderboardKey "post")).
Proof.
  intros JSON_stringify JSON_parse.
  apply (@upsertScore_touches_one_entry float FloatArith JSON_stringify
           JSON_parse emptyRedis "post" "user" 5%float None 1%float
           "post" "other").
  discriminate.
Defined.

(** A first submission through the route, with a [trim] that leaves the
    user id as it is. *)
Lemma leaderboardSubmit_answers_witness :
  let JSON_stringify := fun _ : StoredLeaderboardRecord float => "{score:5}" in
  let JSON_parse := fun _ : string =>
    Some {| rec_score := 5%float; rec_submittedAt := 1%float;
            rec_metadata := None |} in
  let body := {| Server.userId := Some "user";
                 Server.score := VNumber 5%float;
                 Server.limit := None; Server.metadata := None |} in
  let result :=
    Server.leaderboardSubmit JSON_stringify JSON_parse (fun s => s)
      (Some "post") body 1%float emptyRedis in
  exists top rank,
    fst result
    = Server.LeaderboardResponse "leaderboard-submit" "post" top (Some rank) /\
    (1 <= Z.of_nat (length top) <= Server.topLimit (Server.limit body))%Z /\
    (Server.topLimit (Server.limit body) <= 100)%Z /\
    (1 <= rank <= Z.of_nat (zCard (snd result) (leaderboardKey "post")))%Z /\
    ((rank <= Server.topLimit (Server.limit body))%Z ->
     exists entry, top !! Z.to_nat (rank - 1) = Some entry /\
                   e_userId entry = "user" /\ e_rank entry = rank).
Proof.
  intros JSON_stringify JSON_parse body.
  apply (@leaderboardSubmit_answers float FloatArith JSON_stringify JSON_parse
           (fun s => s) "post" body "user" 5%float 1%float emptyRedis).
  - apply storeConsistent_empty.
  - discriminate.
  - reflexivity.
  - reflexivity.
  - reflexivity.
  - vm_compute. reflexivity.
Defined.

(** ** index.ts: the fetch route *)

Section FetchRoute.
Context {num : Type} `{JsArith num}.
Variable JSON_stringify : StoredLeaderboardRecord num -> string.
Variable JSON_parse : string -> option (StoredLeaderboardRecord num).
Variable String_trim : string -> string.
Import Server.


End FetchRoute.


(** ** hitGlow.js and script.js: the glow of a throw *)

(** What the ring [ringFromRadiusRatio] returns tells about the
    normalized radius, over the exact numbers. *)
Lemma ringFromRadiusRatio_band (rNorm : R) (cfg : ScoringConfig R)
  (rr : RingRatios R) (info : RingInfo) :
  ringRatios cfg = Some rr ->
  ringFromRadiusRatio rNorm cfg = Some info ->
  let eps := getRingEpsN cfg in
  match ri_ring info with
  | MISS => (outer rr + eps < rNorm)%R
  | DBULL => (rNorm <= dbullOuter rr + eps)%R
  | SBULL => (dbullOuter rr + eps < rNorm <= bullOuter rr + eps)%R
  | DOUBLE => (doubleInner rr - eps <= rNorm <= doubleOuter rr + eps)%R
  | TRIPLE => (tripleInner rr - eps <= rNorm <= tripleOuter rr + eps)%R
  | SINGLE =>
      (bullOuter rr + eps < rNorm <= outer rr + eps)%R /\
      ~ (doubleInner rr - eps <= rNorm <= doubleOuter rr + eps)%R /\
      ~ (tripleInner rr - eps <= rNorm <= tripleOuter rr + eps)%R
  end.
Proof.
  intros Hrr Hinfo eps. subst eps. revert Hinfo.
  unfold ringFromRadiusRatio. rewrite Hrr. intros Hinfo.
  injection Hinfo as <-. set (eps := getRingEpsN cfg). js_real.
  repeat match goal with
  | |- context [Rltb ?a ?b] =>
      let E := fresh "E" in
      destruct (Rltb a b) eqn:E;
      [apply Rltb_true in E | apply Rltb_false in E]
  | |- context [Rleb ?a ?b] =>
      let E := fresh "E" in
      destruct (Rleb a b) eqn:E;
      [apply Rleb_true in E | apply Rleb_false in E]
  end; cbn; try lra; repeat split; lra.
Qed.

Section GlowBand.
Import HitGlow.
Local Open Scope R_scope.

(** X26.  Over the exact numbers, on every valid board, the band
    [radiiForScore] lights is the ring the hit was scored in: there is no
    band exactly for a miss; the bulls get a full ring and the other rings
    a wedge; the hit lies within the band widened by the ring tolerance
    (as a distance, [eps * boardRadius]); and a single lies strictly
    inside its band, the inner or the outer single area. *)
Theorem glow_band_is_scored_ring
  (x y : R) (cfg : ScoringConfig R) (b thickness : R)
  (result : ScoreResult R) :
  Spec.validBoardConfig cfg -> Scoring.boardRadius cfg = VNumber b ->
  scoreFromBoardXY x y (Some cfg) = Some result ->
  let board := {| scoring := cfg; boardRadius := b;
                  boardThickness := thickness |} in
  let glow := {| gs_ring := Some (sr_ring result);
                 gs_rNorm := Some (sr_rNorm result);
                 gs_wedgeIndex := sr_wedgeIndex result |} in
  let tolerance := getRingEpsN cfg * b in
  match radiiForScore board (Some glow) with
  | Some None => sr_ring result = MISS
  | Some (Some radii) =>
      sr_ring result <> MISS /\
      (kind radii = bull <->
       sr_ring result = DBULL \/ sr_ring result = SBULL) /\
      innerR radii - tolerance <= sr_radius result
        <= outerR radii + tolerance /\
      (sr_ring result = SINGLE ->
       innerR radii < sr_radius result < outerR radii)
  | None => False
  end.
Proof.
  intros Hvalid Hb Hscore board glow tolerance. subst board glow tolerance.
  pose proof Hvalid as (Hok & _ & _ & (rr & Hrr & Hord) & _ & (b' & Hb' & Hpos)).
  rewrite Hb in Hb'. injection Hb' as <-.
  destruct (validate_ok_inv cfg Hok) as ((ns & Hns & Hlen) & (s & Hs) & (w & Hw) & _).
  destruct (scoreFromBoardXY_scored x y cfg ns Hns Hlen) as
    (info & idx & Hinfo & _ & Hres);
    [now rewrite Hrr | now rewrite Hw | now rewrite Hs |].
  rewrite Hscore in Hres. injection Hres as ->.
  assert (HN : Invariant.hitRNorm x y cfg = R_sqrt.sqrt (x * x + y * y) / b).
  { unfold Invariant.hitRNorm, Invariant.hitRadius. rewrite Hb. js_real.
    now rewrite (Rltb_intro 0 b) by exact Hpos. }
  pose proof (sqrt_pos (x * x + y * y)) as Hr.
  rewrite HN in *. clear HN.
  remember (R_sqrt.sqrt (x * x + y * y)) as r eqn:Er. clear Er.
  pose proof (ringFromRadiusRatio_band _ _ _ _ Hrr Hinfo) as Hband.
  cbv zeta in Hband.
  pose proof (getRingEpsN_real_nonneg cfg) as Heps.
  assert (HrNorm : r / b * b = r) by (field; lra).
  remember (r / b) as rNorm eqn:En. clear En.
  destruct Hord as (H1 & H2 & H3 & H4 & H5 & H6).
  unfold radiiForScore.
  cbn [gs_ring gs_rNorm scoring boardRadius]. rewrite Hrr.
  remember (getRingEpsN cfg) as eps eqn:Ee. clear Ee.
  revert Hband.
  destruct (ri_ring info); cbn [sr_ring sr_rNorm sr_radius mbind option_bind
                                 kind innerR outerR missResult];
    intros Hband; js_real.
  - reflexivity.
  - split; [discriminate|]. split; [split; auto|].
    split; [nra | discriminate].
  - split; [discriminate|]. split; [split; auto|].
    split; [nra | discriminate].
  - split; [discriminate|].
    split; [split; [discriminate | intros [|]; discriminate]|].
    split; [nra | discriminate].
  - split; [discriminate|].
    split; [split; [discriminate | intros [|]; discriminate]|].
    split; [nra | discriminate].
  - destruct Hband as (Hlo & Hnd & Hnt).
    destruct (Rltb (bullOuter rr) rNorm && Rltb rNorm (tripleInner rr)) eqn:Hin;
      cbn [kind innerR outerR].
    + apply andb_true_iff in Hin as [Hin1 Hin2].
      apply Rltb_true in Hin1. apply Rltb_true in Hin2.
      split; [discriminate|].
      split; [split; [discriminate | intros [|]; discriminate]|].
      split; [nra | intros _; nra].
    + assert (Hge : tripleInner rr <= rNorm).
      { apply andb_false_iff in Hin as [Hin | Hin]; apply Rltb_false in Hin; lra. }
      assert (Hgt : tripleOuter rr + eps < rNorm).
      { destruct (Rle_dec rNorm (tripleOuter rr + eps)); [|lra].
        exfalso. apply Hnt. lra. }
      assert (Hlt : rNorm < doubleInner rr - eps).
      { destruct (Rle_dec (doubleInner rr - eps) rNorm); [|lra].
        exfalso. apply Hnd. lra. }
      split; [discriminate|].
      split; [split; [discriminate | intros [|]; discriminate]|].
      split; [nra | intros _; nra].
Qed.

(** The bull of the default board: the glow is the full inner disc. *)
Lemma glow_band_is_scored_ring_witness :
  exists result,
    scoreFromBoardXY 0 0 (Some Script.scoringConfig) = Some result /\
    match radiiForScore
            {| scoring := Script.scoringConfig;
               boardRadius := Script.dartboardRadius;
               boardThickness := 35 / 100 |}
            (Some {| gs_ring := Some (sr_ring result);
                     gs_rNorm := Some (sr_rNorm result);
                     gs_wedgeIndex := sr_wedgeIndex result |}) with
    | Some None => sr_ring result = MISS
    | Some (Some radii) =>
        sr_ring result <> MISS /\
        (kind radii = bull <->
         sr_ring result = DBULL \/ sr_ring result = SBULL) /\
        innerR radii - getRingEpsN Script.scoringConfig * Script.dartboardRadius
          <= sr_radius result
          <= outerR radii
             + getRingEpsN Script.scoringConfig * Script.dartboardRadius /\
        (sr_ring result = SINGLE ->
         innerR radii < sr_radius result < outerR radii)
    | None => False
    end.
Proof.
  destruct (scoreFromBoardXY_total 0 0 (Some (@Script.scoringConfig R _)))
    as [result Hresult].
  exists result. split; [exact Hresult|].
  exact (glow_band_is_scored_ring 0 0 Script.scoringConfig
           Script.dartboardRadius (35 / 100) result scoringConfig_valid
           eq_refl Hresult).
Defined.

Lemma wedge_bounds : 3 / 10 < Rtrigo1.PI * 2 / 20.
Proof. pose proof PI2_3_2. lra. Qed.

(** The sector [makeWedgeGlow] draws for the wedge index [k] lies inside
    the wedge that scores [k]. *)
Lemma makeWedgeGlow_sector
  (cfg : ScoringConfig R) (b thickness innerR outerR : R) (k : Z) :
  Spec.validBoardConfig cfg -> angleOffset cfg = VNumber 0 ->
  (0 <= k <= 19)%Z ->
  let board := {| scoring := cfg; boardRadius := b;
                  boardThickness := thickness |} in
  exists geometry start length,
    makeWedgeGlow board innerR outerR (IZR k) = Some geometry /\
    thetaStart geometry = Some start /\ thetaLength geometry = Some length /\
    0 < length /\
    forall theta, start <= theta <= start + length ->
                  wedgeIndexFromAngle theta cfg = Some (IZR k).
Proof.
  intros Hvalid Hoff Hk board.
  pose proof Hvalid as (Hok & _ & Hw & _).
  destruct (validate_ok_inv cfg Hok) as (_ & (s & Hs) & _).
  pose proof wedge_bounds as Hwb. pose proof wedge_pos as Hwp.
  subst board. unfold makeWedgeGlow. cbn [scoring].
  rewrite Hw, Hs, Hoff. unfold numberOrZero. js_real.
  rewrite (Rltb_intro_false 0 0) by lra.
  cbn [orb mbind option_bind].
  set (w := Rtrigo1.PI * 2 / 20) in *.
  do 3 eexists. split; [reflexivity|]. cbn [thetaStart thetaLength].
  split; [reflexivity|]. split; [reflexivity|]. split; [lra|].
  intros theta Htheta.
  destruct (String.eqb (direction cfg) "cw") eqn:Hdir.
  - apply (wedgeIndexFromAngle_nearest theta cfg s
             (s - IZR k * w - theta) k 0 Hvalid Hs Hk).
    + fold w. lra.
    + rewrite Hdir, Hoff. fold w. lra.
  - apply (wedgeIndexFromAngle_nearest theta cfg s
             (theta - s - IZR k * w) k 0 Hvalid Hs Hk).
    + fold w. lra.
    + rewrite Hdir, Hoff. fold w. lra.
Qed.

(** X27.  Over the exact numbers, on a valid board with the angle
    offset 0 that board.js configures, the sector [makeWedgeGlow] draws for
    the wedge index [k] lies inside the wedge that scores [k]: every angle
    from [thetaStart] to [thetaStart + thetaLength] has the wedge index
    [k]. *)
Theorem glow_sector_is_scored_wedge
  (cfg : ScoringConfig R) (b thickness innerR outerR : R) (k : Z) :
  Spec.validBoardConfig cfg -> angleOffset cfg = VNumber 0 ->
  (0 <= k <= 19)%Z ->
  let board := {| scoring := cfg; boardRadius := b;
                  boardThickness := thickness |} in
  exists geometry start length,
    makeWedgeGlow board innerR outerR (IZR k) = Some geometry /\
    thetaStart geometry = Some start /\ thetaLength geometry = Some length /\
    0 < length /\
    forall theta, start <= theta <= start + length ->
                  wedgeIndexFromAngle theta cfg = Some (IZR k).
Proof. apply makeWedgeGlow_sector. Qed.

(** The sector of the 20 on the default board. *)
Lemma glow_sector_is_scored_wedge_witness :
  exists geometry start length,
    makeWedgeGlow {| scoring := Script.scoringConfig;
                     boardRadius := Script.dartboardRadius;
                     boardThickness := 35 / 100 |} 1 2 (IZR 0) = Some geometry /\
    thetaStart geometry = Some start /\ thetaLength geometry = Some length /\
    0 < length /\
    forall theta, start <= theta <= start + length ->
                  wedgeIndexFromAngle theta Script.scoringConfig = Some (IZR 0).
Proof.
  apply (glow_sector_is_scored_wedge Script.scoringConfig
           Script.dartboardRadius (35 / 100) 1 2 0 scoringConfig_valid).
  - reflexivity.
  - lia.
Defined.

End GlowBand.

(** ** script.js: the glow a throw queues *)

Section QueuedGlow.
Context {num : Type} `{JsMath num}.
Import HitGlow Feedback.
Local Open Scope js_scope.

(** The carrier compares the wedge values as the integers they are, and
    the board radius is a finite positive number. *)
Hypothesis Hequals : forall a b : Z, (0 <= a <= 20)%Z -> (0 <= b <= 20)%Z ->
                                     strictEquals (ofZ a) (ofZ b) = (a =? b)%Z.
Hypothesis Hradius :
  isFinite (@Script.dartboardRadius num _) = true /\
  (@Script.dartboardRadius num _ >? ofZ 0) = true.

Lemma indexOf_ofZ (v : Z) (values : list Z) :
  (0 <= v <= 20)%Z -> Forall (fun y => 0 <= y <= 20)%Z values ->
  indexOf (ofZ v) (map ofZ values)
  = fst <$> list_find (fun y => y = v) values.
Proof.
  intros Hv Hvalues. induction Hvalues as [|y values Hy _ IH]; [reflexivity|].
  cbn [map indexOf list_find]. rewrite (Hequals y v Hy Hv), IH.
  destruct (Z.eqb_spec y v) as [->|Hne].
  - now rewrite decide_True.
  - rewrite decide_False by exact Hne.
    destruct (list_find _ values) as [[i z]|]; reflexivity.
Qed.

(** Looking a wedge value up in the numbers of the board gives back its
    position: the numbers are all different, and 0 is not one of them. *)
Lemma indexOf_wedge (i : nat) :
  indexOf (nth i (@Board.DARTBOARD_NUMBERS num _) (ofZ 0)) Board.DARTBOARD_NUMBERS
  = if (i <? 20)%nat then Some i else None.
Proof.
  unfold Board.DARTBOARD_NUMBERS. rewrite map_nth.
  set (values := [20; 1; 18; 4; 13; 6; 10; 15; 2; 17;
                  3; 19; 7; 16; 8; 11; 14; 9; 12; 5]%Z).
  assert (Hvalues : Forall (fun y => 0 <= y <= 20)%Z values)
    by (repeat constructor; lia).
  assert (Hnth : (0 <= nth i values 0 <= 20)%Z).
  { destruct (nth_in_or_default i values 0%Z) as [Hin | ->]; [|lia].
    rewrite Forall_forall in Hvalues. apply Hvalues.
    now apply list_elem_of_In. }
  rewrite (indexOf_ofZ _ _ Hnth Hvalues).
  do 20 (destruct i as [|i]; [vm_compute; reflexivity|]).
  replace (nth _ values 0%Z) with 0%Z by (destruct i; reflexivity).
  reflexivity.
Qed.

Lemma pendingHitGlow_scored (x y : num) (result : ScoreResult num) :
  scoreFromBoardXY x y (Some Script.scoringConfig) = Some result ->
  let glow := pendingHitGlow result in
  gs_ring glow = Some (sr_ring result) /\
  gs_rNorm glow = Some (sr_rNorm result) /\
  gs_wedgeIndex glow =
    match sr_wedgeIndex result with
    | Some idx =>
        match toIndex idx with
        | Some i => if (i <? 20)%nat then Some (ofZ (Z.of_nat i)) else None
        | None => None
        end
    | None => None
    end.
Proof.
  intros Hscore glow. subst glow. destruct Hradius as [Hfinite Hpositive].
  destruct (scoreFromBoardXY_scored x y Script.scoringConfig
              Board.DARTBOARD_NUMBERS eq_refl eq_refl)
    as (info & idx & _ & _ & Hres); try reflexivity; [discriminate|].
  cbv zeta in Hres.
  set (wedgeValue := match toIndex idx with
                     | Some i => nth i Board.DARTBOARD_NUMBERS (ofZ 0)
                     | None => ofZ 0
                     end) in Hres.
  assert (Hindex : indexOf wedgeValue Board.DARTBOARD_NUMBERS
                   = match toIndex idx with
                     | Some i => if (i <? 20)%nat then Some i else None
                     | None => None
                     end).
  { subst wedgeValue. destruct (toIndex idx) as [i|]; [apply indexOf_wedge|].
    change (ofZ 0) with (nth 20 (@Board.DARTBOARD_NUMBERS num _) (ofZ 0)).
    now rewrite indexOf_wedge. }
  clearbody wedgeValue.
  rewrite Hscore in Hres. injection Hres as ->.
  unfold pendingHitGlow.
  change (numbers (HitGlow.scoring dartboard))
    with (Some (@Board.DARTBOARD_NUMBERS num _)).
  change (HitGlow.boardRadius dartboard) with (@Script.dartboardRadius num _).
  rewrite Hpositive.
  assert (HrNorm : Invariant.hitRNorm x y Script.scoringConfig
                   = Invariant.hitRadius x y / Script.dartboardRadius).
  { unfold Invariant.hitRNorm.
    change (Scoring.boardRadius Script.scoringConfig)
      with (VNumber (@Script.dartboardRadius num _)).
    cbv beta iota. now rewrite Hfinite, Hpositive. }
  destruct (ri_ring info);
    cbn [gs_ring gs_rNorm gs_wedgeIndex sr_ring sr_rNorm sr_radius sr_wedge
         sr_wedgeIndex missResult];
    rewrite ?HrNorm; (split; [reflexivity|]); (split; [reflexivity|]);
    try reflexivity;
    rewrite Hindex; (destruct (toIndex idx) as [i|]; [|reflexivity]);
    now destruct (i <? 20)%nat.
Qed.

End QueuedGlow.

(** Binary64 compares the wedge values as the integers they are. *)
Lemma float_wedge_equals (a b : Z) :
  (0 <= a <= 20)%Z -> (0 <= b <= 20)%Z ->
  Feedback.strictEquals (@ofZ float _ a) (ofZ b) = (a =? b)%Z.
Proof.
  intros Ha Hb.
  assert (Hcheck :
    forallb (fun a' =>
      forallb (fun b' =>
        Bool.eqb (Feedback.strictEquals (@ofZ float _ a') (ofZ b'))
                 (a' =? b')%Z)
        (seqZ 0 21)) (seqZ 0 21) = true) by (vm_compute; reflexivity).
  rewrite forallb_forall in Hcheck.
  specialize (Hcheck a). rewrite forallb_forall in Hcheck.
  apply Bool.eqb_prop, Hcheck.
  - apply list_elem_of_In, elem_of_seqZ. lia.
  - apply list_elem_of_In, elem_of_seqZ. lia.
Qed.

Lemma real_wedge_equals (a b : Z) :
  Feedback.strictEquals (IZR a) (IZR b) = (a =? b)%Z.
Proof.
  unfold Feedback.strictEquals. js_real.
  destruct (Z.eqb_spec a b) as [->|Hne].
  - now rewrite !Rleb_intro by lra.
  - destruct (Z.lt_ge_cases a b) as [Hlt | Hge].
    + apply IZR_lt in Hlt. rewrite (Rleb_intro_false (IZR b)) by lra.
      apply andb_false_r.
    + assert (Hlt : (b < a)%Z) by lia. apply IZR_lt in Hlt.
      now rewrite (Rleb_intro_false (IZR a)) by lra.
Qed.

Lemma RtoIndex_IZR (k : Z) :
  (0 <= k)%Z -> RtoIndex (IZR k) = Some (Z.to_nat k).
Proof.
  intros Hk. unfold RtoIndex.
  rewrite (Int_part_unique (IZR k) k) by lra.
  destruct (Req_dec_T (IZR k) (IZR k)); [|contradiction].
  destruct (Z.leb_spec 0 k); [reflexivity | lia].
Qed.

(** Over the exact numbers the queued index is the index of the
    scoring. *)
Lemma pendingHitGlow_real (x y : R) (result : ScoreResult R) :
  scoreFromBoardXY x y (Some Script.scoringConfig) = Some result ->
  Feedback.pendingHitGlow result =
  {| HitGlow.gs_ring := Some (sr_ring result);
     HitGlow.gs_rNorm := Some (sr_rNorm result);
     HitGlow.gs_wedgeIndex := sr_wedgeIndex result |}.
Proof.
  intros Hscore.
  assert (Hradius : @isFinite R _ Script.dartboardRadius = true /\
                    (@Script.dartboardRadius R _ >? 0%R)%js = true).
  { split; [reflexivity|].
    unfold Script.dartboardRadius, Board.boardRadius. cbn [default].
    js_real. apply Rltb_intro. lra. }
  destruct (@pendingHitGlow_scored R RealArith RealMath
              (fun a b _ _ => real_wedge_equals a b) Hradius x y result
              Hscore) as (Hring & HrNorm & Hindex).
  destruct (Feedback.pendingHitGlow result) as [ring rNorm wedgeIndex].
  cbn [HitGlow.gs_ring HitGlow.gs_rNorm HitGlow.gs_wedgeIndex] in *.
  subst ring rNorm. f_equal. rewrite Hindex.
  destruct (sr_wedgeIndex result) as [idx|] eqn:Hidx; [|reflexivity].
  (* the index the scoring computed is one of 0, ..., 19 *)
  destruct (scoreFromBoardXY_scored x y Script.scoringConfig
              Board.DARTBOARD_NUMBERS eq_refl eq_refl)
    as (info & idx' & _ & Hwedge & Hres); try reflexivity; [discriminate|].
  rewrite Hscore in Hres. injection Hres as ->.
  destruct (wedgeIndexFromAngle_integer
              (normAngle0To2Pi (atan2 y x)) Script.scoringConfig
              scoringConfig_valid) as (k & Hk & Hwedge').
  rewrite Hwedge' in Hwedge. injection Hwedge as <-.
  assert (idx = IZR k) as ->.
  { destruct (ri_ring info); cbn [sr_wedgeIndex missResult] in Hidx;
      congruence. }
  cbn [toIndex RealArith]. rewrite RtoIndex_IZR by lia.
  destruct (Nat.ltb_spec (Z.to_nat k) 20) as [_|Hge]; [|lia].
  cbn [ofZ RealArith]. now rewrite Z2Nat.id by lia.
Qed.

(** X28.  The glow [registerThrowScore] queues for a result of
    [scoreFromBoardXY] on the board of script.js carries the ring and the
    normalized radius of the result, and as wedge index the position of the
    scored wedge among the numbers of the board: that is the index the
    scoring computed when it is one of 0, ..., 19, and no index otherwise.
    This holds on binary64, whatever the library computes, and over the
    exact numbers, where the index always is the one of the scoring. *)
Theorem queued_glow_matches_score :
  (forall (lm : Libm) (x y : float) (result : ScoreResult float),
     @scoreFromBoardXY float _ (FloatMath lm) x y (Some Script.scoringConfig)
     = Some result ->
     let glow := Feedback.pendingHitGlow result in
     HitGlow.gs_ring glow = Some (sr_ring result) /\
     HitGlow.gs_rNorm glow = Some (sr_rNorm result) /\
     HitGlow.gs_wedgeIndex glow =
       match sr_wedgeIndex result with
       | Some idx =>
           match toIndex idx with
           | Some i => if (i <? 20)%nat then Some (ofZ (Z.of_nat i)) else None
           | None => None
           end
       | None => None
       end) /\
  (forall (x y : R) (result : ScoreResult R),
     scoreFromBoardXY x y (Some Script.scoringConfig) = Some result ->
     Feedback.pendingHitGlow result =
     {| HitGlow.gs_ring := Some (sr_ring result);
        HitGlow.gs_rNorm := Some (sr_rNorm result);
        HitGlow.gs_wedgeIndex := sr_wedgeIndex result |}).
Proof.
  split.
  - intros lm x y result.
    apply (@pendingHitGlow_scored float _ (FloatMath lm) float_wedge_equals).
    split; vm_compute; reflexivity.
  - apply pendingHitGlow_real.
Qed.

(** A hit straight up on binary64, with a library that answers the
    angle of the positive y axis, and the same hit over the exact
    numbers. *)
Lemma queued_glow_matches_score_witness :
  let lm := {| lm_atan2 := fun _ _ => 0x1.921fb54442d18p+0%float;
               lm_cos := fun _ => 0%float; lm_sin := fun _ => 1%float;
               lm_hypot := fun _ _ => 1%float |} in
  (exists result,
     @scoreFromBoardXY float _ (FloatMath lm) 0%float 1%float
       (Some Script.scoringConfig) = Some result /\
     HitGlow.gs_ring (Feedback.pendingHitGlow result) = Some (sr_ring result)) /\
  (exists result,
     scoreFromBoardXY 0%R 1%R (Some Script.scoringConfig) = Some result /\
     Feedback.pendingHitGlow result =
     {| HitGlow.gs_ring := Some (sr_ring result);
        HitGlow.gs_rNorm := Some (sr_rNorm result);
        HitGlow.gs_wedgeIndex := sr_wedgeIndex result |}).
Proof.
  intros lm. destruct queued_glow_matches_score as [Hfloat Hreal]. split.
  - destruct (@scoreFromBoardXY_total float _ (FloatMath lm) 0%float 1%float
                (Some Script.scoringConfig)) as [result Hresult].
    exists result. split; [exact Hresult|].
    apply (Hfloat lm 0%float 1%float result Hresult).
  - destruct (scoreFromBoardXY_total 0%R 1%R (Some (@Script.scoringConfig R _)))
      as [result Hresult].
    exists result. split; [exact Hresult|].
    apply (Hreal 0%R 1%R result Hresult).
Defined.

(** ** hitGlow.js on what script.js queues *)

Section GlowOfThrow.
Import HitGlow.
Local Open Scope R_scope.

(** The glow board of script.js draws the sectors of the board the darts
    are scored on. *)
Lemma dartboard_sector (innerR outerR wedgeIndex : R) :
  makeWedgeGlow Feedback.dartboard innerR outerR wedgeIndex
  = makeWedgeGlow {| scoring := Script.scoringConfig;
                     boardRadius := Script.dartboardRadius;
                     boardThickness := 35 / 100 |} innerR outerR wedgeIndex.
Proof. reflexivity. Qed.

(** X29.  Over the exact numbers, for every result of [scoreFromBoardXY]
    on the board of script.js, [setFromScore] on the glow that
    [registerThrowScore] queues never fails, shows no mesh exactly for a
    miss, shows a full ring for the two bulls, and for a result with a
    wedge shows a sector of positive length every angle of which is scored
    in the wedge of the hit. *)
Theorem glow_lights_scored_wedge (x y : R) (result : ScoreResult R) :
  scoreFromBoardXY x y (Some Script.scoringConfig) = Some result ->
  match setFromScore Feedback.dartboard
          (Some (Feedback.pendingHitGlow result)) with
  | None => False
  | Some None => sr_ring result = MISS
  | Some (Some geometry) =>
      sr_ring result <> MISS /\
      match sr_wedgeIndex result with
      | None =>
          (sr_ring result = DBULL \/ sr_ring result = SBULL) /\
          thetaStart geometry = None /\ thetaLength geometry = None
      | Some idx =>
          exists start length,
            thetaStart geometry = Some start /\
            thetaLength geometry = Some length /\ 0 < length /\
            forall theta,
              start <= theta <= start + length ->
              wedgeIndexFromAngle theta Script.scoringConfig = Some idx
      end
  end.
Proof.
  intros Hscore. rewrite (pendingHitGlow_real x y result Hscore).
  destruct (scoreFromBoardXY_scored x y Script.scoringConfig
              Board.DARTBOARD_NUMBERS eq_refl eq_refl)
    as (info & idx & _ & Hwedge & Hres); try reflexivity; [discriminate|].
  cbv zeta in Hres.
  set (wedgeValue := match toIndex idx with
                     | Some i => nth i Board.DARTBOARD_NUMBERS (ofZ 0)
                     | None => ofZ 0
                     end) in Hres.
  clearbody wedgeValue.
  rewrite Hscore in Hres. injection Hres as ->.
  destruct (wedgeIndexFromAngle_integer
              (normAngle0To2Pi (atan2 y x)) Script.scoringConfig
              scoringConfig_valid) as (k & Hk & Hwedge').
  rewrite Hwedge' in Hwedge. injection Hwedge as <-.
  unfold setFromScore, radiiForScore.
  change (ringRatios (scoring Feedback.dartboard))
    with (Some (@Board.ringRatios R _)).
  assert (Hsector : forall innerR outerR,
    match Some <$> makeWedgeGlow Feedback.dartboard innerR outerR (IZR k) with
    | None => False
    | Some None => False
    | Some (Some geometry) =>
        exists start length,
          thetaStart geometry = Some start /\
          thetaLength geometry = Some length /\ 0 < length /\
          forall theta,
            start <= theta <= start + length ->
            wedgeIndexFromAngle theta Script.scoringConfig = Some (IZR k)
    end).
  { intros innerR outerR. rewrite dartboard_sector.
    destruct (makeWedgeGlow_sector Script.scoringConfig
                Script.dartboardRadius (35 / 100) innerR outerR k
                scoringConfig_valid eq_refl Hk)
      as (geometry & start & length & -> & Hsector).
    cbn [fmap option_fmap option_map]. eauto. }
  destruct (ri_ring info);
    cbn [gs_ring gs_rNorm gs_wedgeIndex sr_ring sr_rNorm sr_wedgeIndex
         missResult mbind option_bind kind innerR outerR];
    try reflexivity;
    try (split; [discriminate|]; split; [auto|]; split; reflexivity).
  - specialize (Hsector (Script.dartboardRadius * doubleInner Board.ringRatios)
                  (Script.dartboardRadius * doubleOuter Board.ringRatios)).
    revert Hsector.
    change (boardRadius Feedback.dartboard) with (@Script.dartboardRadius R _).
    destruct (Some <$> makeWedgeGlow _ _ _ _) as [[geometry|]|];
      [|contradiction..].
    intros Hsector. split; [discriminate | exact Hsector].
  - specialize (Hsector (Script.dartboardRadius * tripleInner Board.ringRatios)
                  (Script.dartboardRadius * tripleOuter Board.ringRatios)).
    revert Hsector.
    change (boardRadius Feedback.dartboard) with (@Script.dartboardRadius R _).
    destruct (Some <$> makeWedgeGlow _ _ _ _) as [[geometry|]|];
      [|contradiction..].
    intros Hsector. split; [discriminate | exact Hsector].
  - change (boardRadius Feedback.dartboard) with (@Script.dartboardRadius R _).
    destruct (_ && _); cbn [kind innerR outerR].
    + specialize (Hsector (Script.dartboardRadius * bullOuter Board.ringRatios)
                    (Script.dartboardRadius * tripleInner Board.ringRatios)).
      revert Hsector.
      destruct (Some <$> makeWedgeGlow _ _ _ _) as [[geometry|]|];
        [|contradiction..].
      intros Hsector. split; [discriminate | exact Hsector].
    + specialize (Hsector (Script.dartboardRadius * tripleOuter Board.ringRatios)
                    (Script.dartboardRadius * doubleInner Board.ringRatios)).
      revert Hsector.
      destruct (Some <$> makeWedgeGlow _ _ _ _) as [[geometry|]|];
        [|contradiction..].
      intros Hsector. split; [discriminate | exact Hsector].
Qed.

(** A hit at the centre of the board: the double bull, a full ring. *)
Lemma glow_lights_scored_wedge_witness :
  exists result,
    scoreFromBoardXY 0 0 (Some Script.scoringConfig) = Some result /\
    match setFromScore Feedback.dartboard
            (Some (Feedback.pendingHitGlow result)) with
    | None => False
    | Some None => sr_ring result = MISS
    | Some (Some geometry) =>
        sr_ring result <> MISS /\
        match sr_wedgeIndex result with
        | None =>
            (sr_ring result = DBULL \/ sr_ring result = SBULL) /\
            thetaStart geometry = None /\ thetaLength geometry = None
        | Some idx =>
            exists start length,
              thetaStart geometry = Some start /\
              thetaLength geometry = Some length /\ 0 < length /\
              forall theta,
                start <= theta <= start + length ->
                wedgeIndexFromAngle theta Script.scoringConfig = Some idx
        end
    end.
Proof.
  destruct (scoreFromBoardXY_total 0 0 (Some (@Script.scoringConfig R _)))
    as [result Hresult].
  exists result. split; [exact Hresult|].
  exact (glow_lights_scored_wedge 0 0 result Hresult).
Defined.

End GlowOfThrow.
